(** * Sealos resource accounting: price registry, GPU names, unit normaliser

    A shallow embedding of [controllers/pkg/resources/resources.go].
    Go maps are finite maps, slices that are updated in place are lists
    updated by index, [int64] and [uint8] values are integers, a panic is
    [None], and the [float64] arithmetic of [GetResourceValue] is IEEE 754
    binary64 as specified by the standard library's [SpecFloat].

    The first part holds the model, the second part the lemmas. *)

From Stdlib Require Import ZArith String Ascii List Lia Bool.
From Stdlib Require Import Floats.SpecFloat.
From Stdlib Require Import Reals Lra.
From stdpp Require Import gmap strings list fin_maps.

Local Open Scope Z_scope.
Local Open Scope string_scope.

(** ** Go's [strings] package: the two functions the GPU helpers call *)

(** [strings.HasPrefix(s, prefix)] is
    [len(s) >= len(prefix) && s[0:len(prefix)] == prefix]. *)
Definition HasPrefix (s pfx : string) : bool :=
  (String.length pfx <=? String.length s)%nat
  && String.eqb (substring 0 (String.length pfx) s) pfx.

(** [strings.TrimPrefix(s, prefix)] returns [s[len(prefix):]] when [s] has
    the prefix and [s] itself otherwise. *)
Definition TrimPrefix (s pfx : string) : string :=
  if HasPrefix s pfx
  then substring (String.length pfx) (String.length s - String.length pfx) s
  else s.

(** ** GPU resource names *)

(** [GpuResourcePrefix] and the three helpers (lines 363 to 382): a GPU
    resource is named [gpu-] followed by the product, e.g.
    [gpu-tesla-v100]. *)
Definition GpuResourcePrefix : string := "gpu-".

Definition NewGpuResource (product : string) : string :=
  GpuResourcePrefix ++ product.

Definition IsGpuResource (resource : string) : bool :=
  HasPrefix resource GpuResourcePrefix.

Definition GetGpuResourceProduct (resource : string) : string :=
  TrimPrefix resource GpuResourcePrefix.

(** ** What the file imports from other packages

    [resource.Quantity] and its functions come from the Kubernetes
    apimachinery, [crypto.DecryptInt64] and [gpu.NvidiaGpuKey] from sibling
    packages.  They are taken as an interface; the facts listed with it are
    the ones the package-level initialisers of [resources.go] rely on. *)

(** [resource.Format]. *)
Inductive Format := DecimalExponent | BinarySI | DecimalSI.

Class Imports := {
  (** [resource.Quantity], compared with [==] against [resource.Quantity{}] *)
  Quantity : Type;
  Quantity_eq_dec :: EqDecision Quantity;
  Quantity_zero : Quantity;
  (** [resource.MustParse]; [None] when it panics *)
  MustParse : string -> option Quantity;
  (** the method [MilliValue] of a quantity *)
  MilliValue : Quantity -> Z;
  (** [resource.NewQuantity] *)
  NewQuantity : Z -> Format -> Quantity;
  MustParse_1m : exists q, MustParse "1m" = Some q /\ MilliValue q = 1;
  MustParse_1Mi : exists q, MustParse "1Mi" = Some q;
  MilliValue_NewQuantity : forall n f,
    - 2 ^ 63 <= n * 1000 < 2 ^ 63 -> MilliValue (NewQuantity n f) = n * 1000;
  (** [crypto.DecryptInt64]; [None] when it returns an error *)
  DecryptInt64 : string -> option Z;
  (** [gpu.NvidiaGpuKey]; Go rejects a map literal with a repeated constant
      key, so it differs from the other four keys of [PricesUnit] *)
  NvidiaGpuKey : string;
  NvidiaGpuKey_fresh :
    NvidiaGpuKey <> "cpu" /\ NvidiaGpuKey <> "memory"
    /\ NvidiaGpuKey <> "storage" /\ NvidiaGpuKey <> "network";
  (** Go leaves [int64(f)] implementation-dependent when [int64] cannot
      represent [f]; this is what the platform returns then *)
  int64_unrepresentable : spec_float -> Z
}.

(** ** Records of the ledger *)

(** [EnumUsedMap] is [map[uint8]int64]. *)
Abbreviation EnumUsedMap := (gmap Z Z).

(** Modelled from the spec: [accountv1.Type] is declared in
    [controllers/account/api/v1], which is not among the sources; the spec
    names the billing types consumption and transfer and leaves the others
    open. *)
Module accountv1.
Inductive type := Consumption | Transfer | Other (code : Z).
End accountv1.

Inductive BillingStatus := Unsettled | Settled.

Record Payment := {
  Payment_Method : string;
  Payment_UserID : string;
  Payment_Amount : Z;
  Payment_TradeNO : string;
  Payment_CodeURL : string
}.

Record Transfer := {
  Transfer_From : string;
  Transfer_To : string;
  Transfer_Amount : Z
}.

Record AppCost := {
  AppCost_Used : EnumUsedMap;
  AppCost_UsedAmount : EnumUsedMap;
  AppCost_Amount : Z;
  AppCost_Name : string
}.

(** [Billing] (lines 105 to 125); the two pointer fields are [None] when
    nil.  The sources declare the struct, without the code that builds
    it. *)
Record Billing := {
  Billing_Time : Z;
  Billing_OrderID : string;
  Billing_Type : accountv1.type;
  Billing_Namespace : string;
  Billing_AppCosts : list AppCost;
  Billing_AppType : Z;
  Billing_Amount : Z;
  Billing_Owner : string;
  Billing_Status : BillingStatus;
  Billing_Payment : option Payment;
  Billing_Transfer : option Transfer
}.

(** Sum of [AppCosts[i].Amount]. *)
Definition sum_AppCosts (l : list AppCost) : Z :=
  foldr (fun c acc => AppCost_Amount c + acc) 0 l.

(** Modelled from the spec: the failure with which the construction of a
    [Billing] rejects a record, one case for each of the two ledger
    invariants (a wrong sub-record for the declared type, an application
    cost sum mismatch). *)
Inductive validation_failure := WrongSubRecord | AppCostSumMismatch.

(** Modelled from the spec: the type discrimination of a [Billing].  Type
    consumption requires a non-nil payment and a nil transfer, type transfer
    requires a non-nil transfer and a nil payment; the spec constrains no
    other type. *)
Definition type_discrimination (ty : accountv1.type)
    (payment : option Payment) (transfer : option Transfer) : bool :=
  match ty, payment, transfer with
  | accountv1.Consumption, Some _, None => true
  | accountv1.Consumption, _, _ => false
  | accountv1.Transfer, None, Some _ => true
  | accountv1.Transfer, _, _ => false
  | accountv1.Other _, _, _ => true
  end.

(** Modelled from the spec: the sum law of a [Billing].  When application
    costs are present the amount equals the sum of their amounts. *)
Definition AppCost_sum_law (amount : Z) (appCosts : list AppCost) : bool :=
  match appCosts with
  | [] => true
  | _ :: _ => (amount =? sum_AppCosts appCosts)%Z
  end.

(** Modelled from the spec: the constructor of [Billing] is not among the
    sources, which hold the declaration of the struct only (lines 105 to
    125, the comments of lines 121 to 124 naming the sub-record of each
    type).  The spec has both invariants validated at construction time: a
    record violating one is rejected and the violation surfaced to the
    caller as a validation failure, never dropped or coerced; an accepted
    record is created unsettled. *)
Definition NewBilling (time : Z) (orderID : string) (ty : accountv1.type)
    (namespace : string) (appCosts : list AppCost) (appType amount : Z)
    (owner : string) (payment : option Payment) (transfer : option Transfer)
    : validation_failure + Billing :=
  if negb (type_discrimination ty payment transfer) then inl WrongSubRecord
  else if negb (AppCost_sum_law amount appCosts) then inl AppCostSumMismatch
  else inr {| Billing_Time := time; Billing_OrderID := orderID;
              Billing_Type := ty; Billing_Namespace := namespace;
              Billing_AppCosts := appCosts; Billing_AppType := appType;
              Billing_Amount := amount; Billing_Owner := owner;
              Billing_Status := Unsettled;
              Billing_Payment := payment; Billing_Transfer := transfer |}.

(** A payment, a transfer and an application cost of a given amount, for
    concrete runs. *)
Definition sample_payment : Payment :=
  {| Payment_Method := "wechat"; Payment_UserID := "u"; Payment_Amount := 1;
     Payment_TradeNO := "t"; Payment_CodeURL := "c" |}.

Definition sample_transfer : Transfer :=
  {| Transfer_From := "a"; Transfer_To := "b"; Transfer_Amount := 1 |}.

Definition sample_cost (name : string) (amount : Z) : AppCost :=
  {| AppCost_Used := ∅; AppCost_UsedAmount := ∅; AppCost_Amount := amount;
     AppCost_Name := name |}.

(** ** The price registry *)

Section Registry.
Context `{Imports}.

Record PropertyType := {
  Name : string;
  Alias : string;
  Enum : Z;
  PriceType : string;
  UnitPrice : Z;
  EncryptUnitPrice : string;
  Unit : Quantity;
  UnitString : string;
  UnitPeriod : string
}.

(** The Go zero value, which a map lookup returns for a missing key. *)
Definition PropertyType_zero : PropertyType :=
  {| Name := EmptyString; Alias := EmptyString; Enum := 0;
     PriceType := EmptyString; UnitPrice := 0;
     EncryptUnitPrice := EmptyString; Unit := Quantity_zero;
     UnitString := EmptyString; UnitPeriod := EmptyString |}.

(** [types[i].Unit = q] *)
Definition set_Unit (q : Quantity) (t : PropertyType) : PropertyType :=
  {| Name := Name t; Alias := Alias t; Enum := Enum t;
     PriceType := PriceType t; UnitPrice := UnitPrice t;
     EncryptUnitPrice := EncryptUnitPrice t; Unit := q;
     UnitString := UnitString t; UnitPeriod := UnitPeriod t |}.

(** [types[i].UnitPrice = price] *)
Definition set_UnitPrice (price : Z) (t : PropertyType) : PropertyType :=
  {| Name := Name t; Alias := Alias t; Enum := Enum t;
     PriceType := PriceType t; UnitPrice := price;
     EncryptUnitPrice := EncryptUnitPrice t; Unit := Unit t;
     UnitString := UnitString t; UnitPeriod := UnitPeriod t |}.

(** [PropertyTypeLS]; [Types] shares its backing array with the slice the
    registry was built from. *)
Record PropertyTypeLS := {
  Types : list PropertyType;
  StringMap : gmap string PropertyType;
  EnumMap : gmap Z PropertyType
}.

(** [DefaultPropertyTypeList] as its literal gives it (lines 236 to 265). *)
Definition DefaultPropertyTypeList : list PropertyType :=
  [ {| Name := "cpu"; Alias := EmptyString; Enum := 0; PriceType := "AVG";
       UnitPrice := 67; EncryptUnitPrice := EmptyString; Unit := Quantity_zero;
       UnitString := "1m"; UnitPeriod := EmptyString |};
    {| Name := "memory"; Alias := EmptyString; Enum := 1; PriceType := "AVG";
       UnitPrice := 33; EncryptUnitPrice := EmptyString; Unit := Quantity_zero;
       UnitString := "1Mi"; UnitPeriod := EmptyString |};
    {| Name := "storage"; Alias := EmptyString; Enum := 2; PriceType := "AVG";
       UnitPrice := 2; EncryptUnitPrice := EmptyString; Unit := Quantity_zero;
       UnitString := "1Mi"; UnitPeriod := EmptyString |};
    {| Name := "network"; Alias := EmptyString; Enum := 3; PriceType := "AVG";
       UnitPrice := 781; EncryptUnitPrice := EmptyString; Unit := Quantity_zero;
       UnitString := "1Mi"; UnitPeriod := EmptyString |} ].

(** [for i := range types] over a state [S]: [n] iterations from index [i];
    [None] is a panic inside the body. *)
Fixpoint for_range {S : Type} (body : nat -> S -> option S)
    (i n : nat) (s : S) : option S :=
  match n with
  | O => Some s
  | Datatypes.S n' =>
      match body i s with
      | Some s' => for_range body (Datatypes.S i) n' s'
      | None => None
      end
  end.

(** The [if] of the loop body of [newPropertyTypeLS]: parse the unit string
    of an entry whose [Unit] is still the zero quantity. *)
Definition parse_unit (t : PropertyType) : option PropertyType :=
  if decide (Unit t = Quantity_zero /\ UnitString t <> EmptyString)
  then match MustParse (UnitString t) with
       | Some q => Some (set_Unit q t)
       | None => None
       end
  else Some t.

(** One iteration of the loop of [newPropertyTypeLS] (lines 292 to 298):
    the entry is updated in the slice and copied into both maps. *)
Definition newPropertyTypeLS_body (i : nat) (ls : PropertyTypeLS)
    : option PropertyTypeLS :=
  match Types ls !! i with
  | None => None
  | Some t =>
      match parse_unit t with
      | None => None
      | Some t' =>
          Some {| Types := <[i := t']> (Types ls);
                  StringMap := <[Name t' := t']> (StringMap ls);
                  EnumMap := <[Enum t' := t']> (EnumMap ls) |}
      end
  end.

(** [newPropertyTypeLS] (lines 286 to 300). *)
Definition newPropertyTypeLS (types : list PropertyType)
    : option PropertyTypeLS :=
  for_range newPropertyTypeLS_body 0 (length types)
    {| Types := types; StringMap := ∅; EnumMap := ∅ |}.

(** The two errors [decryptPrice] builds with [fmt.Errorf]. *)
Inductive decrypt_error :=
  | ErrEmptyPrice (name : string)
  | ErrDecrypt (name : string).

(** The loop of [decryptPrice] (lines 302 to 322) from index [i], [n]
    iterations left.  The slice is returned as it stands when the loop
    stops. *)
Fixpoint decryptPrice_from (i n : nat) (types : list PropertyType)
    : list PropertyType * option decrypt_error :=
  match n with
  | O => (types, None)
  | Datatypes.S n' =>
      match types !! i with
      | None => (types, None)
      | Some t =>
          if decide (EncryptUnitPrice t = EmptyString)
          then (types, Some (ErrEmptyPrice (Name t)))
          else match DecryptInt64 (EncryptUnitPrice t) with
               | None => (types, Some (ErrDecrypt (Name t)))
               | Some price =>
                   decryptPrice_from (Datatypes.S i) n'
                     (<[i := set_UnitPrice price t]> types)
               end
      end
  end.

Definition decryptPrice (types : list PropertyType)
    : list PropertyType * option decrypt_error :=
  decryptPrice_from 0 (length types) types.

(** [var DefaultPropertyTypeLS = newPropertyTypeLS(DefaultPropertyTypeList)],
    run by the package initialiser.  The fallback branch is what a panic of
    the initialiser would leave; [MustParse_1m] and [MustParse_1Mi] exclude
    it. *)
Definition DefaultPropertyTypeLS : PropertyTypeLS :=
  match newPropertyTypeLS DefaultPropertyTypeList with
  | Some ls => ls
  | None => {| Types := DefaultPropertyTypeList; StringMap := ∅; EnumMap := ∅ |}
  end.

(** [NewPropertyTypeLS] (lines 277 to 284).  When it runs the initialiser
    has already built
    [DefaultPropertyTypeLS] over the array of [DefaultPropertyTypeList], so
    the slice the fallback reads is [Types DefaultPropertyTypeLS]; the
    warning it logs is not modelled. *)
Definition NewPropertyTypeLS (types : list PropertyType)
    : option PropertyTypeLS :=
  match decryptPrice types with
  | (_, Some _) => newPropertyTypeLS (Types DefaultPropertyTypeLS)
  | (types', None) => newPropertyTypeLS types'
  end.

(** [ConvertEnumUsedToString] (lines 269 to 275) along one visiting order
    of [range costs]:
    [costsMap[DefaultPropertyTypeLS.EnumMap[k].Name] = v] for each entry. *)
Definition ConvertEnumUsedToString_along (order : list (Z * Z))
    : gmap string Z :=
  foldl (fun costsMap kv =>
           <[Name (default PropertyType_zero
                     (EnumMap DefaultPropertyTypeLS !! kv.1)) := kv.2]> costsMap)
        ∅ order.

(** The name [ConvertEnumUsedToString] files the amount of id [k] under. *)
Definition default_name (k : Z) : string :=
  Name (default PropertyType_zero (EnumMap DefaultPropertyTypeLS !! k)).

(** Go visits every entry of a map once, in an order it does not specify. *)
Definition range_order (costs : EnumUsedMap) (order : list (Z * Z)) : Prop :=
  order ≡ₚ map_to_list costs.

(** [costsMap] is a result of [ConvertEnumUsedToString(costs)]. *)
Definition ConvertEnumUsedToString (costs : EnumUsedMap)
    (costsMap : gmap string Z) : Prop :=
  exists order, range_order costs order
                /\ costsMap = ConvertEnumUsedToString_along order.

(** Go's [m[k]], which yields the zero value for a missing key. *)
Definition StringMap_at (ls : PropertyTypeLS) (name : string) : PropertyType :=
  default PropertyType_zero (StringMap ls !! name).

Definition EnumMap_at (ls : PropertyTypeLS) (k : Z) : PropertyType :=
  default PropertyType_zero (EnumMap ls !! k).

(** *** Auxiliary notions used to state the properties *)

(** An index built by assigning [m[key t] = t] along a list, first to last. *)
Definition index_by {K : Type} `{Countable K} (key : PropertyType -> K)
    (ts : list PropertyType) (m : gmap K PropertyType) : gmap K PropertyType :=
  foldl (fun m t => <[key t := t]> m) m ts.

(** The entry has no ciphertext, or it has one that does not decrypt. *)
Definition fails_decrypt (t : PropertyType) : Prop :=
  EncryptUnitPrice t = EmptyString
  \/ DecryptInt64 (EncryptUnitPrice t) = None.

(** The [(name, price, unit)] triples of a list of properties. *)
Definition price_table (ts : list PropertyType) : list (string * Z * string) :=
  (fun t => (Name t, UnitPrice t, UnitString t)) <$> ts.

(** The entry has a ciphertext and it decrypts. *)
Definition decrypts (t : PropertyType) : Prop :=
  EncryptUnitPrice t <> EmptyString
  /\ is_Some (DecryptInt64 (EncryptUnitPrice t)).

(** The entry with its price replaced by the decrypted one. *)
Definition decrypted (t : PropertyType) : PropertyType :=
  match DecryptInt64 (EncryptUnitPrice t) with
  | Some price => set_UnitPrice price t
  | None => t
  end.

End Registry.

(** ** float64

    [GetResourceValue] computes in [float64].  The operations are those of
    IEEE 754 binary64 (53 bits of precision, round to nearest even), taken
    from [SpecFloat]. *)

(** [float64(v)] for an [int64] [v]. *)
Definition float64_of_int64 (v : Z) : spec_float :=
  binary_normalize 53 1024 v 0 false.

(** [x / y] on [float64]. *)
Definition float64_div (x y : spec_float) : spec_float := SFdiv 53 1024 x y.

(** [math.Ceil]: the least integral value not below [x]; zeros, infinities
    and NaN are returned as they are, and a negative fraction above -1 gives
    the negative zero. *)
Definition Ceil (x : spec_float) : spec_float :=
  match x with
  | S754_finite s m e =>
      if (0 <=? e)%Z then x
      else binary_normalize 53 1024
             (if s then - (Zpos m / 2 ^ (- e)) else - ((- Zpos m) / 2 ^ (- e)))
             0 s
  | _ => x
  end.

(** The integer a finite [float64] truncates to; [None] for infinities and
    NaN. *)
Definition float64_to_Z (x : spec_float) : option Z :=
  match x with
  | S754_zero _ => Some 0
  | S754_finite s m e =>
      Some (cond_Zopp s (if (0 <=? e)%Z then Zpos m * 2 ^ e
                         else Zpos m / 2 ^ (- e)))
  | _ => None
  end.

(** [math.Ceil(float64(v) / float64(d))] as an integer, before the
    conversion to [int64]. *)
Definition ceil_quotient (v d : Z) : option Z :=
  float64_to_Z (Ceil (float64_div (float64_of_int64 v) (float64_of_int64 d))).

(** [ceil(v / d)] over the integers. *)
Definition Zceil_div (v d : Z) : Z := - ((- v) / d).

(** *** Notions used to reason about the rounding *)

(** The power of two with an integer exponent. *)
Definition pow2 (e : Z) : R := powerRZ 2 e.

(** The real number a float stands for. *)
Definition float_val (f : spec_float) : R :=
  match f with
  | S754_finite s m e =>
      if s then (- (IZR (Zpos m) * pow2 e))%R else (IZR (Zpos m) * pow2 e)%R
  | _ => 0%R
  end.

(** A mantissa of exactly 53 bits. *)
Definition normal_mantissa (m : positive) : Prop := 2 ^ 52 <= Zpos m < 2 ^ 53.

(** [l] locates [t] in the interval from [m] to [m + 1]. *)
Definition loc_ok (t : R) (m : Z) (l : location) : Prop :=
  match l with
  | loc_Exact => t = IZR m
  | loc_Inexact Lt => (IZR m < t < IZR m + / 2)%R
  | loc_Inexact Eq => t = (IZR m + / 2)%R
  | loc_Inexact Gt => (IZR m + / 2 < t < IZR m + 1)%R
  end.

(** [y] is a rounding of the positive real [x] to 53 bits: with [x] scaled
    into the range from [2^52] to [2^53], [y] is an integer within one half
    of it, scaled back. *)
Definition RND (x y : R) : Prop :=
  exists (e0 m0 : Z) (t : R),
    (x = t * pow2 e0 /\ IZR (2 ^ 52) <= t < IZR (2 ^ 53)
     /\ IZR m0 - / 2 <= t <= IZR m0 + / 2
     /\ y = IZR m0 * pow2 e0)%R.

(** ** The unit normaliser *)

(** [corev1.ResourceCPU], [corev1.ResourceMemory] and
    [corev1.ResourceStorage] of the Kubernetes API, and [ResourceNetwork]. *)
Definition ResourceCPU : string := "cpu".
Definition ResourceMemory : string := "memory".
Definition ResourceStorage : string := "storage".
Definition ResourceNetwork : string := "network".

Section Normaliser.
Context `{Imports}.

(** [ResourceGPU] is [gpu.NvidiaGpuKey]. *)
Definition ResourceGPU : string := NvidiaGpuKey.

(** [QuantityDetail] embeds a pointer to a quantity, [None] when nil. *)
Record QuantityDetail := {
  QuantityDetail_Quantity : option Quantity;
  QuantityDetail_Detail : string
}.

(** [bin1Mi = resource.NewQuantity(1<<20, resource.BinarySI)] *)
Definition bin1Mi : Quantity := NewQuantity (Z.shiftl 1 20) BinarySI.

(** [cpuUnit = resource.MustParse("1m")]; the fallback is what a panic of
    the initialiser would leave, and [MustParse_1m] excludes it. *)
Definition cpuUnit : Quantity :=
  match MustParse "1m" with
  | Some q => q
  | None => Quantity_zero
  end.

(** [PricesUnit] (lines 388 to 394); a missing key yields the nil
    pointer. *)
Definition PricesUnit : gmap string Quantity :=
  <[ResourceNetwork := bin1Mi]>
    (<[ResourceStorage := bin1Mi]>
       (<[ResourceMemory := bin1Mi]>
          (<[ResourceGPU := cpuUnit]>
             (<[ResourceCPU := cpuUnit]> ∅)))).

(** [int64(f)]: the fraction is discarded; when [int64] cannot represent
    the value the result is what the platform yields. *)
Definition int64_of_float64 (x : spec_float) : Z :=
  match float64_to_Z x with
  | Some n =>
      if ((- 2 ^ 63 <=? n)%Z && (n <? 2 ^ 63)%Z)%bool then n
      else int64_unrepresentable x
  | None => int64_unrepresentable x
  end.

(** [GetResourceValue] (lines 517 to 523); [None] is the panic of a method
    call through a nil pointer.  A key of [res] bound to a nil pointer
    behaves as a missing key. *)
Definition GetResourceValue (resourceName : string)
    (res : gmap string QuantityDetail) : option Z :=
  match res !! resourceName with
  | None => Some 0
  | Some quantity =>
      match QuantityDetail_Quantity quantity with
      | None => None
      | Some q =>
          if (MilliValue q =? 0)%Z then Some 0
          else
            match PricesUnit !! resourceName with
            | None => None
            | Some unit =>
                Some (int64_of_float64
                        (Ceil (float64_div
                                 (float64_of_int64 (MilliValue q))
                                 (float64_of_int64 (MilliValue unit)))))
            end
      end
  end.

(** A quantity without detail text, and the map holding it for one
    resource. *)
Definition plain_quantity (q : Quantity) : QuantityDetail :=
  {| QuantityDetail_Quantity := Some q; QuantityDetail_Detail := EmptyString |}.

Definition single_resource (resourceName : string) (q : Quantity)
    : gmap string QuantityDetail :=
  {[ resourceName := plain_quantity q ]}.

End Normaliser.

(** ** Application types *)

(** The constants [db] to [other] (lines 164 to 176), [iota + 1] onwards;
    in a module of their own, [app] being the name of list concatenation. *)
Module apptype.
Definition db : Z := 1.
Definition app : Z := 2.
Definition terminal : Z := 3.
Definition job : Z := 4.
Definition other : Z := 5.
End apptype.

Definition DB : string := "DB".
Definition APP : string := "APP".
Definition TERMINAL : string := "TERMINAL".
Definition JOB : string := "JOB".
Definition OTHER : string := "OTHER".

(** [AppType] and [AppTypeReverse] (lines 186 to 192). *)
Definition AppType : gmap string Z :=
  <[OTHER := apptype.other]>
    (<[JOB := apptype.job]>
       (<[TERMINAL := apptype.terminal]>
          (<[APP := apptype.app]> (<[DB := apptype.db]> ∅)))).

Definition AppTypeReverse : gmap Z string :=
  <[apptype.other := OTHER]>
    (<[apptype.job := JOB]>
       (<[apptype.terminal := TERMINAL]>
          (<[apptype.app := APP]> (<[apptype.db := DB]> ∅)))).

(** ** Default prices *)

(** [Price] (lines 71 to 76). *)
Record Price := {
  Price_Property : string;
  Price_Price : Z;
  Price_Detail : string
}.

(** [DefaultPrices] (lines 396 to 409). *)
Definition DefaultPrices : gmap string Price :=
  <["storage" := {| Price_Property := "storage"; Price_Price := 2;
                    Price_Detail := EmptyString |}]>
    (<["memory" := {| Price_Property := "memory"; Price_Price := 33;
                      Price_Detail := EmptyString |}]>
       (<["cpu" := {| Price_Property := "cpu"; Price_Price := 67;
                      Price_Detail := EmptyString |}]> ∅)).

(** ** Infrastructure quantities *)

(** Go's [int] is 32 or 64 bits wide and its arithmetic wraps around in
    two's complement; [int_wrap IntSize x] is the [int] that the exact
    result [x] becomes. *)
Definition int_wrap (IntSize x : Z) : Z :=
  (x + 2 ^ (IntSize - 1)) mod 2 ^ IntSize - 2 ^ (IntSize - 1).

(** [infraCPUMap], in cores (lines 412 to 419). *)
Definition infraCPUMap : gmap string Z :=
  <["ecs.g7.xlarge" := 4]>
    (<["ecs.g7.large" := 2]>
       (<["ecs.c7.large" := 2]>
          (<["t2.xlarge" := 4]>
             (<["t2.large" := 2]> (<["t2.medium" := 2]> ∅))))).

(** [infraMemoryMap], in GiB (lines 422 to 429). *)
Definition infraMemoryMap : gmap string Z :=
  <["ecs.g7.xlarge" := 16]>
    (<["ecs.g7.large" := 8]>
       (<["ecs.c7.large" := 4]>
          (<["t2.xlarge" := 16]>
             (<["t2.large" := 8]> (<["t2.medium" := 4]> ∅))))).

Section Infra.
Context `{Imports}.

(** The width of [int] on the platform. *)
Variable IntSize : Z.

(** [GetInfraCPUQuantity] (lines 497 to 502); [None] is the nil pointer.
    The product is computed in [int]; the conversion to [int64] keeps its
    value. *)
Definition GetInfraCPUQuantity (flavor : string) (count : Z)
    : option Quantity :=
  match infraCPUMap !! flavor with
  | Some v => Some (NewQuantity (int_wrap IntSize (v * count)) DecimalSI)
  | None => None
  end.

(** [GetInfraMemoryQuantity] (lines 505 to 510). *)
Definition GetInfraMemoryQuantity (flavor : string) (count : Z)
    : option Quantity :=
  match infraMemoryMap !! flavor with
  | Some v =>
      Some (NewQuantity
              (int_wrap IntSize (Z.shiftl (int_wrap IntSize (v * count)) 30))
              BinarySI)
  | None => None
  end.

(** [GetInfraDiskQuantity] (lines 513 to 515). *)
Definition GetInfraDiskQuantity (capacity : Z) : Quantity :=
  NewQuantity (int_wrap IntSize (Z.shiftl capacity 30)) BinarySI.

End Infra.

(** The flavors of the two tables. *)
Definition infra_flavors : list string :=
  ["t2.medium"; "t2.large"; "t2.xlarge"; "ecs.c7.large"; "ecs.g7.large";
   "ecs.g7.xlarge"]%list.

(** ** A reference implementation of the imports

    Concrete runs of the model need concrete imports.  Quantities are kept
    as their milli-value and format; [MustParse] reads an unsigned decimal
    number followed by one of the suffixes [m], none, [Ki], [Mi], [Gi];
    the cipher of [DecryptInt64] is the decimal notation of the price; the
    GPU key is the one of the NVIDIA device plugin; and an unrepresentable
    conversion yields the smallest [int64], as the conversion instruction
    of amd64 does. *)

Module Reference.

Record quantity := { q_milli : Z; q_format : option Format }.

#[export] Instance Format_eq_dec : EqDecision Format.
Proof. solve_decision. Defined.

#[export] Instance quantity_eq_dec : EqDecision quantity.
Proof. solve_decision. Defined.

Definition digit_of (c : ascii) : option Z :=
  let n := Z.of_nat (nat_of_ascii c) in
  if ((48 <=? n)%Z && (n <=? 57)%Z)%bool then Some (n - 48) else None.

Fixpoint parse_number (s : string) (acc : Z) : Z * string :=
  match s with
  | String c r =>
      match digit_of c with
      | Some d => parse_number r (acc * 10 + d)
      | None => (acc, s)
      end
  | EmptyString => (acc, s)
  end.

Definition starts_with_digit (s : string) : bool :=
  match s with
  | String c _ => match digit_of c with Some _ => true | None => false end
  | EmptyString => false
  end.

Definition parse_quantity (s : string) : option quantity :=
  if starts_with_digit s then
    let '(n, suffix) := parse_number s 0 in
    if String.eqb suffix "m" then Some {| q_milli := n; q_format := Some DecimalSI |}
    else if String.eqb suffix EmptyString
      then Some {| q_milli := n * 1000; q_format := Some DecimalSI |}
    else if String.eqb suffix "Ki"
      then Some {| q_milli := n * 2 ^ 10 * 1000; q_format := Some BinarySI |}
    else if String.eqb suffix "Mi"
      then Some {| q_milli := n * 2 ^ 20 * 1000; q_format := Some BinarySI |}
    else if String.eqb suffix "Gi"
      then Some {| q_milli := n * 2 ^ 30 * 1000; q_format := Some BinarySI |}
    else None
  else None.

Definition decrypt_decimal (s : string) : option Z :=
  if starts_with_digit s then
    let '(n, rest) := parse_number s 0 in
    if String.eqb rest EmptyString then Some n else None
  else None.

#[export] Instance imports : Imports.
Proof.
  refine {| Quantity := quantity;
            Quantity_zero := {| q_milli := 0; q_format := None |};
            MustParse := parse_quantity;
            MilliValue := q_milli;
            NewQuantity := fun n f => {| q_milli := n * 1000; q_format := Some f |};
            DecryptInt64 := decrypt_decimal;
            NvidiaGpuKey := "nvidia.com/gpu";
            int64_unrepresentable := fun _ => - 2 ^ 63 |}.
  - eexists. split; reflexivity.
  - eexists. reflexivity.
  - reflexivity.
  - repeat split; discriminate.
Defined.

(** The quantity of [v] milli-units. *)
Definition milli (v : Z) : @Quantity imports :=
  {| q_milli := v; q_format := Some DecimalSI |}.

(** Two properties sharing one enumeration id. *)
Definition shared_enum_types : list PropertyType :=
  [ {| Name := "a"; Alias := EmptyString; Enum := 0; PriceType := "AVG";
       UnitPrice := 1; EncryptUnitPrice := EmptyString; Unit := Quantity_zero;
       UnitString := EmptyString; UnitPeriod := EmptyString |};
    {| Name := "b"; Alias := EmptyString; Enum := 0; PriceType := "AVG";
       UnitPrice := 2; EncryptUnitPrice := EmptyString; Unit := Quantity_zero;
       UnitString := EmptyString; UnitPeriod := EmptyString |} ].

(** A price list in which the second entry has no ciphertext. *)
Definition half_encrypted_types : list PropertyType :=
  [ {| Name := "cpu"; Alias := EmptyString; Enum := 0; PriceType := "AVG";
       UnitPrice := 0; EncryptUnitPrice := "70"; Unit := Quantity_zero;
       UnitString := "1m"; UnitPeriod := EmptyString |};
    {| Name := "memory"; Alias := EmptyString; Enum := 1; PriceType := "AVG";
       UnitPrice := 0; EncryptUnitPrice := EmptyString; Unit := Quantity_zero;
       UnitString := "1Mi"; UnitPeriod := EmptyString |} ].

(** A price list in which every entry has a ciphertext that decrypts. *)
Definition encrypted_types : list PropertyType :=
  [ {| Name := "cpu"; Alias := EmptyString; Enum := 0; PriceType := "AVG";
       UnitPrice := 0; EncryptUnitPrice := "70"; Unit := Quantity_zero;
       UnitString := "1m"; UnitPeriod := EmptyString |};
    {| Name := "memory"; Alias := EmptyString; Enum := 1; PriceType := "AVG";
       UnitPrice := 0; EncryptUnitPrice := "35"; Unit := Quantity_zero;
       UnitString := "1Mi"; UnitPeriod := EmptyString |} ].

End Reference.

(** * Properties *)

(** ** Strings and GPU names *)

Lemma substring_all (s : string) : substring 0 (String.length s) s = s.
Proof. induction s as [|c s IH]; simpl; [reflexivity | now rewrite IH]. Qed.

Lemma substring_prefix (p s : string) :
  substring 0 (String.length p) (p ++ s) = p.
Proof. induction p as [|c p IH]; simpl; [now destruct s | now rewrite IH]. Qed.

Lemma substring_suffix (p s : string) :
  substring (String.length p) (String.length s) (p ++ s) = s.
Proof. induction p as [|c p IH]; simpl; [apply substring_all | exact IH]. Qed.

Lemma string_length_app (p s : string) :
  String.length (p ++ s) = (String.length p + String.length s)%nat.
Proof. induction p as [|c p IH]; simpl; [reflexivity | now rewrite IH]. Qed.

Lemma substring_split (n : nat) (s : string) :
  (n <= String.length s)%nat ->
  s = substring 0 n s ++ substring n (String.length s - n) s.
Proof.
  revert s; induction n as [|n IH]; intros s Hn.
  - simpl. rewrite Nat.sub_0_r, substring_all. now destruct s.
  - destruct s as [|c s]; simpl in *; [lia |].
    change (String c s
            = String c (substring 0 n s ++ substring n (String.length s - n) s)).
    f_equal. apply IH. lia.
Qed.

Lemma HasPrefix_app (p s : string) : HasPrefix (p ++ s) p = true.
Proof.
  unfold HasPrefix. rewrite substring_prefix, String.eqb_refl, string_length_app.
  rewrite andb_true_r. apply Nat.leb_le. lia.
Qed.

Lemma HasPrefix_spec (s p : string) :
  HasPrefix s p = true <-> exists t, s = p ++ t.
Proof.
  split.
  - unfold HasPrefix. intros H. apply andb_true_iff in H as [Hl He].
    apply Nat.leb_le in Hl. apply String.eqb_eq in He.
    exists (substring (String.length p) (String.length s - String.length p) s).
    rewrite <- He at 1. now apply substring_split.
  - intros [t ->]. apply HasPrefix_app.
Qed.

Lemma TrimPrefix_app (p s : string) : TrimPrefix (p ++ s) p = s.
Proof.
  unfold TrimPrefix. rewrite HasPrefix_app, string_length_app.
  replace (String.length p + String.length s - String.length p)%nat
    with (String.length s) by lia.
  apply substring_suffix.
Qed.

(** C9. For every product [p], [NewGpuResource p] is ["gpu-"] followed by
    [p], it is recognised by [IsGpuResource], and [GetGpuResourceProduct]
    recovers [p]; the product ["tesla-v100"] gives ["gpu-tesla-v100"] and
    back.  A string that does not start with ["gpu-"] is not a GPU resource
    and [GetGpuResourceProduct] returns it unchanged. *)
Theorem gpu_resource_round_trip :
  (forall p : string,
      NewGpuResource p = "gpu-" ++ p
      /\ IsGpuResource (NewGpuResource p) = true
      /\ GetGpuResourceProduct (NewGpuResource p) = p)
  /\ NewGpuResource "tesla-v100" = "gpu-tesla-v100"
  /\ GetGpuResourceProduct "gpu-tesla-v100" = "tesla-v100"
  /\ (forall s : string,
         (forall t : string, s <> "gpu-" ++ t) ->
         IsGpuResource s = false /\ GetGpuResourceProduct s = s).
Proof.
  split; [|split; [reflexivity | split; [reflexivity |]]].
  - intros p. split; [reflexivity | split].
    + apply HasPrefix_app.
    + apply TrimPrefix_app.
  - intros s Hs.
    assert (Hf : IsGpuResource s = false).
    { destruct (IsGpuResource s) eqn:E; [| reflexivity].
      apply HasPrefix_spec in E as [t Ht]. now destruct (Hs t). }
    split; [exact Hf |].
    unfold GetGpuResourceProduct, TrimPrefix.
    unfold IsGpuResource in Hf. now rewrite Hf.
Qed.

Lemma gpu_resource_round_trip_witness :
  IsGpuResource "cpu" = false /\ GetGpuResourceProduct "cpu" = "cpu".
Proof.
  apply (proj2 (proj2 (proj2 gpu_resource_round_trip)) "cpu").
  intros t Ht. discriminate Ht.
Defined.

(** X12. A string is recognised by [IsGpuResource] exactly when
    [NewGpuResource] rebuilds it from the product that
    [GetGpuResourceProduct] extracts from it.  [NewGpuResource] is injective,
    and [GetGpuResourceProduct] removes the four characters of one prefix
    from a GPU resource name and nothing from any other string. *)
Theorem gpu_resource_name_iff :
  (forall s : string,
      IsGpuResource s = true <-> NewGpuResource (GetGpuResourceProduct s) = s)
  /\ (forall p q : string, NewGpuResource p = NewGpuResource q -> p = q)
  /\ (forall s : string,
        String.length (GetGpuResourceProduct s)
        = if IsGpuResource s then (String.length s - 4)%nat
          else String.length s).
Proof.
  split; [| split].
  - intros s. split.
    + intros Hs. apply HasPrefix_spec in Hs as [t ->].
      unfold GetGpuResourceProduct. now rewrite TrimPrefix_app.
    + intros <-. apply HasPrefix_app.
  - intros p q E. apply (f_equal GetGpuResourceProduct) in E.
    unfold GetGpuResourceProduct, NewGpuResource in E.
    now rewrite !TrimPrefix_app in E.
  - intros s. destruct (IsGpuResource s) eqn:Hs.
    + apply HasPrefix_spec in Hs as [t ->].
      unfold GetGpuResourceProduct. rewrite TrimPrefix_app, string_length_app.
      cbn. lia.
    + unfold GetGpuResourceProduct, TrimPrefix.
      unfold IsGpuResource in Hs. now rewrite Hs.
Qed.

(** ** The price registry *)

Section RegistryFacts.
Context `{Imports}.
Local Open Scope list_scope.

Lemma parse_unit_Name (t t' : PropertyType) :
  parse_unit t = Some t' -> Name t' = Name t.
Proof.
  unfold parse_unit. case_decide; [destruct (MustParse _) |];
    intros E; inversion E; reflexivity.
Qed.

Lemma parse_unit_Enum (t t' : PropertyType) :
  parse_unit t = Some t' -> Enum t' = Enum t.
Proof.
  unfold parse_unit. case_decide; [destruct (MustParse _) |];
    intros E; inversion E; reflexivity.
Qed.

Lemma parse_unit_UnitPrice (t t' : PropertyType) :
  parse_unit t = Some t' ->
  UnitPrice t' = UnitPrice t /\ EncryptUnitPrice t' = EncryptUnitPrice t.
Proof.
  unfold parse_unit. case_decide; [destruct (MustParse _) |];
    intros E; inversion E; split; reflexivity.
Qed.

(** An entry that went through the loop body is left alone by it. *)
Lemma parse_unit_idem (t t' : PropertyType) :
  parse_unit t = Some t' -> parse_unit t' = Some t'.
Proof.
  unfold parse_unit at 1. case_decide as Hc.
  - destruct (MustParse (UnitString t)) as [q|] eqn:Eq; [| discriminate].
    intros E; inversion E; subst t'; clear E.
    unfold parse_unit. case_decide as Hc'; [| reflexivity].
    destruct Hc' as [Hz _]. simpl in *. rewrite Eq. now rewrite Hz.
  - intros E; inversion E; subst t'. unfold parse_unit.
    case_decide; [contradiction | reflexivity].
Qed.

(** The loop of [newPropertyTypeLS], entry by entry. *)
Lemma newPropertyTypeLS_from (pre rest : list PropertyType)
    (sm : gmap string PropertyType) (em : gmap Z PropertyType) :
  for_range newPropertyTypeLS_body (length pre) (length rest)
    {| Types := pre ++ rest; StringMap := sm; EnumMap := em |}
  = match mapM parse_unit rest with
    | Some ts => Some {| Types := pre ++ ts;
                         StringMap := index_by Name ts sm;
                         EnumMap := index_by Enum ts em |}
    | None => None
    end.
Proof.
  revert pre sm em. induction rest as [|t rest IH]; intros pre sm em.
  - reflexivity.
  - cbn [length for_range]. unfold newPropertyTypeLS_body at 1.
    cbn [Types StringMap EnumMap].
    rewrite list_lookup_middle by reflexivity.
    cbn [mapM]. unfold mbind, option_bind at 1.
    destruct (parse_unit t) as [t'|] eqn:Et; [| reflexivity].
    replace (<[length pre:=t']> (pre ++ t :: rest)) with ((pre ++ [t']) ++ rest)%list.
    2:{ rewrite <- (Nat.add_0_r (length pre)), insert_app_r.
        now rewrite <- app_assoc. }
    replace (Datatypes.S (length pre)) with (length (pre ++ [t'])%list)
      by (rewrite length_app; simpl; lia).
    rewrite IH. unfold mbind, option_bind, mret, option_ret.
    destruct (mapM parse_unit rest) as [ts|]; [| reflexivity].
    now rewrite <- app_assoc.
Qed.

Lemma newPropertyTypeLS_spec (types : list PropertyType) :
  newPropertyTypeLS types
  = match mapM parse_unit types with
    | Some ts => Some {| Types := ts;
                         StringMap := index_by Name ts ∅;
                         EnumMap := index_by Enum ts ∅ |}
    | None => None
    end.
Proof. apply (newPropertyTypeLS_from [] types). Qed.

Lemma mapM_parse_unit_idem (types ts : list PropertyType) :
  mapM parse_unit types = Some ts -> mapM parse_unit ts = Some ts.
Proof.
  rewrite !mapM_Some. intros HF.
  induction HF as [|t t' l l' Ht _ IH]; constructor; [| exact IH].
  eapply parse_unit_idem, Ht.
Qed.

(** Building again from the slice of a built registry gives that registry. *)
Lemma newPropertyTypeLS_rebuild (types : list PropertyType) (ls : PropertyTypeLS) :
  newPropertyTypeLS types = Some ls -> newPropertyTypeLS (Types ls) = Some ls.
Proof.
  rewrite newPropertyTypeLS_spec.
  destruct (mapM parse_unit types) as [ts|] eqn:E; [| discriminate].
  intros E'; inversion E'; subst ls; clear E'. cbn [Types].
  rewrite newPropertyTypeLS_spec, (mapM_parse_unit_idem _ _ E). reflexivity.
Qed.

(** *** Lookups in an index *)

Section Index.
Context {K : Type} `{Countable K} (key : PropertyType -> K).

Lemma index_by_other (ts : list PropertyType) (m : gmap K PropertyType) (k : K) :
  k ∉ key <$> ts -> index_by key ts m !! k = m !! k.
Proof.
  revert m. induction ts as [|t ts IH]; intros m Hk; [reflexivity |].
  rewrite fmap_cons, not_elem_of_cons in Hk. destruct Hk as [Hne Hk].
  cbn [index_by foldl]. fold (index_by key ts (<[key t:=t]> m)).
  rewrite IH by exact Hk. now apply lookup_insert_ne.
Qed.

Lemma index_by_elem (ts : list PropertyType) (m : gmap K PropertyType)
    (k : K) (p : PropertyType) :
  index_by key ts m !! k = Some p ->
  (p ∈ ts /\ key p = k) \/ m !! k = Some p.
Proof.
  revert m. induction ts as [|t ts IH]; intros m E; [now right |].
  cbn [index_by foldl] in E. fold (index_by key ts (<[key t:=t]> m)) in E.
  apply IH in E as [[Hin Hk] | E].
  - left. split; [now apply elem_of_cons; right | exact Hk].
  - rewrite lookup_insert in E. case_decide as Hd.
    + inversion E; subst p. left. split; [apply elem_of_cons; now left | exact Hd].
    + now right.
Qed.

Lemma index_by_is_Some (ts : list PropertyType) (m : gmap K PropertyType)
    (k : K) :
  k ∈ key <$> ts -> is_Some (index_by key ts m !! k).
Proof.
  revert m. induction ts as [|t ts IH]; intros m Hk.
  - now apply elem_of_nil in Hk.
  - cbn [index_by foldl]. fold (index_by key ts (<[key t:=t]> m)).
    destruct (decide (k ∈ key <$> ts)) as [Hin | Hnin]; [now apply IH |].
    rewrite index_by_other by exact Hnin.
    rewrite fmap_cons in Hk. apply elem_of_cons in Hk as [-> | Hk]; [| contradiction].
    rewrite lookup_insert_eq. eauto.
Qed.

Lemma index_by_NoDup (ts : list PropertyType) (m : gmap K PropertyType)
    (t : PropertyType) :
  NoDup (key <$> ts) -> t ∈ ts -> index_by key ts m !! key t = Some t.
Proof.
  revert m. induction ts as [|t0 ts IH]; intros m Hnd Hin.
  - now apply elem_of_nil in Hin.
  - rewrite fmap_cons in Hnd. apply NoDup_cons in Hnd as [Hfresh Hnd].
    cbn [index_by foldl]. fold (index_by key ts (<[key t0:=t0]> m)).
    apply elem_of_cons in Hin as [-> | Hin].
    + rewrite index_by_other by exact Hfresh. apply lookup_insert_eq.
    + now apply IH.
Qed.

End Index.

(** *** The loop of [decryptPrice] *)

Lemma decryptPrice_from_ok (pre rest : list PropertyType) :
  Forall decrypts rest ->
  decryptPrice_from (length pre) (length rest) (pre ++ rest)
  = (pre ++ (decrypted <$> rest), None).
Proof.
  revert pre. induction rest as [|t rest IH]; intros pre HF.
  - reflexivity.
  - apply Forall_cons in HF as [[Hne [price Hp]] HF].
    cbn [length decryptPrice_from].
    rewrite list_lookup_middle by reflexivity.
    case_decide; [contradiction |]. rewrite Hp.
    replace (<[length pre:=set_UnitPrice price t]> (pre ++ t :: rest))
      with ((pre ++ [set_UnitPrice price t]) ++ rest)%list.
    2:{ rewrite <- (Nat.add_0_r (length pre)), insert_app_r.
        now rewrite <- app_assoc. }
    replace (Datatypes.S (length pre))
      with (length (pre ++ [set_UnitPrice price t])%list)
      by (rewrite length_app; simpl; lia).
    rewrite IH by exact HF. rewrite <- app_assoc, fmap_cons.
    unfold decrypted at 2. now rewrite Hp.
Qed.

Lemma decryptPrice_from_err (pre rest : list PropertyType) :
  Exists (fun t => ~ decrypts t) rest ->
  exists types' e,
    decryptPrice_from (length pre) (length rest) (pre ++ rest)
    = (types', Some e).
Proof.
  revert pre. induction rest as [|t rest IH]; intros pre HE.
  - now apply Exists_nil in HE.
  - cbn [length decryptPrice_from].
    rewrite list_lookup_middle by reflexivity.
    case_decide as Hempty; [eauto |].
    destruct (DecryptInt64 (EncryptUnitPrice t)) as [price|] eqn:Hp; [| eauto].
    apply Exists_cons in HE as [Hbad | HE].
    { destruct Hbad. split; [exact Hempty | rewrite Hp; eauto]. }
    replace (<[length pre:=set_UnitPrice price t]> (pre ++ t :: rest))
      with ((pre ++ [set_UnitPrice price t]) ++ rest)%list.
    2:{ rewrite <- (Nat.add_0_r (length pre)), insert_app_r.
        now rewrite <- app_assoc. }
    replace (Datatypes.S (length pre))
      with (length (pre ++ [set_UnitPrice price t])%list)
      by (rewrite length_app; simpl; lia).
    now apply IH.
Qed.

Lemma newPropertyTypeLS_Default :
  newPropertyTypeLS DefaultPropertyTypeList = Some DefaultPropertyTypeLS.
Proof.
  unfold DefaultPropertyTypeLS.
  destruct (newPropertyTypeLS DefaultPropertyTypeList) as [ls|] eqn:E;
    [reflexivity | exfalso].
  rewrite newPropertyTypeLS_spec in E.
  destruct MustParse_1m as (q1 & E1 & _). destruct MustParse_1Mi as (q2 & E2).
  assert (HS : is_Some (mapM parse_unit DefaultPropertyTypeList)).
  { apply mapM_is_Some. unfold DefaultPropertyTypeList.
    repeat constructor; unfold compose, parse_unit; cbn [Unit UnitString];
      case_decide; rewrite ?E1, ?E2; eauto. }
  destruct HS as [ts Hts]. rewrite Hts in E. discriminate E.
Qed.

Lemma fails_not_decrypts (t : PropertyType) : fails_decrypt t -> ~ decrypts t.
Proof.
  intros [He | Hn] [Hne [p Hp]]; [contradiction | congruence].
Qed.

Lemma decrypted_price (t : PropertyType) :
  decrypts t ->
  DecryptInt64 (EncryptUnitPrice (decrypted t)) = Some (UnitPrice (decrypted t))
  /\ DecryptInt64 (EncryptUnitPrice t) = Some (UnitPrice (decrypted t))
  /\ Name (decrypted t) = Name t /\ Enum (decrypted t) = Enum t.
Proof.
  intros [_ [p Hp]]. unfold decrypted. rewrite Hp. cbn. now rewrite Hp.
Qed.

(** C1. When one entry of the list has an empty [EncryptUnitPrice] or a
    ciphertext that does not decrypt, [NewPropertyTypeLS] returns the registry
    built from [DefaultPropertyTypeList], with the prices cpu 67, memory 33,
    storage 2, network 781 and the default unit strings.  When every entry
    decrypts, the registry is the one built from the list with every price
    replaced by its decrypted value, so each entry of its slice and of its
    two maps carries the decryption of its own ciphertext. *)
Theorem NewPropertyTypeLS_all_or_nothing (types : list PropertyType) :
  (Exists fails_decrypt types ->
     NewPropertyTypeLS types = newPropertyTypeLS DefaultPropertyTypeList
     /\ exists ls, NewPropertyTypeLS types = Some ls
          /\ price_table (Types ls)
             = [("cpu", 67, "1m"); ("memory", 33, "1Mi");
                ("storage", 2, "1Mi"); ("network", 781, "1Mi")])
  /\ (Forall decrypts types ->
       NewPropertyTypeLS types = newPropertyTypeLS (decrypted <$> types)
       /\ forall ls, NewPropertyTypeLS types = Some ls ->
            Forall2 (fun t t' =>
                       DecryptInt64 (EncryptUnitPrice t) = Some (UnitPrice t')
                       /\ Name t' = Name t /\ Enum t' = Enum t)
                    types (Types ls)
            /\ (forall k p, EnumMap ls !! k = Some p ->
                   DecryptInt64 (EncryptUnitPrice p) = Some (UnitPrice p))
            /\ (forall n p, StringMap ls !! n = Some p ->
                   DecryptInt64 (EncryptUnitPrice p) = Some (UnitPrice p))).
Proof.
  split.
  - intros HE.
    assert (HN : NewPropertyTypeLS types = Some DefaultPropertyTypeLS).
    { unfold NewPropertyTypeLS, decryptPrice.
      destruct (decryptPrice_from_err [] types) as (types' & e & E).
      { eapply Exists_impl; [exact HE | apply fails_not_decrypts]. }
      cbn [length app] in E. rewrite E.
      apply (newPropertyTypeLS_rebuild _ _ newPropertyTypeLS_Default). }
    split; [now rewrite HN, newPropertyTypeLS_Default |].
    exists DefaultPropertyTypeLS. split; [exact HN |].
    pose proof newPropertyTypeLS_Default as HD.
    rewrite newPropertyTypeLS_spec in HD.
    destruct (mapM parse_unit DefaultPropertyTypeList) as [ts|] eqn:Ets;
      [| discriminate].
    inversion HD as [HD']. cbn [Types]. apply mapM_Some in Ets.
    unfold DefaultPropertyTypeList in Ets.
    repeat match goal with
           | Hf : Forall2 _ (_ :: _) _ |- _ =>
               apply Forall2_cons_inv_l in Hf as (? & ? & ? & Hf & ->)
           | Hf : Forall2 _ [] _ |- _ => apply Forall2_nil_inv_l in Hf as ->
           end.
    unfold price_table. cbn [fmap list_fmap].
    repeat match goal with
           | Hp : parse_unit _ = Some ?t |- _ =>
               let Hn := fresh in let Hu := fresh in
               pose proof (parse_unit_Name _ _ Hp) as Hn;
               pose proof (parse_unit_UnitPrice _ _ Hp) as [Hu _];
               assert (UnitString t = UnitString t /\ True) as _ by easy;
               revert Hp Hn Hu
           end.
    unfold parse_unit; cbn [Unit UnitString Name UnitPrice].
    repeat case_decide; repeat destruct (MustParse _); try discriminate;
      intros; simplify_eq; reflexivity.
  - intros HF.
    assert (HN : NewPropertyTypeLS types = newPropertyTypeLS (decrypted <$> types)).
    { unfold NewPropertyTypeLS, decryptPrice.
      pose proof (decryptPrice_from_ok [] types HF) as E.
      cbn [length app] in E. now rewrite E. }
    split; [exact HN |]. intros ls Hls. rewrite HN in Hls.
    rewrite newPropertyTypeLS_spec in Hls.
    destruct (mapM parse_unit (decrypted <$> types)) as [ts|] eqn:Ets;
      [| discriminate].
    inversion Hls; subst ls; clear Hls. cbn [Types EnumMap StringMap].
    apply mapM_Some in Ets.
    assert (Hall : Forall (fun p => DecryptInt64 (EncryptUnitPrice p)
                                    = Some (UnitPrice p)) ts).
    { apply Forall2_fmap_l in Ets. clear HN.
      induction Ets as [|t t' l l' Ht _ IH]; constructor.
      - apply Forall_cons in HF as [Hd _].
        apply parse_unit_UnitPrice in Ht as [-> ->].
        now apply decrypted_price.
      - apply IH. now apply Forall_cons in HF as [_ ?]. }
    split; [| split].
    + apply Forall2_fmap_l in Ets. clear HN Hall.
      induction Ets as [|t t' l l' Ht _ IH]; constructor.
      * apply Forall_cons in HF as [Hd _].
        pose proof (parse_unit_UnitPrice _ _ Ht) as [-> _].
        rewrite (parse_unit_Name _ _ Ht), (parse_unit_Enum _ _ Ht).
        destruct (decrypted_price _ Hd) as (_ & ? & ? & ?). now repeat split.
      * apply IH. now apply Forall_cons in HF as [_ ?].
    + intros k p Hp. apply index_by_elem in Hp as [[Hin _] | Hp].
      * rewrite Forall_forall in Hall. now apply Hall.
      * now rewrite lookup_empty in Hp.
    + intros n p Hp. apply index_by_elem in Hp as [[Hin _] | Hp].
      * rewrite Forall_forall in Hall. now apply Hall.
      * now rewrite lookup_empty in Hp.
Qed.

Lemma mapM_parse_unit_keys (types ts : list PropertyType) :
  mapM parse_unit types = Some ts ->
  Name <$> ts = Name <$> types /\ Enum <$> ts = Enum <$> types.
Proof.
  rewrite mapM_Some. intros Ets.
  induction Ets as [|t t' l l' Ht _ [IH1 IH2]]; [now split |].
  rewrite !fmap_cons, IH1, IH2.
  now rewrite (parse_unit_Name _ _ Ht), (parse_unit_Enum _ _ Ht).
Qed.

(** C6, as amended. When the enumeration ids of the list are pairwise
    distinct, every name of the list survives the round trip through the two
    maps of the registry built from it:
    [EnumMap[StringMap[name].Enum].Name == name]. *)
Theorem registry_round_trip (types : list PropertyType) (ls : PropertyTypeLS)
    (name : string) :
  newPropertyTypeLS types = Some ls ->
  NoDup (Enum <$> types) ->
  name ∈ Name <$> types ->
  Name (EnumMap_at ls (Enum (StringMap_at ls name))) = name.
Proof.
  rewrite newPropertyTypeLS_spec.
  destruct (mapM parse_unit types) as [ts|] eqn:Ets; [| discriminate].
  intros E Hnd Hin; inversion E; subst ls; clear E.
  destruct (mapM_parse_unit_keys _ _ Ets) as [HN HEn].
  rewrite <- HN in Hin. rewrite <- HEn in Hnd.
  unfold StringMap_at, EnumMap_at. cbn [StringMap EnumMap].
  destruct (index_by_is_Some Name ts ∅ name Hin) as [p Hp].
  rewrite Hp. cbn [default].
  apply index_by_elem in Hp as [[Hp Hname] | Hp];
    [| now rewrite lookup_empty in Hp].
  rewrite (index_by_NoDup Enum ts ∅ p Hnd Hp). exact Hname.
Qed.

(** C8. Building a registry succeeds exactly when every unit string that has
    to be parsed does parse.  An entry whose [Unit] is not the zero quantity
    is left untouched, as is an entry with an empty [UnitString]; an entry
    with the zero [Unit] and a non-empty [UnitString] gets the parsed quantity
    and nothing else changes.  Building again from the slice of the registry
    gives the same registry. *)
Theorem newPropertyTypeLS_parses_once (types : list PropertyType) :
  (is_Some (newPropertyTypeLS types) <->
     Forall (fun t => Unit t = Quantity_zero -> UnitString t <> EmptyString ->
                      is_Some (MustParse (UnitString t))) types)
  /\ forall ls, newPropertyTypeLS types = Some ls ->
       Forall2 (fun t t' =>
                  (Unit t <> Quantity_zero -> t' = t)
                  /\ (UnitString t = EmptyString -> t' = t)
                  /\ (Unit t = Quantity_zero -> UnitString t <> EmptyString ->
                        MustParse (UnitString t) = Some (Unit t')
                        /\ t' = set_Unit (Unit t') t))
               types (Types ls)
       /\ newPropertyTypeLS (Types ls) = Some ls.
Proof.
  split.
  - rewrite newPropertyTypeLS_spec.
    transitivity (is_Some (mapM parse_unit types)).
    { destruct (mapM parse_unit types); split; intros [? ?]; eauto; discriminate. }
    rewrite mapM_is_Some. apply Forall_iff.
    intros t. unfold compose, parse_unit. case_decide as Hc.
    + destruct Hc as [Hz Hs].
      destruct (MustParse (UnitString t)) as [q|].
      * split; eauto.
      * split; [intros [? ?]; discriminate |].
        intros Hp. destruct (Hp Hz Hs) as [? ?]. discriminate.
    + split; [| eauto]. intros _ Hz Hs. destruct Hc. now split.
  - intros ls Hls. split; [| eapply newPropertyTypeLS_rebuild, Hls].
    rewrite newPropertyTypeLS_spec in Hls.
    destruct (mapM parse_unit types) as [ts|] eqn:Ets; [| discriminate].
    inversion Hls; subst ls; clear Hls. cbn [Types].
    apply mapM_Some in Ets. eapply Forall2_impl; [exact Ets |].
    intros t t'. cbn beta. unfold parse_unit. case_decide as Hc.
    + destruct Hc as [Hz Hs].
      destruct (MustParse (UnitString t)) as [q|]; [| discriminate].
      intros E; inversion E; subst t'. cbn [Unit set_Unit].
      repeat split; try contradiction; eauto.
    + intros E; inversion E; subst t'.
      repeat split; try reflexivity; intros; destruct Hc; now split.
Qed.

End RegistryFacts.

(** ** The price registry, continued *)

Section MoreRegistryFacts.
Context `{Imports}.
Local Open Scope list_scope.

(** The loop of [decryptPrice] up to its first failing entry. *)
Lemma decryptPrice_from_stop (done pre rest : list PropertyType)
    (t : PropertyType) :
  Forall decrypts pre -> fails_decrypt t ->
  decryptPrice_from (length done) (length (pre ++ t :: rest))
    (done ++ pre ++ t :: rest)
  = (done ++ (decrypted <$> pre) ++ t :: rest,
     Some (if decide (EncryptUnitPrice t = EmptyString)
           then ErrEmptyPrice (Name t) else ErrDecrypt (Name t))).
Proof.
  revert done. induction pre as [|a pre IH]; intros done HF Hbad.
  - cbn [app length decryptPrice_from fmap list_fmap].
    rewrite list_lookup_middle by reflexivity.
    destruct (decide (EncryptUnitPrice t = EmptyString)) as [He | He];
      [reflexivity |].
    destruct Hbad as [Hbad | Hbad]; [contradiction |]. now rewrite Hbad.
  - apply Forall_cons in HF as [[Hne [price Hp]] HF].
    cbn [app length decryptPrice_from].
    rewrite list_lookup_middle by reflexivity.
    destruct (decide (EncryptUnitPrice a = EmptyString)) as [He | He];
      [contradiction |].
    rewrite Hp.
    replace (<[length done:=set_UnitPrice price a]> (done ++ a :: pre ++ t :: rest))
      with ((done ++ [set_UnitPrice price a]) ++ pre ++ t :: rest).
    2:{ rewrite <- (Nat.add_0_r (length done)), insert_app_r.
        now rewrite <- app_assoc. }
    replace (Datatypes.S (length done))
      with (length (done ++ [set_UnitPrice price a]))
      by (rewrite length_app; simpl; lia).
    rewrite IH by assumption. rewrite <- app_assoc, fmap_cons.
    unfold decrypted at 2. now rewrite Hp.
Qed.

(** A list either decrypts throughout or has a first failing entry. *)
Lemma first_failure (types : list PropertyType) :
  Forall decrypts types
  \/ exists pre t rest, types = pre ++ t :: rest
                        /\ Forall decrypts pre /\ fails_decrypt t.
Proof.
  induction types as [|a types IH]; [now left |].
  assert (Ha : decrypts a \/ fails_decrypt a).
  { unfold decrypts, fails_decrypt.
    destruct (decide (EncryptUnitPrice a = EmptyString)); [right; now left |].
    destruct (DecryptInt64 (EncryptUnitPrice a)); [left; eauto | right; now right]. }
  destruct Ha as [Ha | Ha].
  - destruct IH as [IH | (pre & t & rest & -> & Hpre & Ht)].
    + left. now constructor.
    + right. exists (a :: pre), t, rest. repeat split; [| exact Ht].
      now constructor.
  - right. exists [], a, types. repeat split; [constructor | exact Ha].
Qed.

(** X1. [decryptPrice] stops at the first entry that has no ciphertext or
    whose ciphertext does not decrypt.  The slice it returns holds the
    decrypted price in every entry before that one and is unchanged from that
    entry on, and the error names that entry: the empty-price error when the
    ciphertext is empty, the decryption error otherwise. *)
Theorem decryptPrice_first_failure (pre rest : list PropertyType)
    (t : PropertyType) :
  Forall decrypts pre -> fails_decrypt t ->
  decryptPrice (pre ++ t :: rest)
  = ((decrypted <$> pre) ++ t :: rest,
     Some (if decide (EncryptUnitPrice t = EmptyString)
           then ErrEmptyPrice (Name t) else ErrDecrypt (Name t))).
Proof.
  intros HF Hbad. unfold decryptPrice.
  apply (decryptPrice_from_stop [] pre rest t HF Hbad).
Qed.

Lemma decryptPrice_all (types : list PropertyType) :
  Forall decrypts types -> decryptPrice types = (decrypted <$> types, None).
Proof. intros HF. apply (decryptPrice_from_ok [] types HF). Qed.

Lemma decrypted_shape (t : PropertyType) :
  decrypted t = t \/ decrypted t = set_UnitPrice (UnitPrice (decrypted t)) t.
Proof.
  unfold decrypted. destruct (DecryptInt64 (EncryptUnitPrice t));
    [right; reflexivity | now left].
Qed.

(** X2. [decryptPrice] returns no error exactly when every entry has a
    ciphertext that decrypts.  In either case the slice it returns has the
    length of the input, and each entry differs from the input entry in its
    [UnitPrice] at most. *)
Theorem decryptPrice_outcome (types : list PropertyType) :
  (snd (decryptPrice types) = None <-> Forall decrypts types)
  /\ length (fst (decryptPrice types)) = length types
  /\ Forall2 (fun t t' => t' = t \/ t' = set_UnitPrice (UnitPrice t') t)
             types (fst (decryptPrice types)).
Proof.
  assert (Hdec : forall l : list PropertyType,
             Forall2 (fun t t' => t' = t \/ t' = set_UnitPrice (UnitPrice t') t)
                     l (decrypted <$> l)).
  { intros l. apply Forall2_fmap_r, Forall_Forall2_diag, Forall_forall.
    intros t _. apply decrypted_shape. }
  destruct (first_failure types) as [HF | (pre & t & rest & -> & Hpre & Ht)].
  - rewrite (decryptPrice_all _ HF). cbn [fst snd].
    split; [tauto |]. split; [apply length_fmap | apply Hdec].
  - pose proof (decryptPrice_from_stop [] pre rest t Hpre Ht) as E.
    change (decryptPrice_from _ _ _) with (decryptPrice (pre ++ t :: rest)) in E.
    rewrite E. cbn [fst snd app].
    split; [| split].
    + split; [discriminate |]. intros HF. exfalso.
      apply Forall_app in HF as [_ HF]. apply Forall_cons in HF as [Hd _].
      now apply (fails_not_decrypts t).
    + now rewrite !length_app, length_fmap.
    + apply Forall2_app; [apply Hdec |].
      apply Forall_Forall2_diag, Forall_forall. intros; now left.
Qed.

Lemma decrypted_idem (t : PropertyType) :
  decrypts t -> decrypts (decrypted t) /\ decrypted (decrypted t) = decrypted t.
Proof.
  intros [Hne [p Hp]]. unfold decrypted. rewrite Hp.
  cbn [EncryptUnitPrice set_UnitPrice]. rewrite Hp.
  split; [| reflexivity]. split; [exact Hne | cbn; eauto].
Qed.

Lemma Forall_decrypted_idem (l : list PropertyType) :
  Forall decrypts l ->
  Forall decrypts (decrypted <$> l)
  /\ decrypted <$> (decrypted <$> l) = decrypted <$> l.
Proof.
  induction 1 as [|t l Ht _ [IH1 IH2]]; [now split |].
  destruct (decrypted_idem t Ht) as [Hd Hi].
  rewrite !fmap_cons, IH2, Hi. split; [now constructor | reflexivity].
Qed.

(** X24. [decryptPrice] is idempotent: run again on the slice it returned,
    it returns that slice and the same error, or no error again. *)
Theorem decryptPrice_idempotent (types : list PropertyType) :
  decryptPrice (fst (decryptPrice types)) = decryptPrice types.
Proof.
  destruct (first_failure types) as [HF | (pre & t & rest & -> & Hpre & Ht)].
  - destruct (Forall_decrypted_idem _ HF) as [HF' Hi].
    rewrite (decryptPrice_all _ HF). cbn [fst].
    now rewrite (decryptPrice_all _ HF'), Hi.
  - destruct (Forall_decrypted_idem _ Hpre) as [Hpre' Hi].
    pose proof (decryptPrice_from_stop [] pre rest t Hpre Ht) as E.
    change (decryptPrice_from _ _ _) with (decryptPrice (pre ++ t :: rest)) in E.
    pose proof (decryptPrice_from_stop [] (decrypted <$> pre) rest t Hpre' Ht)
      as E'.
    change (decryptPrice_from _ _ _)
      with (decryptPrice ((decrypted <$> pre) ++ t :: rest)) in E'.
    rewrite E. cbn [fst app]. rewrite E'. cbn [app]. now rewrite Hi.
Qed.

(** *** [NewPropertyTypeLS] in its two cases *)

Lemma decrypts_or_fails (types : list PropertyType) :
  Forall decrypts types \/ Exists fails_decrypt types.
Proof.
  destruct (first_failure types) as [HF | (pre & t & rest & -> & _ & Ht)];
    [now left | right].
  apply Exists_app. right. now apply Exists_cons_hd.
Qed.

Lemma NewPropertyTypeLS_ok (types : list PropertyType) :
  Forall decrypts types ->
  NewPropertyTypeLS types = newPropertyTypeLS (decrypted <$> types).
Proof.
  intros HF. unfold NewPropertyTypeLS. now rewrite (decryptPrice_all _ HF).
Qed.

Lemma NewPropertyTypeLS_fallback (types : list PropertyType) :
  Exists fails_decrypt types ->
  NewPropertyTypeLS types = Some DefaultPropertyTypeLS.
Proof.
  intros HE. unfold NewPropertyTypeLS, decryptPrice.
  destruct (decryptPrice_from_err [] types) as (types' & e & E).
  { eapply Exists_impl; [exact HE | apply fails_not_decrypts]. }
  cbn [length app] in E. rewrite E.
  apply (newPropertyTypeLS_rebuild _ _ newPropertyTypeLS_Default).
Qed.

(** X3. [NewPropertyTypeLS] does not read the [UnitPrice] of its input:
    two lists that differ in their [UnitPrice] fields only give the same
    result. *)
Theorem NewPropertyTypeLS_ignores_UnitPrice (types types' : list PropertyType) :
  Forall2 (fun t t' => t' = set_UnitPrice (UnitPrice t') t) types types' ->
  NewPropertyTypeLS types = NewPropertyTypeLS types'.
Proof.
  intros H2. destruct (decrypts_or_fails types) as [HF | HE].
  - assert (HF' : Forall decrypts types' /\ decrypted <$> types = decrypted <$> types').
    { induction H2 as [|t t' l l' Ht _ IH]; [now split |].
      apply Forall_cons in HF as [Hd HF]. destruct (IH HF) as [IH1 IH2].
      destruct Hd as [Hne [p Hp]]. rewrite Ht. split.
      - constructor; [| exact IH1]. split; [exact Hne |]. cbn. eauto.
      - rewrite !fmap_cons, IH2. f_equal. unfold decrypted.
        cbn [set_UnitPrice EncryptUnitPrice]. now rewrite Hp. }
    destruct HF' as [HF' E].
    now rewrite (NewPropertyTypeLS_ok _ HF), (NewPropertyTypeLS_ok _ HF'), E.
  - assert (HE' : Exists fails_decrypt types').
    { induction H2 as [|t t' l l' Ht _ IH]; [now apply Exists_nil in HE |].
      apply Exists_cons in HE as [Hbad | HE].
      - apply Exists_cons_hd. rewrite Ht. exact Hbad.
      - apply Exists_cons_tl. now apply IH. }
    now rewrite (NewPropertyTypeLS_fallback _ HE), (NewPropertyTypeLS_fallback _ HE').
Qed.

Lemma mapM_parse_unit_None (l : list PropertyType) :
  mapM parse_unit l = None <-> Exists (fun t => parse_unit t = None) l.
Proof.
  induction l as [|t l IH].
  - split; [discriminate | intros HE; now apply Exists_nil in HE].
  - rewrite Exists_cons, <- IH. cbn [mapM]. unfold mbind, option_bind.
    destruct (parse_unit t) as [t'|]; [| tauto].
    destruct (mapM parse_unit l) as [ts|]; cbn.
    + split; [discriminate | intros [? | ?]; discriminate].
    + tauto.
Qed.

Lemma parse_unit_None (t : PropertyType) :
  parse_unit t = None <->
  Unit t = Quantity_zero /\ UnitString t <> EmptyString
  /\ MustParse (UnitString t) = None.
Proof.
  unfold parse_unit. case_decide as Hc.
  - destruct (MustParse (UnitString t)); split; try discriminate; try tauto.
    intros (_ & _ & ?); discriminate.
  - split; [discriminate | tauto].
Qed.

(** X4. [NewPropertyTypeLS] panics exactly when every entry decrypts and
    some entry with the zero [Unit] has a non-empty [UnitString] that
    [resource.MustParse] rejects.  So the fallback to the default list never
    panics. *)
Theorem NewPropertyTypeLS_panics_iff (types : list PropertyType) :
  NewPropertyTypeLS types = None <->
  Forall decrypts types
  /\ Exists (fun t => Unit t = Quantity_zero /\ UnitString t <> EmptyString
                      /\ MustParse (UnitString t) = None) types.
Proof.
  destruct (decrypts_or_fails types) as [HF | HE].
  - rewrite (NewPropertyTypeLS_ok _ HF), newPropertyTypeLS_spec.
    transitivity (mapM parse_unit (decrypted <$> types) = None).
    { destruct (mapM parse_unit (decrypted <$> types)); split; congruence. }
    rewrite mapM_parse_unit_None, Exists_fmap.
    split.
    + intros HE. split; [exact HF |]. eapply Exists_impl; [exact HE |].
      intros t Ht. cbn in Ht. apply parse_unit_None in Ht.
      unfold decrypted in Ht.
      destruct (DecryptInt64 (EncryptUnitPrice t)); exact Ht.
    + intros [_ HE]. eapply Exists_impl; [exact HE |].
      intros t Ht. cbn. apply parse_unit_None.
      unfold decrypted.
      destruct (DecryptInt64 (EncryptUnitPrice t)); exact Ht.
  - rewrite (NewPropertyTypeLS_fallback _ HE). split; [discriminate |].
    intros [HF _]. exfalso. apply Exists_exists in HE as (t & Hin & Hbad).
    rewrite Forall_forall in HF. exact (fails_not_decrypts t Hbad (HF t Hin)).
Qed.

(** X6. In a registry built by [newPropertyTypeLS] the slice has the
    length of the input, the name index has an entry exactly for the names of
    the input and the id index exactly for its ids, and every entry of an
    index is an entry of the slice, filed under its own name, respectively
    id. *)
Theorem newPropertyTypeLS_index (types : list PropertyType) (ls : PropertyTypeLS) :
  newPropertyTypeLS types = Some ls ->
  length (Types ls) = length types
  /\ (forall n, is_Some (StringMap ls !! n) <-> n ∈ Name <$> types)
  /\ (forall e, is_Some (EnumMap ls !! e) <-> e ∈ Enum <$> types)
  /\ (forall n p, StringMap ls !! n = Some p -> p ∈ Types ls /\ Name p = n)
  /\ (forall e p, EnumMap ls !! e = Some p -> p ∈ Types ls /\ Enum p = e).
Proof.
  rewrite newPropertyTypeLS_spec.
  destruct (mapM parse_unit types) as [ts|] eqn:Ets; [| discriminate].
  intros E; inversion E; subst ls; clear E. cbn [Types StringMap EnumMap].
  destruct (mapM_parse_unit_keys _ _ Ets) as [HN HE].
  assert (Hval : forall (K : Type) `(Countable K) (key : PropertyType -> K) k p,
             index_by key ts ∅ !! k = Some p -> p ∈ ts /\ key p = k).
  { intros K ? ? key k p Hp. apply index_by_elem in Hp as [? | Hp]; [assumption |].
    now rewrite lookup_empty in Hp. }
  split; [apply mapM_Some, Forall2_length in Ets; now symmetry |].
  rewrite <- HN, <- HE. split; [split | split; [split | split]].
  - intros [p Hp]. apply Hval in Hp as [Hin <-]. now apply list_elem_of_fmap_2.
  - apply index_by_is_Some.
  - intros [p Hp]. apply Hval in Hp as [Hin <-]. now apply list_elem_of_fmap_2.
  - apply index_by_is_Some.
  - intros n p Hp. now apply Hval in Hp.
  - intros e p Hp. now apply Hval in Hp.
Qed.

Lemma index_by_app {K : Type} `{Countable K} (key : PropertyType -> K)
    (l1 l2 : list PropertyType) (m : gmap K PropertyType) :
  index_by key (l1 ++ l2) m = index_by key l2 (index_by key l1 m).
Proof. unfold index_by. apply foldl_app. Qed.

Lemma index_by_last {K : Type} `{Countable K} (key : PropertyType -> K)
    (pre rest : list PropertyType) (t : PropertyType)
    (m : gmap K PropertyType) :
  key t ∉ key <$> rest ->
  index_by key (pre ++ t :: rest) m !! key t = Some t.
Proof.
  intros Hk. rewrite index_by_app. cbn [index_by foldl].
  fold (index_by key rest (<[key t:=t]> (index_by key pre m))).
  rewrite index_by_other by exact Hk. apply lookup_insert_eq.
Qed.

(** X7. [newPropertyTypeLS] keeps each entry at its position in the slice,
    as it is after its unit was parsed; the last entry of a name is the one
    the name index holds, and the last entry of an id is the one the id index
    holds. *)
Theorem newPropertyTypeLS_last_wins (pre rest : list PropertyType)
    (t : PropertyType) (ls : PropertyTypeLS) :
  newPropertyTypeLS (pre ++ t :: rest) = Some ls ->
  exists t', parse_unit t = Some t'
    /\ Types ls !! length pre = Some t'
    /\ (Name t ∉ Name <$> rest -> StringMap ls !! Name t = Some t')
    /\ (Enum t ∉ Enum <$> rest -> EnumMap ls !! Enum t = Some t').
Proof.
  rewrite newPropertyTypeLS_spec.
  destruct (mapM parse_unit (pre ++ t :: rest)) as [ts|] eqn:Ets; [| discriminate].
  intros E; inversion E; subst ls; clear E. cbn [Types StringMap EnumMap].
  apply mapM_Some in Ets.
  apply Forall2_app_inv_l in Ets as (pre' & ts' & Hpre & Hts & ->).
  apply Forall2_cons_inv_l in Hts as (t' & rest' & Ht & Hrest & ->).
  apply mapM_Some in Hrest.
  destruct (mapM_parse_unit_keys _ _ Hrest) as [HN HE].
  exists t'. split; [exact Ht |]. split; [| split].
  - rewrite (Forall2_length _ _ _ Hpre). now apply list_lookup_middle.
  - intros Hk. rewrite <- (parse_unit_Name _ _ Ht), <- HN in Hk.
    rewrite <- (parse_unit_Name _ _ Ht). now apply index_by_last.
  - intros Hk. rewrite <- (parse_unit_Enum _ _ Ht), <- HE in Hk.
    rewrite <- (parse_unit_Enum _ _ Ht). now apply index_by_last.
Qed.

(** X8. When the names of the list are pairwise distinct, the name index
    of the registry finds every entry of the slice as it is stored there, and
    every id of the list survives the round trip through the two indexes:
    [StringMap[EnumMap[e].Name].Enum == e]. *)
Theorem registry_name_index_faithful (types : list PropertyType)
    (ls : PropertyTypeLS) :
  newPropertyTypeLS types = Some ls ->
  NoDup (Name <$> types) ->
  (forall p, p ∈ Types ls -> StringMap ls !! Name p = Some p)
  /\ (forall e, e ∈ Enum <$> types ->
        Enum (StringMap_at ls (Name (EnumMap_at ls e))) = e).
Proof.
  rewrite newPropertyTypeLS_spec.
  destruct (mapM parse_unit types) as [ts|] eqn:Ets; [| discriminate].
  intros E Hnd; inversion E; subst ls; clear E.
  destruct (mapM_parse_unit_keys _ _ Ets) as [HN HEn].
  rewrite <- HN in Hnd. rewrite <- HEn.
  cbn [Types StringMap EnumMap].
  assert (Hfaith : forall p, p ∈ ts -> index_by Name ts ∅ !! Name p = Some p)
    by (intros p Hp; now apply index_by_NoDup).
  split; [exact Hfaith |]. intros e Hin.
  unfold StringMap_at, EnumMap_at. cbn [StringMap EnumMap].
  destruct (index_by_is_Some Enum ts ∅ e Hin) as [p Hp].
  rewrite Hp. cbn [default].
  apply index_by_elem in Hp as [[Hp He] | Hp];
    [| now rewrite lookup_empty in Hp].
  unfold Datatypes.id. now rewrite (Hfaith p Hp).
Qed.

(** An entry that went through [decryptPrice] and the loop body of
    [newPropertyTypeLS] goes through [decryptPrice] unchanged. *)
Lemma decrypted_parse_fixed (t t' : PropertyType) :
  decrypts t -> parse_unit (decrypted t) = Some t' ->
  decrypts t' /\ decrypted t' = t'.
Proof.
  intros [Hne [p Hp]]. unfold decrypted at 1. rewrite Hp.
  unfold parse_unit. case_decide as Hc.
  - destruct (MustParse _) as [q|]; [| discriminate].
    intros E; inversion E; subst t'; clear E. split.
    + split; [exact Hne |]. cbn. eauto.
    + unfold decrypted. cbn [EncryptUnitPrice set_Unit set_UnitPrice].
      now rewrite Hp.
  - intros E; inversion E; subst t'; clear E. split.
    + split; [exact Hne |]. cbn. eauto.
    + unfold decrypted. cbn [EncryptUnitPrice set_UnitPrice]. now rewrite Hp.
Qed.

(** X5. Calling [NewPropertyTypeLS] again on the slice the first call left
    behind gives the same registry.  When every entry decrypts that slice is
    the slice of the registry, with the decrypted prices and the parsed
    units; when an entry fails it is the partly decrypted slice of
    [decryptPrice], and the registry is the default one both times. *)
Theorem NewPropertyTypeLS_again (types : list PropertyType)
    (ls : PropertyTypeLS) :
  NewPropertyTypeLS types = Some ls ->
  (Forall decrypts types -> NewPropertyTypeLS (Types ls) = Some ls)
  /\ (Exists fails_decrypt types ->
      NewPropertyTypeLS (fst (decryptPrice types)) = Some ls).
Proof.
  intros Hls. split.
  - intros HF. rewrite (NewPropertyTypeLS_ok _ HF) in Hls.
    pose proof (newPropertyTypeLS_rebuild _ _ Hls) as Hre.
    rewrite newPropertyTypeLS_spec in Hls.
    destruct (mapM parse_unit (decrypted <$> types)) as [ts|] eqn:Ets;
      [| discriminate].
    inversion Hls; subst ls; clear Hls. cbn [Types] in *.
    apply mapM_Some, Forall2_fmap_l in Ets.
    assert (Hfix : Forall decrypts ts /\ decrypted <$> ts = ts).
    { clear Hre. induction Ets as [|t t' l l' Ht _ IH]; [now split |].
      apply Forall_cons in HF as [Hd HF]. destruct (IH HF) as [IH1 IH2].
      destruct (decrypted_parse_fixed _ _ Hd Ht) as [Hd' Hfix].
      split; [now constructor |]. now rewrite fmap_cons, IH2, Hfix. }
    destruct Hfix as [HF' Hfix].
    now rewrite (NewPropertyTypeLS_ok _ HF'), Hfix.
  - intros HE. rewrite (NewPropertyTypeLS_fallback _ HE) in Hls.
    rewrite <- Hls. apply NewPropertyTypeLS_fallback.
    destruct (first_failure types) as [HF | (pre & t & rest & -> & Hpre & Ht)].
    + exfalso. apply Exists_exists in HE as (t & Hin & Hbad).
      rewrite Forall_forall in HF. exact (fails_not_decrypts t Hbad (HF t Hin)).
    + pose proof (decryptPrice_from_stop [] pre rest t Hpre Ht) as E.
      change (decryptPrice_from _ _ _) with (decryptPrice (pre ++ t :: rest)) in E.
      rewrite E. cbn [fst app]. apply Exists_app. right. now apply Exists_cons_hd.
Qed.

End MoreRegistryFacts.

(** ** The ledger records *)

(** The constructor accepts a record exactly when both invariants hold,
    and then returns the record of the fields it was given. *)
Lemma NewBilling_accepts (time : Z) (orderID : string) (ty : accountv1.type)
    (namespace : string) (appCosts : list AppCost) (appType amount : Z)
    (owner : string) (payment : option Payment) (transfer : option Transfer)
    (b : Billing) :
  NewBilling time orderID ty namespace appCosts appType amount owner
    payment transfer = inr b ->
  type_discrimination ty payment transfer = true
  /\ AppCost_sum_law amount appCosts = true
  /\ Billing_Type b = ty /\ Billing_Payment b = payment
  /\ Billing_Transfer b = transfer
  /\ Billing_Amount b = amount /\ Billing_AppCosts b = appCosts
  /\ Billing_Status b = Unsettled.
Proof.
  unfold NewBilling.
  destruct (type_discrimination ty payment transfer); [| discriminate].
  destruct (AppCost_sum_law amount appCosts); [| discriminate].
  cbn [negb]. intros E. inversion E. repeat split.
Qed.

Lemma type_discrimination_spec (ty : accountv1.type)
    (payment : option Payment) (transfer : option Transfer) :
  type_discrimination ty payment transfer = true ->
  (ty = accountv1.Consumption -> is_Some payment /\ transfer = None)
  /\ (ty = accountv1.Transfer -> is_Some transfer /\ payment = None).
Proof.
  destruct ty, payment, transfer; cbn; intros E; try discriminate E;
    split; intros Hty; try discriminate Hty; split; eauto.
Qed.

Lemma type_discrimination_false (ty : accountv1.type)
    (payment : option Payment) (transfer : option Transfer) :
  (ty = accountv1.Consumption /\ (payment = None \/ is_Some transfer))
  \/ (ty = accountv1.Transfer /\ (transfer = None \/ is_Some payment)) ->
  type_discrimination ty payment transfer = false.
Proof.
  intros [[-> [-> | [t ->]]] | [-> [-> | [p ->]]]];
    try reflexivity; destruct payment; try reflexivity;
    destruct transfer; reflexivity.
Qed.

(** C3. Every [Billing] that the constructor returns keeps the type, the
    payment and the transfer it was given; with type consumption it has a
    non-nil payment and a nil transfer, with type transfer a non-nil
    transfer and a nil payment.  A construction that violates this, such as
    type consumption with a nil payment or a non-nil transfer, is rejected
    with the validation failure of the wrong sub-record; no record is
    returned. *)
Theorem NewBilling_type_invariant (time : Z) (orderID : string)
    (ty : accountv1.type) (namespace : string) (appCosts : list AppCost)
    (appType amount : Z) (owner : string) (payment : option Payment)
    (transfer : option Transfer) :
  (forall b,
      NewBilling time orderID ty namespace appCosts appType amount owner
        payment transfer = inr b ->
      (Billing_Type b = ty /\ Billing_Payment b = payment
       /\ Billing_Transfer b = transfer)
      /\ (Billing_Type b = accountv1.Consumption ->
          is_Some (Billing_Payment b) /\ Billing_Transfer b = None)
      /\ (Billing_Type b = accountv1.Transfer ->
          is_Some (Billing_Transfer b) /\ Billing_Payment b = None))
  /\ (ty = accountv1.Consumption -> payment = None \/ is_Some transfer ->
      NewBilling time orderID ty namespace appCosts appType amount owner
        payment transfer = inl WrongSubRecord)
  /\ (ty = accountv1.Transfer -> transfer = None \/ is_Some payment ->
      NewBilling time orderID ty namespace appCosts appType amount owner
        payment transfer = inl WrongSubRecord).
Proof.
  split; [| split].
  - intros b Hb.
    destruct (NewBilling_accepts _ _ _ _ _ _ _ _ _ _ _ Hb)
      as (Hty & _ & -> & -> & -> & _).
    split; [now repeat split |]. now apply type_discrimination_spec.
  - intros Hty Hbad. unfold NewBilling.
    now rewrite type_discrimination_false by (left; split; assumption).
  - intros Hty Hbad. unfold NewBilling.
    now rewrite type_discrimination_false by (right; split; assumption).
Qed.

Lemma NewBilling_type_invariant_witness :
  NewBilling 0 "order-1" accountv1.Consumption "ns-1" [] 0 0 "owner-1"
    None (Some sample_transfer) = inl WrongSubRecord.
Proof.
  apply (proj1 (proj2 (NewBilling_type_invariant 0 "order-1"
                         accountv1.Consumption "ns-1" [] 0 0 "owner-1"
                         None (Some sample_transfer)))).
  - reflexivity.
  - left. reflexivity.
Defined.

(** C5. Every [Billing] that the constructor returns keeps the amount and
    the application costs it was given, and when its list of application
    costs is not empty its amount is the sum of their amounts.  A
    construction with application costs present and an amount other than
    their sum is rejected with a validation failure, which is the one of the
    sum mismatch when the sub-records fit the type. *)
Theorem NewBilling_amount_sum (time : Z) (orderID : string)
    (ty : accountv1.type) (namespace : string) (appCosts : list AppCost)
    (appType amount : Z) (owner : string) (payment : option Payment)
    (transfer : option Transfer) :
  (forall b,
      NewBilling time orderID ty namespace appCosts appType amount owner
        payment transfer = inr b ->
      (Billing_Amount b = amount /\ Billing_AppCosts b = appCosts)
      /\ (Billing_AppCosts b <> [] ->
          Billing_Amount b = sum_AppCosts (Billing_AppCosts b)))
  /\ (appCosts <> [] -> amount <> sum_AppCosts appCosts ->
      (exists failure,
          NewBilling time orderID ty namespace appCosts appType amount owner
            payment transfer = inl failure)
      /\ (type_discrimination ty payment transfer = true ->
          NewBilling time orderID ty namespace appCosts appType amount owner
            payment transfer = inl AppCostSumMismatch)).
Proof.
  split.
  - intros b Hb.
    destruct (NewBilling_accepts _ _ _ _ _ _ _ _ _ _ _ Hb)
      as (_ & Hsum & _ & _ & _ & -> & -> & _).
    split; [now split |]. intros Hne.
    destruct appCosts as [|c cs]; [contradiction |].
    now apply Z.eqb_eq in Hsum.
  - intros Hne Hoff.
    assert (Hlaw : AppCost_sum_law amount appCosts = false).
    { destruct appCosts as [|c cs]; [contradiction |].
      now apply Z.eqb_neq. }
    unfold NewBilling. rewrite Hlaw. cbn [negb].
    destruct (type_discrimination ty payment transfer); cbn [negb];
      split; eauto; discriminate.
Qed.

Lemma NewBilling_amount_sum_witness :
  (exists b,
      NewBilling 0 "order-2" accountv1.Consumption "ns-1"
        [sample_cost "cpu" 67000; sample_cost "memory" 16500] 0 83500
        "owner-1" (Some sample_payment) None = inr b
      /\ Billing_Amount b = sum_AppCosts (Billing_AppCosts b))
  /\ NewBilling 0 "order-3" accountv1.Consumption "ns-1"
       [sample_cost "app" 5] 0 0 "owner-1" (Some sample_payment) None
     = inl AppCostSumMismatch.
Proof.
  split.
  - eexists. split; [reflexivity |].
    apply (proj1 (NewBilling_amount_sum 0 "order-2" accountv1.Consumption
                    "ns-1"
                    [sample_cost "cpu" 67000; sample_cost "memory" 16500]
                    0 83500 "owner-1" (Some sample_payment) None));
      [reflexivity | discriminate].
  - apply (proj2 (NewBilling_amount_sum 0 "order-3" accountv1.Consumption
                    "ns-1" [sample_cost "app" 5] 0 0 "owner-1"
                    (Some sample_payment) None));
      [discriminate | cbn; lia | reflexivity].
Defined.

(** ** Translating enumeration ids to names *)

Section ConvertFacts.
Context `{Imports}.
Local Open Scope list_scope.

Lemma Default_entries :
  exists t0 t1 t2 t3,
    Types DefaultPropertyTypeLS = [t0; t1; t2; t3]
    /\ EnumMap DefaultPropertyTypeLS
       = <[3 := t3]> (<[2 := t2]> (<[1 := t1]> (<[0 := t0]> ∅)))
    /\ Name t0 = "cpu" /\ Name t1 = "memory"
    /\ Name t2 = "storage" /\ Name t3 = "network".
Proof.
  pose proof newPropertyTypeLS_Default as HD.
  rewrite newPropertyTypeLS_spec in HD.
  destruct (mapM parse_unit DefaultPropertyTypeList) as [ts|] eqn:Ets;
    [| discriminate].
  inversion HD as [HD']. clear HD HD'. apply mapM_Some in Ets.
  unfold DefaultPropertyTypeList in Ets.
  repeat match goal with
         | Hf : Forall2 _ (_ :: _) _ |- _ =>
             apply Forall2_cons_inv_l in Hf as (? & ? & ? & Hf & ->)
         | Hf : Forall2 _ [] _ |- _ => apply Forall2_nil_inv_l in Hf as ->
         end.
  repeat match goal with
         | Hp : parse_unit _ = Some _ |- _ =>
             pose proof (parse_unit_Name _ _ Hp);
             pose proof (parse_unit_Enum _ _ Hp); clear Hp
         end.
  cbn [Name Enum] in *.
  do 4 eexists. split; [reflexivity |]. split; [| now repeat split].
  cbn [EnumMap index_by foldl]. congruence.
Qed.

Lemma default_name_spec (k : Z) :
  default_name k
  = if decide (k = 3) then "network"
    else if decide (k = 2) then "storage"
    else if decide (k = 1) then "memory"
    else if decide (k = 0) then "cpu"
    else EmptyString.
Proof.
  unfold default_name.
  destruct Default_entries as (t0 & t1 & t2 & t3 & _ & -> & N0 & N1 & N2 & N3).
  rewrite !lookup_insert, lookup_empty.
  repeat case_decide; subst; try lia; cbn; congruence.
Qed.

Lemma default_name_known (k : Z) (p : PropertyType) :
  EnumMap DefaultPropertyTypeLS !! k = Some p ->
  default_name k = Name p /\ Name p <> EmptyString
  /\ forall k', default_name k' = Name p -> k' = k.
Proof.
  intros Hk.
  assert (Hn : default_name k = Name p) by (unfold default_name; now rewrite Hk).
  assert (Hcases : k = 0 \/ k = 1 \/ k = 2 \/ k = 3).
  { destruct Default_entries as (t0 & t1 & t2 & t3 & _ & Hm & _).
    rewrite Hm, !lookup_insert, lookup_empty in Hk.
    repeat case_decide; try discriminate; lia. }
  rewrite <- Hn. split; [reflexivity |]. split.
  - rewrite default_name_spec. repeat case_decide; try discriminate; lia.
  - intros k'. rewrite !default_name_spec.
    repeat case_decide; subst; intros; try discriminate; lia.
Qed.

Lemma default_name_unknown (k : Z) :
  EnumMap DefaultPropertyTypeLS !! k = None <-> default_name k = EmptyString.
Proof.
  split.
  - intros Hk. unfold default_name. now rewrite Hk.
  - intros Hn. destruct (EnumMap DefaultPropertyTypeLS !! k) as [p|] eqn:E;
      [| reflexivity].
    destruct (default_name_known _ _ E) as (Hp & Hne & _). congruence.
Qed.

Lemma along_snoc (order : list (Z * Z)) (k v : Z) :
  ConvertEnumUsedToString_along (order ++ [(k, v)])
  = <[default_name k := v]> (ConvertEnumUsedToString_along order).
Proof. unfold ConvertEnumUsedToString_along. now rewrite foldl_app. Qed.

Lemma along_lookup_Some (order : list (Z * Z)) (n : string) (v : Z) :
  ConvertEnumUsedToString_along order !! n = Some v ->
  exists k, (k, v) ∈ order /\ default_name k = n.
Proof.
  induction order as [|[k' v'] order IH] using rev_ind.
  - unfold ConvertEnumUsedToString_along. cbn [foldl].
    rewrite lookup_empty. discriminate.
  - rewrite along_snoc, lookup_insert. case_decide as Hd.
    + intros E; inversion E; subst v'. exists k'. split; [| exact Hd].
      apply elem_of_app. right. now apply list_elem_of_singleton.
    + intros E. destruct (IH E) as (k & Hin & Hk). exists k.
      split; [| exact Hk]. apply elem_of_app. now left.
Qed.

Lemma along_is_Some (order : list (Z * Z)) (k v : Z) :
  (k, v) ∈ order ->
  is_Some (ConvertEnumUsedToString_along order !! default_name k).
Proof.
  induction order as [|[k' v'] order IH] using rev_ind.
  - intros Hin. now apply elem_of_nil in Hin.
  - rewrite along_snoc, lookup_insert. case_decide as Hd; [eauto |].
    intros Hin. apply elem_of_app in Hin as [Hin | Hin]; [now apply IH |].
    apply list_elem_of_singleton in Hin. inversion Hin; subst. contradiction.
Qed.

Lemma range_order_elem (costs : EnumUsedMap) (order : list (Z * Z)) (k v : Z) :
  range_order costs order -> ((k, v) ∈ order <-> costs !! k = Some v).
Proof.
  unfold range_order. intros ->. apply elem_of_map_to_list.
Qed.

(** C4, as amended. [ConvertEnumUsedToString] never fails and looks every
    id up in the id index of [DefaultPropertyTypeLS].  An id the registry
    knows appears under its registered name with its amount unchanged.  An
    id the registry does not know is not omitted: its amount is filed under
    the empty name, so the output has an entry for the empty name holding
    the amount of one unknown id.  Every entry of the output is the amount of
    some id of the input. *)
Theorem ConvertEnumUsedToString_lookup (costs : EnumUsedMap) :
  (exists costsMap, ConvertEnumUsedToString costs costsMap)
  /\ forall costsMap, ConvertEnumUsedToString costs costsMap ->
       (forall k v p, costs !! k = Some v ->
           EnumMap DefaultPropertyTypeLS !! k = Some p ->
           costsMap !! Name p = Some v)
       /\ (forall k v, costs !! k = Some v ->
             EnumMap DefaultPropertyTypeLS !! k = None ->
             exists k' v', costs !! k' = Some v'
               /\ EnumMap DefaultPropertyTypeLS !! k' = None
               /\ costsMap !! EmptyString = Some v')
       /\ (forall n v, costsMap !! n = Some v ->
             exists k, costs !! k = Some v /\ default_name k = n).
Proof.
  split.
  { exists (ConvertEnumUsedToString_along (map_to_list costs)).
    exists (map_to_list costs). split; [unfold range_order |]; reflexivity. }
  intros costsMap (order & Hord & ->). split; [| split].
  - intros k v p Hk Hp.
    destruct (default_name_known _ _ Hp) as (Hn & _ & Hinj).
    apply (range_order_elem _ _ _ _ Hord) in Hk as Hin.
    destruct (along_is_Some _ _ _ Hin) as [v' Hv']. rewrite Hn in Hv'.
    rewrite Hv'. f_equal.
    apply along_lookup_Some in Hv' as (k' & Hin' & Hk').
    apply Hinj in Hk'. subst k'.
    apply (range_order_elem _ _ _ _ Hord) in Hin'. congruence.
  - intros k v Hk Hnone.
    apply (range_order_elem _ _ _ _ Hord) in Hk as Hin.
    destruct (along_is_Some _ _ _ Hin) as [v' Hv'].
    apply default_name_unknown in Hnone. rewrite Hnone in Hv'.
    destruct (along_lookup_Some _ _ _ Hv') as (k' & Hin' & Hk').
    exists k', v'. split; [| split; [| exact Hv']].
    + now apply (range_order_elem _ _ _ _ Hord).
    + now apply default_name_unknown.
  - intros n v Hv. apply along_lookup_Some in Hv as (k & Hin & Hk).
    exists k. split; [| exact Hk]. now apply (range_order_elem _ _ _ _ Hord).
Qed.

End ConvertFacts.


(** ** [ConvertEnumUsedToString], continued *)

Section MoreConvertFacts.
Context `{Imports}.
Local Open Scope list_scope.

Lemma default_name_out (k : Z) : ~ 0 <= k <= 3 -> default_name k = EmptyString.
Proof. intros Hk. rewrite default_name_spec. repeat case_decide; try lia; reflexivity. Qed.

Lemma default_name_in (k : Z) : 0 <= k <= 3 -> default_name k <> EmptyString.
Proof. intros Hk. rewrite default_name_spec. repeat case_decide; try lia; discriminate. Qed.

Lemma default_name_inj (k1 k2 : Z) :
  0 <= k1 <= 3 -> default_name k1 = default_name k2 -> k1 = k2.
Proof.
  intros Hk. rewrite !default_name_spec.
  repeat case_decide; subst; intros; try discriminate; lia.
Qed.

Lemma default_name_range (k : Z) :
  default_name k ∈ ["cpu"; "memory"; "storage"; "network"; EmptyString]%string.
Proof.
  rewrite default_name_spec. rewrite !elem_of_cons. repeat case_decide; tauto.
Qed.

(** The number of entries of the output along one visiting order. *)
Lemma along_size_le (order : list (Z * Z)) :
  (size (ConvertEnumUsedToString_along order) <= length order)%nat.
Proof.
  induction order as [|[k v] order IH] using rev_ind; [reflexivity |].
  rewrite along_snoc, map_size_insert, length_app. cbn [length].
  destruct (ConvertEnumUsedToString_along order !! default_name k);
    unfold Datatypes.id; lia.
Qed.

Lemma along_lookup_None (order : list (Z * Z)) (n : string) :
  n ∉ default_name <$> order.*1 ->
  ConvertEnumUsedToString_along order !! n = None.
Proof.
  intros Hn. destruct (ConvertEnumUsedToString_along order !! n) as [v|] eqn:E;
    [exfalso | reflexivity].
  apply along_lookup_Some in E as (k & Hin & Hk). apply Hn.
  rewrite <- Hk. apply list_elem_of_fmap_2.
  change k with ((k, v).1). now apply list_elem_of_fmap_2.
Qed.

Lemma along_size (order : list (Z * Z)) :
  NoDup (default_name <$> order.*1) ->
  size (ConvertEnumUsedToString_along order) = length order.
Proof.
  induction order as [|[k v] order IH] using rev_ind; [reflexivity |].
  rewrite !fmap_app. cbn [fmap list_fmap fst]. intros Hnd.
  apply NoDup_app in Hnd as (Hnd & Hfresh & _).
  rewrite along_snoc, map_size_insert, length_app. cbn [length].
  rewrite along_lookup_None.
  - rewrite (IH Hnd). lia.
  - intros Hin. apply (Hfresh _ Hin). apply list_elem_of_singleton. reflexivity.
Qed.

Lemma along_size_lt (order : list (Z * Z)) :
  ~ NoDup (default_name <$> order.*1) ->
  (size (ConvertEnumUsedToString_along order) < length order)%nat.
Proof.
  induction order as [|[k v] order IH] using rev_ind.
  - intros Hnd. destruct Hnd. constructor.
  - rewrite !fmap_app. cbn [fmap list_fmap fst]. intros Hnd.
    rewrite along_snoc, map_size_insert, length_app. cbn [length].
    pose proof (along_size_le order) as Hle.
    destruct (ConvertEnumUsedToString_along order !! default_name k) as [v'|] eqn:E;
      unfold Datatypes.id; [lia |].
    assert (Hlt : (size (ConvertEnumUsedToString_along order) < length order)%nat);
      [| lia].
    apply IH. intros Hnd'. apply Hnd. apply NoDup_app. split; [exact Hnd' |].
    split; [| apply NoDup_singleton].
    intros n Hin Hn. apply list_elem_of_singleton in Hn. subst n.
    apply list_elem_of_fmap in Hin as (k' & Hk' & Hin).
    apply list_elem_of_fmap in Hin as ([k'' v''] & -> & Hin). cbn [fst] in Hk'.
    destruct (along_is_Some _ _ _ Hin) as [w Hw].
    rewrite <- Hk', E in Hw. discriminate Hw.
Qed.

Lemma range_order_length (costs : EnumUsedMap) (order : list (Z * Z)) :
  range_order costs order -> length order = size costs.
Proof. unfold range_order. intros ->. apply length_map_to_list. Qed.

Lemma range_order_NoDup (costs : EnumUsedMap) (order : list (Z * Z)) :
  range_order costs order -> NoDup order.*1.
Proof. unfold range_order. intros ->. apply NoDup_fst_map_to_list. Qed.

(** The ids outside 0 to 3 are the ones the default registry does not
    know; with at most one of them the names of the ids are distinct. *)
Lemma one_unknown_names (costs : EnumUsedMap) (order : list (Z * Z)) :
  (forall k1 k2, is_Some (costs !! k1) -> is_Some (costs !! k2) ->
                 ~ 0 <= k1 <= 3 -> ~ 0 <= k2 <= 3 -> k1 = k2) ->
  range_order costs order ->
  NoDup (default_name <$> order.*1).
Proof.
  intros Hone Hord. apply NoDup_fmap_2_strong; [| eapply range_order_NoDup, Hord].
  intros k1 k2 Hk1 Hk2 Hn.
  apply list_elem_of_fmap in Hk1 as ([k1' v1] & -> & Hk1).
  apply list_elem_of_fmap in Hk2 as ([k2' v2] & -> & Hk2).
  cbn [fst] in *.
  apply (range_order_elem _ _ _ _ Hord) in Hk1, Hk2.
  destruct (decide (0 <= k1' <= 3)) as [Hin | Hout];
    [now apply default_name_inj |].
  destruct (decide (0 <= k2' <= 3)) as [Hin2 | Hout2];
    [symmetry; now apply default_name_inj |].
  apply Hone; eauto.
Qed.

(** X9. When at most one id of the usage map is outside 0 to 3, the ids
    of the default registry, the result of [ConvertEnumUsedToString] does not
    depend on the order in which the map is visited: any two results are
    equal, the result has as many entries as the input, and every amount is
    found under the name of its id. *)
Theorem ConvertEnumUsedToString_deterministic (costs : EnumUsedMap)
    (m1 m2 : gmap string Z) :
  (forall k1 k2, is_Some (costs !! k1) -> is_Some (costs !! k2) ->
                 ~ 0 <= k1 <= 3 -> ~ 0 <= k2 <= 3 -> k1 = k2) ->
  ConvertEnumUsedToString costs m1 -> ConvertEnumUsedToString costs m2 ->
  m1 = m2
  /\ size m1 = size costs
  /\ forall k v, costs !! k = Some v -> m1 !! default_name k = Some v.
Proof.
  intros Hone.
  assert (Hlook : forall m, ConvertEnumUsedToString costs m ->
             forall k v, costs !! k = Some v -> m !! default_name k = Some v).
  { intros m (order & Hord & ->) k v Hk.
    apply (range_order_elem _ _ _ _ Hord) in Hk as Hin.
    destruct (along_is_Some _ _ _ Hin) as [v' Hv']. rewrite Hv'. f_equal.
    apply along_lookup_Some in Hv' as (k' & Hin' & Hk').
    apply (range_order_elem _ _ _ _ Hord) in Hin'.
    assert (k' = k); [| congruence].
    destruct (decide (0 <= k' <= 3)) as [Hi | Ho];
      [now apply default_name_inj |].
    destruct (decide (0 <= k <= 3)) as [Hi2 | Ho2];
      [symmetry; now apply default_name_inj |].
    apply Hone; eauto. }
  intros Hm1 Hm2. split; [| split; [| now apply Hlook]].
  - apply map_eq. intros n.
    assert (Hsub : forall m m', ConvertEnumUsedToString costs m ->
               ConvertEnumUsedToString costs m' ->
               forall v, m !! n = Some v -> m' !! n = Some v).
    { intros m m' Hm Hm' v Hv. destruct Hm as (order & Hord & ->).
      apply along_lookup_Some in Hv as (k & Hin & <-).
      apply (Hlook m' Hm'). now apply (range_order_elem _ _ _ _ Hord). }
    destruct (m1 !! n) as [v1|] eqn:E1.
    + symmetry. now apply (Hsub m1 m2).
    + destruct (m2 !! n) as [v2|] eqn:E2; [| reflexivity].
      apply (Hsub m2 m1) in E2; [congruence | assumption | assumption].
  - destruct Hm1 as (order & Hord & ->).
    rewrite along_size by (eapply one_unknown_names; eassumption).
    now apply range_order_length.
Qed.

Lemma range_order_last (costs : EnumUsedMap) (k v : Z) :
  costs !! k = Some v ->
  exists order, range_order costs (order ++ [(k, v)]).
Proof.
  intros Hk. apply elem_of_map_to_list in Hk.
  apply list_elem_of_split in Hk as (l1 & l2 & E).
  exists (l1 ++ l2). unfold range_order. rewrite E.
  rewrite <- app_assoc. apply Permutation_app_head.
  symmetry. apply Permutation_cons_append.
Qed.

(** X10. When the usage map holds two different ids outside 0 to 3, both
    are filed under the empty name and the one visited later overwrites the
    other: each of the two amounts is the entry of the empty name for some
    visiting order, and every result has fewer entries than the input. *)
Theorem ConvertEnumUsedToString_order_dependent (costs : EnumUsedMap)
    (k1 k2 v1 v2 : Z) :
  costs !! k1 = Some v1 -> costs !! k2 = Some v2 -> k1 <> k2 ->
  ~ 0 <= k1 <= 3 -> ~ 0 <= k2 <= 3 ->
  (exists m1 m2,
      ConvertEnumUsedToString costs m1 /\ ConvertEnumUsedToString costs m2
      /\ m1 !! EmptyString = Some v1 /\ m2 !! EmptyString = Some v2)
  /\ forall m, ConvertEnumUsedToString costs m -> (size m < size costs)%nat.
Proof.
  intros Hk1 Hk2 Hne Ho1 Ho2. split.
  - destruct (range_order_last _ _ _ Hk1) as (o1 & Ho1').
    destruct (range_order_last _ _ _ Hk2) as (o2 & Ho2').
    exists (ConvertEnumUsedToString_along (o1 ++ [(k1, v1)])),
           (ConvertEnumUsedToString_along (o2 ++ [(k2, v2)])).
    split; [eexists; eauto |]. split; [eexists; eauto |].
    rewrite !along_snoc, !default_name_out by assumption.
    split; apply lookup_insert_eq.
  - intros m (order & Hord & ->).
    rewrite <- (range_order_length _ _ Hord). apply along_size_lt.
    intros Hnd.
    apply (range_order_elem _ _ _ _ Hord) in Hk1, Hk2.
    apply list_elem_of_lookup in Hk1 as [i Hi], Hk2 as [j Hj].
    assert (Hij : i = j).
    { apply (NoDup_lookup _ i j EmptyString Hnd).
      - rewrite !list_lookup_fmap, Hi. cbn. now rewrite default_name_out.
      - rewrite !list_lookup_fmap, Hj. cbn. now rewrite default_name_out. }
    subst j. rewrite Hi in Hj. inversion Hj. contradiction.
Qed.

(** X11. A result of [ConvertEnumUsedToString] has no key other than cpu,
    memory, storage, network and the empty name; it has at most as many
    entries as the input, and at most five. *)
Theorem ConvertEnumUsedToString_bounded (costs : EnumUsedMap)
    (costsMap : gmap string Z) :
  ConvertEnumUsedToString costs costsMap ->
  (forall n, is_Some (costsMap !! n) ->
             n ∈ ["cpu"; "memory"; "storage"; "network"; EmptyString]%string)
  /\ (size costsMap <= size costs)%nat
  /\ (size costsMap <= 5)%nat.
Proof.
  intros (order & Hord & ->).
  assert (Hkeys : forall n, is_Some (ConvertEnumUsedToString_along order !! n) ->
             n ∈ ["cpu"; "memory"; "storage"; "network"; EmptyString]%string).
  { intros n [v Hv]. apply along_lookup_Some in Hv as (k & _ & <-).
    apply default_name_range. }
  split; [exact Hkeys |]. split.
  - rewrite <- (range_order_length _ _ Hord). apply along_size_le.
  - rewrite <- size_dom.
    transitivity (size (list_to_set (C := gset string)
                          ["cpu"; "memory"; "storage"; "network"; EmptyString]%string)).
    + apply subseteq_size. intros n Hn. apply elem_of_dom in Hn.
      apply elem_of_list_to_set. now apply Hkeys.
    + rewrite size_list_to_set; [reflexivity |].
      apply (bool_decide_unpack _). reflexivity.
Qed.

End MoreConvertFacts.

(** ** float64 arithmetic

    The rounding of [SpecFloat] is related to the relation [RND] on real
    numbers, first for the shift-and-round step shared by all operations,
    then for the conversion from integers and for the division. *)

Section FloatFacts.
Local Close Scope string_scope.

Section Pow2.
Local Open Scope R_scope.

Lemma pow2_pos (e : Z) : 0 < pow2 e.
Proof. apply powerRZ_lt. lra. Qed.

Lemma pow2_add (a b : Z) : pow2 (a + b) = pow2 a * pow2 b.
Proof. apply powerRZ_add. lra. Qed.

Lemma pow2_0 : pow2 0 = 1.
Proof. reflexivity. Qed.

Lemma pow2_1 : pow2 1 = 2.
Proof. unfold pow2. simpl. lra. Qed.

Lemma pow2_opp (a : Z) : pow2 (- a) = / pow2 a.
Proof. apply powerRZ_neg'. Qed.

Lemma pow2_IZR (k : Z) : (0 <= k)%Z -> pow2 k = IZR (2 ^ k).
Proof.
  intros Hk. destruct k as [|p|p]; [reflexivity | | lia].
  unfold pow2. now rewrite <- Zpower_pos_powerRZ.
Qed.

Lemma pow2_ge_1 (k : Z) : (0 <= k)%Z -> 1 <= pow2 k.
Proof.
  intros Hk. rewrite pow2_IZR by exact Hk. apply IZR_le.
  assert (0 < 2 ^ k)%Z by (apply Z.pow_pos_nonneg; lia). lia.
Qed.

Lemma pow2_le (a b : Z) : (a <= b)%Z -> pow2 a <= pow2 b.
Proof.
  intros Hab. replace b with (a + (b - a))%Z by lia. rewrite pow2_add.
  pose proof (pow2_pos a). pose proof (pow2_ge_1 (b - a) ltac:(lia)). nra.
Qed.

Lemma pow2_lt (a b : Z) : (a < b)%Z -> 2 * pow2 a <= pow2 b.
Proof.
  intros Hab. rewrite <- pow2_1, <- pow2_add. apply pow2_le. lia.
Qed.

Lemma pow2_mul_opp (a : Z) : pow2 a * pow2 (- a) = 1.
Proof. rewrite <- pow2_add, Z.add_opp_diag_r. apply pow2_0. Qed.

End Pow2.

(** *** Counting binary digits *)

Lemma digits2_pos_bounds (p : positive) :
  2 ^ (Zpos (digits2_pos p) - 1) <= Zpos p < 2 ^ Zpos (digits2_pos p).
Proof.
  induction p as [p IH | p IH |]; cbn [digits2_pos].
  - rewrite Pos2Z.inj_succ. replace (Z.succ (Zpos (digits2_pos p)) - 1)
      with (Z.succ (Zpos (digits2_pos p) - 1)) by lia.
    rewrite !Z.pow_succ_r by lia. lia.
  - rewrite Pos2Z.inj_succ. replace (Z.succ (Zpos (digits2_pos p)) - 1)
      with (Z.succ (Zpos (digits2_pos p) - 1)) by lia.
    rewrite !Z.pow_succ_r by lia. lia.
  - cbn. lia.
Qed.

Lemma digits2_pos_unique (p : positive) (d : Z) :
  2 ^ (d - 1) <= Zpos p < 2 ^ d -> Zpos (digits2_pos p) = d.
Proof.
  intros [Hl Hu]. pose proof (digits2_pos_bounds p) as [Hl' Hu'].
  assert (Hd : 0 < d).
  { destruct (Z_lt_le_dec 0 d); [assumption |].
    assert (2 ^ d <= 1); [| lia].
    destruct (Z.eq_dec d 0) as [-> | ?]; [cbn; lia |].
    rewrite Z.pow_neg_r by lia. lia. }
  destruct (Z.lt_trichotomy (Zpos (digits2_pos p)) d) as [H | [H | H]];
    [| exact H |].
  - assert (2 ^ Zpos (digits2_pos p) <= 2 ^ (d - 1))
      by (apply Z.pow_le_mono_r; lia). lia.
  - assert (2 ^ d <= 2 ^ (Zpos (digits2_pos p) - 1))
      by (apply Z.pow_le_mono_r; lia). lia.
Qed.

(** *** Shifting right with a location *)

Lemma iter_pos_invariant {A : Type} (f : A -> A) (P : Z -> A -> Prop) :
  (forall k a, 0 <= k -> P k a -> P (k + 1) (f a)) ->
  forall n k a, 0 <= k -> P k a -> P (k + Zpos n) (SpecFloat.iter_pos f n a).
Proof.
  intros Hstep. induction n as [n IH | n IH |]; intros k a Hk Ha; cbn [SpecFloat.iter_pos].
  - replace (k + Zpos n~1) with (k + 1 + Zpos n + Zpos n) by lia.
    apply IH; [lia |]. apply IH; [lia |]. now apply Hstep.
  - replace (k + Zpos n~0) with (k + Zpos n + Zpos n) by lia.
    apply IH; [lia |]. now apply IH.
  - now apply Hstep.
Qed.



Lemma shr_1_m (r : shr_record) :
  0 <= shr_m r -> shr_m (shr_1 r) = shr_m r / 2 /\ 0 <= shr_m (shr_1 r).
Proof.
  destruct r as [m r s]. cbn [shr_m]. intros Hm.
  destruct m as [|[p|p|]|p]; cbn [shr_1 shr_m]; try lia.
  - split; [reflexivity | lia].
  - rewrite Pos2Z.inj_xI. split; [| lia].
    apply (Z.div_unique _ _ _ 1); lia.
  - rewrite Pos2Z.inj_xO. split; [| lia].
    apply (Z.div_unique _ _ _ 0); lia.
  - split; [reflexivity | lia].
Qed.

Lemma IZR_xI (p : positive) : IZR (Zpos p~1) = (2 * IZR (Zpos p) + 1)%R.
Proof. rewrite Pos2Z.inj_xI, plus_IZR, mult_IZR. reflexivity. Qed.

Lemma IZR_xO (p : positive) : IZR (Zpos p~0) = (2 * IZR (Zpos p))%R.
Proof. rewrite Pos2Z.inj_xO, mult_IZR. reflexivity. Qed.

Lemma shr_1_loc (r : shr_record) (t : R) :
  0 <= shr_m r ->
  loc_ok t (shr_m r) (loc_of_shr_record r) ->
  loc_ok (t / 2) (shr_m (shr_1 r)) (loc_of_shr_record (shr_1 r)).
Proof.
  destruct r as [m r s]. cbn [shr_m]. intros Hm.
  destruct m as [|[p|p|]|p]; try lia;
    destruct r, s; cbn [shr_1 shr_m loc_of_shr_record loc_ok orb];
    try rewrite IZR_xI; try rewrite IZR_xO;
    intros; lra.
Qed.

Lemma shr_loc_round_trip (m : Z) (l : location) :
  shr_m (shr_record_of_loc m l) = m
  /\ loc_of_shr_record (shr_record_of_loc m l) = l.
Proof. destruct l as [|[]]; split; reflexivity. Qed.

Lemma shr_spec (r : shr_record) (e n : Z) (t : R) :
  0 <= shr_m r -> 0 <= n ->
  loc_ok t (shr_m r) (loc_of_shr_record r) ->
  snd (shr r e n) = e + n
  /\ shr_m (fst (shr r e n)) = shr_m r / 2 ^ n
  /\ 0 <= shr_m (fst (shr r e n))
  /\ loc_ok (t / pow2 n) (shr_m (fst (shr r e n)))
            (loc_of_shr_record (fst (shr r e n))).
Proof.
  intros Hm Hn Hl. destruct n as [|p|p]; [| | lia].
  - cbn [shr fst snd]. rewrite Z.add_0_r, Z.pow_0_r, Z.div_1_r, pow2_0.
    unfold Rdiv. rewrite Rinv_1, Rmult_1_r. easy.
  - cbn [shr fst snd]. split; [reflexivity |].
    pose proof (iter_pos_invariant shr_1
      (fun k a => shr_m a = shr_m r / 2 ^ k /\ 0 <= shr_m a
                  /\ loc_ok (t / pow2 k) (shr_m a) (loc_of_shr_record a)))
      as Hinv.
    cbn beta in Hinv. apply (Hinv) with (n := p) (k := 0) (a := r).
    + clear Hinv. intros k a Hk (Ha & Ha0 & Hal).
      destruct (shr_1_m a Ha0) as [E1 E2]. split; [| split; [exact E2 |]].
      * rewrite E1, Ha, Z.div_div, Z.pow_add_r by lia.
        now rewrite Z.pow_1_r.
      * apply shr_1_loc in Hal; [| exact Ha0].
        replace (t / pow2 (k + 1))%R with (t / pow2 k / 2)%R; [exact Hal |].
        rewrite pow2_add, pow2_1. pose proof (pow2_pos k). field. lra.
    + lia.
    + rewrite Z.pow_0_r, Z.div_1_r, pow2_0. unfold Rdiv.
      rewrite Rinv_1, Rmult_1_r. easy.
Qed.

Lemma round_nearest_even_spec (t : R) (m : Z) (l : location) :
  loc_ok t m l ->
  m <= round_nearest_even m l <= m + 1
  /\ (IZR (round_nearest_even m l) - / 2 <= t
      <= IZR (round_nearest_even m l) + / 2)%R
  /\ (IZR m <= t < IZR m + 1)%R.
Proof.
  destruct l as [|[]]; cbn [loc_ok round_nearest_even]; intros Hl.
  - subst t. split; [lia |]. lra.
  - destruct (Z.even m); rewrite ?plus_IZR; split; try lia; lra.
  - split; [lia |]. lra.
  - rewrite plus_IZR. split; [lia |]. lra.
Qed.

Lemma fexp64_normal (e : Z) : -1021 <= e -> fexp 53 1024 e = e - 53.
Proof. intros He. unfold fexp, emin. lia. Qed.

Lemma Zdigits2_bounds (m : Z) :
  0 < m -> 2 ^ (Zdigits2 m - 1) <= m < 2 ^ Zdigits2 m.
Proof. destruct m as [|p|p]; try lia. intros _. apply digits2_pos_bounds. Qed.

Lemma Zdigits2_unique (m d : Z) :
  0 < m -> 2 ^ (d - 1) <= m < 2 ^ d -> Zdigits2 m = d.
Proof. destruct m as [|p|p]; try lia. intros _. apply digits2_pos_unique. Qed.

Lemma binary_round_aux_correct (s : bool) (mx ex : Z) (lx : location) (x : R) :
  0 < mx -> 53 <= Zdigits2 mx -> -1074 <= ex -> Zdigits2 mx + ex <= 1023 ->
  loc_ok (x / pow2 ex) mx lx ->
  exists m e,
    binary_round_aux 53 1024 s mx ex lx = S754_finite s m e
    /\ 2 ^ 52 <= Zpos m < 2 ^ 53
    /\ ex <= e <= Zdigits2 mx + ex - 52
    /\ RND x (IZR (Zpos m) * pow2 e).
Proof.
  intros Hmx Hd Hex Hov Hl.
  set (d := Zdigits2 mx) in *.
  unfold binary_round_aux, shr_fexp. fold d.
  rewrite fexp64_normal by lia.
  replace (d + ex - 53 - ex) with (d - 53) by lia.
  destruct (shr_loc_round_trip mx lx) as [Em El].
  destruct (shr_spec (shr_record_of_loc mx lx) ex (d - 53) (x / pow2 ex))
    as (He' & Hm' & Hm'0 & Hl'); rewrite ?Em, ?El; try lia; try exact Hl.
  destruct (shr (shr_record_of_loc mx lx) ex (d - 53)) as [r' e'].
  cbn [fst snd] in *. rewrite Em in Hm'.
  set (m' := shr_m r') in *.
  assert (Hm'b : 2 ^ 52 <= m' < 2 ^ 53).
  { pose proof (Zdigits2_bounds mx Hmx) as [Hlo Hhi]. fold d in Hlo, Hhi.
    assert (Hp : 0 < 2 ^ (d - 53)) by (apply Z.pow_pos_nonneg; lia).
    rewrite Hm'. split.
    - apply Z.div_le_lower_bound; [exact Hp |].
      rewrite <- Z.pow_add_r by lia.
      replace (d - 53 + 52) with (d - 1) by lia. exact Hlo.
    - apply Z.div_lt_upper_bound; [exact Hp |].
      rewrite <- Z.pow_add_r by lia.
      replace (d - 53 + 53) with d by lia. exact Hhi. }
  destruct (round_nearest_even_spec _ _ _ Hl') as (Hr1 & Hr2 & Hr3).
  set (m1 := round_nearest_even m' (loc_of_shr_record r')) in *.
  set (t := (x / pow2 ex / pow2 (d - 53))%R) in *.
  assert (Hx : x = (t * pow2 e')%R).
  { unfold t. rewrite He', pow2_add.
    pose proof (pow2_pos ex). pose proof (pow2_pos (d - 53)). field. lra. }
  assert (Ht : (IZR (2 ^ 52) <= t < IZR (2 ^ 53))%R).
  { destruct Hr3 as [Hr3 Hr4]. split.
    - eapply Rle_trans; [apply IZR_le, (proj1 Hm'b) | exact Hr3].
    - eapply Rlt_le_trans; [exact Hr4 |].
      rewrite <- plus_IZR. apply IZR_le. lia. }
  destruct (Z.eq_dec m1 (2 ^ 53)) as [Hm1 | Hm1].
  - (* the rounding carried into the next binade *)
    rewrite Hm1. change (Zdigits2 (2 ^ 53)) with 54.
    rewrite fexp64_normal by lia.
    replace (54 + e' - 53 - e') with 1 by lia.
    cbn [shr shr_record_of_loc SpecFloat.iter_pos shr_1 shr_m].
    change (2 ^ 53) with (Zpos (4503599627370496~0)).
    cbn [shr_1 shr_m].
    replace (e' + 1 <=? 1024 - 53) with true by (symmetry; apply Z.leb_le; lia).
    eexists _, _. split; [reflexivity |].
    split; [cbn; lia |]. split; [lia |].
    exists e', m1, t. repeat split; try tauto; try lra.
    rewrite Hm1, pow2_add, pow2_1.
    change (2 ^ 53) with (2 * 4503599627370496). rewrite mult_IZR. lra.
  - assert (Hm1b : 2 ^ 52 <= m1 < 2 ^ 53) by lia.
    rewrite (Zdigits2_unique m1 53) by (cbn; lia).
    rewrite fexp64_normal by lia.
    replace (53 + e' - 53 - e') with 0 by lia.
    cbn [shr shr_record_of_loc shr_m].
    destruct m1 as [|p1|p1] eqn:Ep1; try lia.
    replace (e' <=? 1024 - 53) with true by (symmetry; apply Z.leb_le; lia).
    exists p1, e'. split; [reflexivity |].
    split; [lia |]. split; [lia |].
    exists e', (Zpos p1), t. repeat split; try tauto; lra.
Qed.

Lemma Pos_iter_xO (p k : positive) :
  Zpos (Pos.iter xO p k) = Zpos p * 2 ^ Zpos k.
Proof.
  induction k as [|k IH] using Pos.peano_ind.
  - cbn [Pos.iter]. rewrite Pos2Z.inj_xO. lia.
  - rewrite Pos.iter_succ, Pos2Z.inj_xO, IH, Pos2Z.inj_succ, Z.pow_succ_r by lia.
    lia.
Qed.

Lemma binary_round_int_correct (s : bool) (p : positive) :
  Zpos p < 2 ^ 64 ->
  exists m e,
    binary_round 53 1024 s p 0 = S754_finite s m e
    /\ normal_mantissa m /\ -52 <= e <= 12
    /\ RND (IZR (Zpos p)) (IZR (Zpos m) * pow2 e).
Proof.
  intros Hp. unfold binary_round.
  pose proof (digits2_pos_bounds p) as [Hlo Hhi].
  set (d := Zpos (digits2_pos p)) in *.
  assert (Hd : 1 <= d <= 64).
  { split; [unfold d; lia |].
    destruct (Z_lt_le_dec 64 d) as [Hgt | ?]; [| lia].
    assert (2 ^ 64 <= 2 ^ (d - 1)) by (apply Z.pow_le_mono_r; lia). lia. }
  rewrite Z.add_0_r, fexp64_normal by lia.
  unfold shl_align. rewrite Z.sub_0_r.
  destruct (d - 53) as [|k|k] eqn:Ek.
  - destruct (binary_round_aux_correct s (Zpos p) 0 loc_Exact (IZR (Zpos p)))
      as (m & e & E & Hm & He & HR); cbn [Zdigits2]; fold d; try lia.
    { cbn [loc_ok]. rewrite pow2_0. unfold Rdiv. now rewrite Rinv_1, Rmult_1_r. }
    exists m, e. cbn [Zdigits2] in He. fold d in He. repeat split; try tauto; lia.
  - destruct (binary_round_aux_correct s (Zpos p) 0 loc_Exact (IZR (Zpos p)))
      as (m & e & E & Hm & He & HR); cbn [Zdigits2]; fold d; try lia.
    { cbn [loc_ok]. rewrite pow2_0. unfold Rdiv. now rewrite Rinv_1, Rmult_1_r. }
    exists m, e. cbn [Zdigits2] in He. fold d in He. repeat split; try tauto; lia.
  - assert (Hk : Zpos k = 53 - d) by lia.
    assert (Hmz : Zpos (Pos.iter xO p k) = Zpos p * 2 ^ (53 - d))
      by (rewrite Pos_iter_xO, Hk; reflexivity).
    assert (Hdz : Zdigits2 (Zpos (Pos.iter xO p k)) = 53).
    { apply Zdigits2_unique; [lia |]. rewrite Hmz.
      assert (E1 : 2 ^ (53 - 1) = 2 ^ (d - 1) * 2 ^ (53 - d))
        by (rewrite <- Z.pow_add_r by lia; f_equal; lia).
      assert (E2 : 2 ^ 53 = 2 ^ d * 2 ^ (53 - d))
        by (rewrite <- Z.pow_add_r by lia; f_equal; lia).
      rewrite E1, E2.
      assert (0 < 2 ^ (53 - d)) by (apply Z.pow_pos_nonneg; lia). nia. }
    destruct (binary_round_aux_correct s (Zpos (Pos.iter xO p k)) (Zneg k)
                loc_Exact (IZR (Zpos p)))
      as (m & e & E & Hm & He & HR); rewrite ?Hdz; try lia.
    { cbn [loc_ok]. rewrite Hmz, mult_IZR, <- pow2_IZR by lia.
      replace (Zneg k) with (- (53 - d)) by lia. rewrite pow2_opp.
      pose proof (pow2_pos (53 - d)). field. lra. }
    exists m, e. repeat split; try tauto; lia.
Qed.

Lemma new_location_spec (nb k q : Z) :
  0 < nb -> 0 <= k < nb ->
  loc_ok (IZR q + IZR k / IZR nb) q (new_location nb k).
Proof.
  intros Hnb Hk.
  assert (Hnb' : (0 < IZR nb)%R) by (apply IZR_lt; exact Hnb).
  assert (Hk0 : (0 <= IZR k)%R) by (apply IZR_le; lia).
  assert (Hk1 : (IZR k < IZR nb)%R) by (apply IZR_lt; lia).
  assert (Hhalf : forall c : comparison,
             (2 * k ?= nb) = c ->
             k <> 0 -> loc_ok (IZR q + IZR k / IZR nb) q (loc_Inexact c)).
  { intros c Hc Hne.
    assert (Hk2 : (0 < IZR k)%R) by (apply IZR_lt; lia).
    assert (Hq : (0 < IZR k / IZR nb < 1)%R).
    { split; [apply Rdiv_lt_0_compat; lra |].
      apply (Rmult_lt_reg_r (IZR nb)); [lra |]. unfold Rdiv.
      rewrite Rmult_assoc, Rinv_l by lra. lra. }
    assert (Hmul : (IZR k / IZR nb * IZR nb = IZR k)%R) by (field; lra).
    destruct c; cbn [loc_ok].
    - apply Z.compare_eq in Hc. apply (f_equal IZR) in Hc.
      rewrite mult_IZR in Hc.
      assert (IZR k / IZR nb = / 2)%R; [| lra]. field_simplify; [| lra].
      rewrite <- Hc. field. lra.
    - apply Z.compare_lt_iff in Hc. apply IZR_lt in Hc. rewrite mult_IZR in Hc.
      split; [lra |].
      assert (IZR k / IZR nb < / 2)%R; [| lra].
      apply (Rmult_lt_reg_r (IZR nb)); [lra |]. rewrite Hmul. lra.
    - apply Z.compare_gt_iff in Hc. apply IZR_lt in Hc. rewrite mult_IZR in Hc.
      split; [| lra].
      assert (/ 2 < IZR k / IZR nb)%R; [| lra].
      apply (Rmult_lt_reg_r (IZR nb)); [lra |]. rewrite Hmul. lra. }
  unfold new_location.
  destruct (Z.even nb) eqn:Eev;
    unfold new_location_even, new_location_odd;
    destruct (Z.eqb_spec k 0) as [-> | Hne].
  - cbn [loc_ok]. unfold Rdiv. rewrite Rmult_0_l. lra.
  - now apply Hhalf.
  - cbn [loc_ok]. unfold Rdiv. rewrite Rmult_0_l. lra.
  - assert (Hodd : 2 * k <> nb).
    { intros <-. rewrite Z.even_mul in Eev. discriminate Eev. }
    destruct (Z.compare_spec (2 * k + 1) nb) as [Ec | Ec | Ec];
      (apply Hhalf; [| exact Hne]).
    + apply Z.compare_lt_iff. lia.
    + apply Z.compare_lt_iff. lia.
    + apply Z.compare_gt_iff. lia.
Qed.

Lemma normal_digits (m : positive) :
  normal_mantissa m -> Zpos (digits2_pos m) = 53.
Proof. intros Hm. apply digits2_pos_unique. exact Hm. Qed.

Lemma SFdiv_normal_correct (s1 s2 : bool) (m1 m2 : positive) (e1 e2 : Z) :
  normal_mantissa m1 -> normal_mantissa m2 -> -1021 <= e1 - e2 <= 1022 ->
  exists m e,
    SFdiv 53 1024 (S754_finite s1 m1 e1) (S754_finite s2 m2 e2)
    = S754_finite (xorb s1 s2) m e
    /\ normal_mantissa m /\ e1 - e2 - 53 <= e <= e1 - e2 - 51
    /\ RND (IZR (Zpos m1) * pow2 e1 / (IZR (Zpos m2) * pow2 e2))
           (IZR (Zpos m) * pow2 e).
Proof.
  intros Hm1 Hm2 He.
  unfold SFdiv, SFdiv_core_binary. cbn [Zdigits2].
  rewrite (normal_digits m1 Hm1), (normal_digits m2 Hm2).
  rewrite fexp64_normal by lia.
  replace (Z.min (53 + e1 - (53 + e2) - 53) (e1 - e2)) with (e1 - e2 - 53) by lia.
  replace (e1 - e2 - (e1 - e2 - 53)) with 53 by lia.
  rewrite Z.shiftl_mul_pow2 by lia.
  pose proof (Z_div_mod (Zpos m1 * 2 ^ 53) (Zpos m2) ltac:(lia)) as Hdm.
  destruct (Z.div_eucl (Zpos m1 * 2 ^ 53) (Zpos m2)) as [q r].
  destruct Hdm as [Hq Hr].
  unfold normal_mantissa in *.
  assert (Hqlo : 2 ^ 52 <= q) by nia.
  assert (Hqhi : q < 2 ^ 54) by nia.
  assert (Hdq : 53 <= Zdigits2 q <= 54).
  { pose proof (Zdigits2_bounds q ltac:(lia)) as [Hlo Hhi]. split.
    - destruct (Z_lt_le_dec (Zdigits2 q) 53) as [Hlt | ?]; [| lia].
      assert (2 ^ Zdigits2 q <= 2 ^ 52) by (apply Z.pow_le_mono_r; lia). lia.
    - destruct (Z_lt_le_dec 54 (Zdigits2 q)) as [Hlt | ?]; [| lia].
      assert (2 ^ 54 <= 2 ^ (Zdigits2 q - 1)) by (apply Z.pow_le_mono_r; lia).
      lia. }
  destruct (binary_round_aux_correct (xorb s1 s2) q (e1 - e2 - 53)
              (new_location (Zpos m2) r)
              (IZR (Zpos m1) * pow2 e1 / (IZR (Zpos m2) * pow2 e2)))
    as (m & e & E & Hm & Hee & HR); try lia.
  { assert (Hx : (IZR (Zpos m1) * pow2 e1 / (IZR (Zpos m2) * pow2 e2)
                  / pow2 (e1 - e2 - 53)
                  = IZR q + IZR r / IZR (Zpos m2))%R).
    { assert (Hq' : (IZR (Zpos m1) * pow2 53
                     = IZR (Zpos m2) * IZR q + IZR r)%R).
      { rewrite pow2_IZR by lia.
        rewrite <- !mult_IZR, <- plus_IZR. now f_equal. }
      replace (e1 - e2 - 53) with (e1 + (- e2 + - (53))) by lia.
      rewrite !pow2_add, !pow2_opp.
      pose proof (pow2_pos e1). pose proof (pow2_pos e2).
      pose proof (pow2_pos 53).
      assert (0 < IZR (Zpos m2))%R by (apply IZR_lt; lia).
      field_simplify; try lra.
      rewrite Hq'. field. lra. }
    rewrite Hx. apply new_location_spec; lia. }
  exists m, e. repeat split; try tauto; lia.
Qed.

(** *** Properties of the rounding relation *)

Section RNDFacts.
Local Open Scope R_scope.

Lemma IZR_le_half (a b : Z) : IZR a <= IZR b + / 2 -> (a <= b)%Z.
Proof.
  intros H. assert (Hlt : IZR a < IZR (b + 1)) by (rewrite plus_IZR; lra).
  apply lt_IZR in Hlt. lia.
Qed.

Lemma IZR_ge_half (a b : Z) : IZR b - / 2 <= IZR a -> (b <= a)%Z.
Proof.
  intros H. assert (Hlt : IZR (b - 1) < IZR a) by (rewrite minus_IZR; lra).
  apply lt_IZR in Hlt. lia.
Qed.

Lemma IZR_lt_succ (a b : Z) : IZR a < IZR b + 1 -> (a <= b)%Z.
Proof.
  intros H. assert (Hlt : IZR a < IZR (b + 1)) by (rewrite plus_IZR; lra).
  apply lt_IZR in Hlt. lia.
Qed.

Lemma RND_m0_bounds (t : R) (m0 : Z) :
  IZR (2 ^ 52) <= t < IZR (2 ^ 53) ->
  IZR m0 - / 2 <= t <= IZR m0 + / 2 ->
  (2 ^ 52 <= m0 <= 2 ^ 53)%Z.
Proof.
  intros [Ht1 Ht2] [Hm1 Hm2]. split.
  - apply IZR_ge_half. lra.
  - apply IZR_le_half. lra.
Qed.

Lemma RND_pos (x y : R) : RND x y -> 0 < x /\ 0 < y.
Proof.
  intros (e0 & m0 & t & -> & Ht & Hm & ->).
  pose proof (RND_m0_bounds t m0 Ht Hm) as [Hb _]. apply IZR_le in Hb.
  pose proof (pow2_pos e0).
  assert (0 < IZR (2 ^ 52)) by (apply IZR_lt; reflexivity).
  split; apply Rmult_lt_0_compat; lra.
Qed.

Lemma RND_mono_strict (x y x' y' : R) :
  RND x y -> RND x' y' -> x < x' -> y <= y'.
Proof.
  intros (e0 & m0 & t & -> & Ht & Hm & ->) (e0' & m0' & t' & -> & Ht' & Hm' & ->)
         Hlt.
  pose proof (RND_m0_bounds t m0 Ht Hm) as [Hb1 Hb2].
  pose proof (RND_m0_bounds t' m0' Ht' Hm') as [Hb1' Hb2'].
  apply IZR_le in Hb1, Hb2, Hb1', Hb2'.
  pose proof (pow2_pos e0) as Hp. pose proof (pow2_pos e0') as Hp'.
  assert (H52 : 0 < IZR (2 ^ 52)) by (apply IZR_lt; reflexivity).
  assert (H53 : IZR (2 ^ 53) = 2 * IZR (2 ^ 52))
    by (rewrite <- mult_IZR; reflexivity).
  destruct (Z.lt_trichotomy e0 e0') as [Hlt' | [<- | Hgt]].
  - apply pow2_lt in Hlt'.
    apply Rle_trans with (IZR (2 ^ 53) * pow2 e0).
    + apply Rmult_le_compat_r; lra.
    + apply Rle_trans with (IZR (2 ^ 52) * pow2 e0').
      * rewrite H53. nra.
      * apply Rmult_le_compat_r; lra.
  - assert (Htt : t < t') by (apply (Rmult_lt_reg_r (pow2 e0)); lra).
    assert (Hmm : (m0 <= m0')%Z) by (apply IZR_lt_succ; lra).
    apply IZR_le in Hmm. apply Rmult_le_compat_r; lra.
  - exfalso. apply pow2_lt in Hgt.
    assert (t' * pow2 e0' < IZR (2 ^ 53) * pow2 e0')
      by (apply Rmult_lt_compat_r; lra).
    assert (IZR (2 ^ 52) * pow2 e0 <= t * pow2 e0)
      by (apply Rmult_le_compat_r; lra).
    rewrite H53 in *. nra.
Qed.

Lemma RND_le_repr (x y : R) (n a : Z) :
  RND x y -> x <= IZR n * pow2 a -> (0 <= n <= 2 ^ 53)%Z ->
  y <= IZR n * pow2 a.
Proof.
  intros (e0 & m0 & t & -> & Ht & Hm & ->) Hle Hn.
  pose proof (RND_m0_bounds t m0 Ht Hm) as [Hb1 Hb2].
  pose proof (pow2_pos e0) as Hp. pose proof (pow2_pos a) as Hpa.
  assert (H52 : 0 < IZR (2 ^ 52)) by (apply IZR_lt; reflexivity).
  assert (H53 : IZR (2 ^ 53) = 2 * IZR (2 ^ 52))
    by (rewrite <- mult_IZR; reflexivity).
  destruct (Z_lt_le_dec a e0) as [Hlt | Hge].
  - apply pow2_lt in Hlt.
    assert (Hn' : IZR n <= IZR (2 ^ 53)) by (apply IZR_le; lia).
    assert (HN : IZR n * pow2 a <= IZR (2 ^ 52) * pow2 e0).
    { apply Rle_trans with (IZR (2 ^ 53) * pow2 a).
      - apply Rmult_le_compat_r; lra.
      - rewrite H53. nra. }
    assert (Hlo : IZR (2 ^ 52) * pow2 e0 <= t * pow2 e0)
      by (apply Rmult_le_compat_r; lra).
    assert (Et : t = IZR (2 ^ 52)).
    { apply (Rmult_eq_reg_r (pow2 e0)); lra. }
    assert (Em : m0 = (2 ^ 52)%Z).
    { apply Z.le_antisymm; [apply IZR_le_half | apply IZR_ge_half]; lra. }
    rewrite Em, <- Et. exact Hle.
  - replace a with (e0 + (a - e0))%Z in * by lia.
    rewrite pow2_add, (pow2_IZR (a - e0)) in * by lia.
    set (T := (n * 2 ^ (a - e0))%Z).
    assert (ET : IZR n * (pow2 e0 * IZR (2 ^ (a - e0))) = IZR T * pow2 e0)
      by (unfold T; rewrite mult_IZR; ring).
    rewrite ET in *.
    assert (HtT : t <= IZR T) by (apply (Rmult_le_reg_r (pow2 e0)); lra).
    assert (Hmm : (m0 <= T)%Z) by (apply IZR_le_half; lra).
    apply IZR_le in Hmm. apply Rmult_le_compat_r; lra.
Qed.

Lemma RND_ge_repr (x y : R) (n a : Z) :
  RND x y -> IZR n * pow2 a <= x -> (0 <= n <= 2 ^ 53)%Z ->
  IZR n * pow2 a <= y.
Proof.
  intros (e0 & m0 & t & -> & Ht & Hm & ->) Hle Hn.
  pose proof (RND_m0_bounds t m0 Ht Hm) as [Hb1 Hb2].
  pose proof (pow2_pos e0) as Hp. pose proof (pow2_pos a) as Hpa.
  assert (H52 : 0 < IZR (2 ^ 52)) by (apply IZR_lt; reflexivity).
  assert (H53 : IZR (2 ^ 53) = 2 * IZR (2 ^ 52))
    by (rewrite <- mult_IZR; reflexivity).
  destruct (Z_lt_le_dec a e0) as [Hlt | Hge].
  - apply pow2_lt in Hlt.
    assert (Hn' : IZR n <= IZR (2 ^ 53)) by (apply IZR_le; lia).
    apply IZR_le in Hb1.
    apply Rle_trans with (IZR (2 ^ 53) * pow2 a).
    + apply Rmult_le_compat_r; lra.
    + apply Rle_trans with (IZR (2 ^ 52) * pow2 e0).
      * rewrite H53. nra.
      * apply Rmult_le_compat_r; lra.
  - replace a with (e0 + (a - e0))%Z in * by lia.
    rewrite pow2_add, (pow2_IZR (a - e0)) in * by lia.
    set (T := (n * 2 ^ (a - e0))%Z).
    assert (ET : IZR n * (pow2 e0 * IZR (2 ^ (a - e0))) = IZR T * pow2 e0)
      by (unfold T; rewrite mult_IZR; ring).
    rewrite ET in *.
    assert (HtT : IZR T <= t) by (apply (Rmult_le_reg_r (pow2 e0)); lra).
    assert (Hmm : (T <= m0)%Z) by (apply IZR_ge_half; lra).
    apply IZR_le in Hmm. apply Rmult_le_compat_r; lra.
Qed.

Lemma RND_exact (x y : R) (n a : Z) :
  RND x y -> x = IZR n * pow2 a -> (0 <= n <= 2 ^ 53)%Z -> y = x.
Proof.
  intros HR Hx Hn. apply Rle_antisym.
  - rewrite Hx. apply (RND_le_repr x); [exact HR | lra | exact Hn].
  - rewrite Hx. apply (RND_ge_repr x); [exact HR | lra | exact Hn].
Qed.

Lemma RND_rel_err (x y : R) :
  RND x y ->
  y = x \/ ((x - y) * IZR (2 ^ 53) < x /\ (y - x) * IZR (2 ^ 53) < x).
Proof.
  intros (e0 & m0 & t & -> & Ht & Hm & ->).
  pose proof (pow2_pos e0) as Hp.
  assert (H52 : 0 < IZR (2 ^ 52)) by (apply IZR_lt; reflexivity).
  assert (H53 : IZR (2 ^ 53) = 2 * IZR (2 ^ 52))
    by (rewrite <- mult_IZR; reflexivity).
  destruct (Req_dec t (IZR (2 ^ 52))) as [Et | Hne].
  - left. f_equal. rewrite Et. f_equal.
    apply Z.le_antisymm; [apply IZR_le_half | apply IZR_ge_half]; lra.
  - right. rewrite H53.
    assert (Hgt : IZR (2 ^ 52) * pow2 e0 < t * pow2 e0)
      by (apply Rmult_lt_compat_r; lra).
    split; nra.
Qed.

Lemma RND_top (x y : R) :
  RND x y -> x <= IZR (2 ^ 63 - 513) -> y <= IZR (2 ^ 63 - 1024).
Proof.
  intros (e0 & m0 & t & -> & Ht & Hm & ->) Hle.
  pose proof (RND_m0_bounds t m0 Ht Hm) as [Hb1 Hb2].
  pose proof (pow2_pos e0) as Hp.
  assert (H52 : IZR (2 ^ 52) = 4503599627370496) by reflexivity.
  assert (H53 : IZR (2 ^ 53) = 9007199254740992) by reflexivity.
  assert (Hx : IZR (2 ^ 63 - 513) = 9223372036854775295) by reflexivity.
  assert (Hy : IZR (2 ^ 63 - 1024) = 9223372036854774784) by reflexivity.
  rewrite Hx in Hle. rewrite Hy. rewrite H52, H53 in Ht.
  destruct (Z_lt_le_dec e0 10) as [Hlt | Hge].
  - assert (Hp9 : pow2 e0 <= pow2 9) by (apply pow2_le; lia).
    rewrite (pow2_IZR 9) in Hp9 by lia.
    change (IZR (2 ^ 9)) with 512 in Hp9.
    apply IZR_le in Hb2. rewrite H53 in Hb2.
    assert (IZR m0 * pow2 e0 <= 9007199254740992 * 512); [| lra].
    apply IZR_le in Hb1. rewrite H52 in Hb1.
    apply Rmult_le_compat; lra.
  - destruct (Z.eq_dec e0 10%Z) as [-> | Hne].
    + rewrite (pow2_IZR 10) in * by lia.
      change (IZR (2 ^ 10)) with 1024 in *.
      assert (Hm0 : (m0 <= 2 ^ 53 - 1)%Z).
      { apply IZR_lt_succ. rewrite minus_IZR, H53. lra. }
      apply IZR_le in Hm0. rewrite minus_IZR, H53 in Hm0. lra.
    + exfalso. assert (Hp11 : pow2 11 <= pow2 e0) by (apply pow2_le; lia).
      rewrite (pow2_IZR 11) in Hp11 by lia.
      change (IZR (2 ^ 11)) with 2048 in Hp11. nra.
Qed.

Lemma normal_val_inj (m1 m2 : positive) (e1 e2 : Z) :
  normal_mantissa m1 -> normal_mantissa m2 ->
  IZR (Zpos m1) * pow2 e1 = IZR (Zpos m2) * pow2 e2 ->
  m1 = m2 /\ e1 = e2.
Proof.
  unfold normal_mantissa. intros [Hl1 Hu1] [Hl2 Hu2] E.
  apply IZR_le in Hl1, Hl2. apply IZR_lt in Hu1, Hu2.
  assert (H53 : IZR (2 ^ 53) = 2 * IZR (2 ^ 52))
    by (rewrite <- mult_IZR; reflexivity).
  assert (H52 : 0 < IZR (2 ^ 52)) by (apply IZR_lt; reflexivity).
  pose proof (pow2_pos e1) as Hp1. pose proof (pow2_pos e2) as Hp2.
  destruct (Z.lt_trichotomy e1 e2) as [Hlt | [<- | Hgt]].
  - exfalso. apply pow2_lt in Hlt. rewrite H53 in *. nra.
  - split; [| reflexivity].
    apply Rmult_eq_reg_r in E; [| lra]. apply eq_IZR in E. congruence.
  - exfalso. apply pow2_lt in Hgt. rewrite H53 in *. nra.
Qed.

End RNDFacts.

(** *** The operations of [GetResourceValue] *)

Lemma float64_of_int64_spec (v : Z) :
  v <> 0 -> Z.abs v < 2 ^ 64 ->
  exists m e,
    float64_of_int64 v = S754_finite (v <? 0) m e
    /\ normal_mantissa m /\ -52 <= e <= 12
    /\ RND (IZR (Z.abs v)) (IZR (Zpos m) * pow2 e).
Proof.
  intros Hv Hb. unfold float64_of_int64, binary_normalize.
  destruct v as [|p|p]; [congruence | |].
  - apply (binary_round_int_correct false p). exact Hb.
  - apply (binary_round_int_correct true p). exact Hb.
Qed.

Lemma float_to_Z_int (m : positive) (e n : Z) :
  (IZR (Zpos m) * pow2 e = IZR n)%R ->
  (if 0 <=? e then Zpos m * 2 ^ e else Zpos m / 2 ^ (- e)) = n.
Proof.
  intros E. destruct (Z.leb_spec 0 e) as [He | He].
  - rewrite pow2_IZR, <- mult_IZR in E by exact He. now apply eq_IZR.
  - assert (Hm : Zpos m = n * 2 ^ (- e)).
    { apply eq_IZR. rewrite mult_IZR, <- pow2_IZR, <- E by lia.
      rewrite Rmult_assoc, pow2_mul_opp. ring. }
    rewrite Hm. apply Z.div_mul.
    assert (0 < 2 ^ (- e)) by (apply Z.pow_pos_nonneg; lia). lia.
Qed.

Lemma float64_to_Z_normalize (n : Z) (s : bool) :
  Z.abs n <= 2 ^ 53 ->
  float64_to_Z (binary_normalize 53 1024 n 0 s) = Some n.
Proof.
  intros Hn. unfold binary_normalize.
  destruct n as [|p|p]; [reflexivity | |].
  - destruct (binary_round_int_correct false p) as (m & e & E & Hm & He & HR);
      [lia |].
    rewrite E. cbn [float64_to_Z cond_Zopp]. f_equal.
    apply float_to_Z_int.
    apply (RND_exact _ _ (Zpos p) 0 HR); [rewrite pow2_0; ring | lia].
  - destruct (binary_round_int_correct true p) as (m & e & E & Hm & He & HR);
      [lia |].
    rewrite E. cbn [float64_to_Z cond_Zopp]. f_equal.
    rewrite (float_to_Z_int m e (Zpos p)); [reflexivity |].
    apply (RND_exact _ _ (Zpos p) 0 HR); [rewrite pow2_0; ring | lia].
Qed.

Lemma Ceil_to_Z (s : bool) (m : positive) (e : Z) :
  Zpos m < 2 ^ 53 ->
  exists c,
    float64_to_Z (Ceil (S754_finite s m e)) = Some c
    /\ (IZR c - 1 < float_val (S754_finite s m e) <= IZR c)%R.
Proof.
  intros Hm. unfold Ceil. destruct (Z.leb_spec 0 e) as [He | He].
  - cbn [float64_to_Z float_val].
    replace (0 <=? e) with true by (symmetry; apply Z.leb_le; exact He).
    eexists. split; [reflexivity |].
    rewrite pow2_IZR, <- mult_IZR by exact He.
    destruct s; cbn [cond_Zopp]; rewrite ?opp_IZR; lra.
  - set (b := 2 ^ (- e)).
    assert (Hb : 2 <= b).
    { unfold b. replace (- e) with (1 + (- e - 1)) by lia.
      rewrite Z.pow_add_r by lia.
      assert (0 < 2 ^ (- e - 1)) by (apply Z.pow_pos_nonneg; lia). lia. }
    assert (Hpe : pow2 e = (/ IZR b)%R).
    { unfold b. rewrite <- pow2_IZR by lia. rewrite <- pow2_opp. f_equal. lia. }
    assert (Hb' : (0 < IZR b)%R) by (apply IZR_lt; lia).
    set (n := if s then - (Zpos m / b) else - (- Zpos m / b)).
    assert (Hn : Z.abs n <= 2 ^ 53 /\
                 (IZR n - 1 < float_val (S754_finite s m e) <= IZR n)%R).
    { cbn [float_val]. rewrite Hpe. unfold n. destruct s.
      - pose proof (Z_div_mod (Zpos m) b ltac:(lia)) as Hdm.
        unfold Z.div. destruct (Z.div_eucl (Zpos m) b) as [q r].
        destruct Hdm as [Hq Hr]. split; [nia |].
        apply (f_equal IZR) in Hq. rewrite plus_IZR, mult_IZR in Hq.
        destruct Hr as [Hr0 Hr1]. apply IZR_le in Hr0. apply IZR_lt in Hr1.
        rewrite opp_IZR, Hq.
        assert (E : ((IZR b * IZR q + IZR r) * / IZR b
                     = IZR q + IZR r * / IZR b)%R) by (field; lra).
        rewrite E.
        assert (0 <= IZR r * / IZR b < 1)%R; [| lra].
        split.
        + apply Rmult_le_pos; [lra |]. left. now apply Rinv_0_lt_compat.
        + apply (Rmult_lt_reg_r (IZR b)); [lra |].
          rewrite Rmult_assoc, Rinv_l by lra. lra.
      - pose proof (Z_div_mod (- Zpos m) b ltac:(lia)) as Hdm.
        unfold Z.div. destruct (Z.div_eucl (- Zpos m) b) as [q r].
        destruct Hdm as [Hq Hr]. split; [nia |].
        assert (Hq' : Zpos m = b * (- q) - r) by lia.
        apply (f_equal IZR) in Hq'.
        rewrite minus_IZR, mult_IZR, opp_IZR in Hq'.
        destruct Hr as [Hr0 Hr1]. apply IZR_le in Hr0. apply IZR_lt in Hr1.
        rewrite opp_IZR, Hq'.
        assert (E : ((IZR b * - IZR q - IZR r) * / IZR b
                     = - IZR q - IZR r * / IZR b)%R) by (field; lra).
        rewrite E.
        assert (0 <= IZR r * / IZR b < 1)%R; [| lra].
        split.
        + apply Rmult_le_pos; [lra |]. left. now apply Rinv_0_lt_compat.
        + apply (Rmult_lt_reg_r (IZR b)); [lra |].
          rewrite Rmult_assoc, Rinv_l by lra. lra. }
    destruct Hn as [Hn1 Hn2]. exists n. split; [| exact Hn2].
    now apply float64_to_Z_normalize.
Qed.

Lemma ceil_quotient_spec (v d : Z) :
  v <> 0 -> Z.abs v < 2 ^ 64 -> 1 <= d <= 2 ^ 53 ->
  exists m1 e1 c y2,
    float64_of_int64 v = S754_finite (v <? 0) m1 e1
    /\ normal_mantissa m1
    /\ RND (IZR (Z.abs v)) (IZR (Zpos m1) * pow2 e1)
    /\ RND (IZR (Zpos m1) * pow2 e1 / IZR d) y2
    /\ ceil_quotient v d = Some c
    /\ (IZR c - 1 < (if v <? 0 then - y2 else y2) <= IZR c)%R.
Proof.
  intros Hv Hvb Hd.
  destruct (float64_of_int64_spec v Hv Hvb) as (m1 & e1 & E1 & Hm1 & He1 & HR1).
  destruct (float64_of_int64_spec d) as (md & ed & Ed & Hmd & Hed & HRd);
    [lia | lia |].
  replace (d <? 0) with false in Ed by (symmetry; apply Z.ltb_ge; lia).
  assert (Hdv : (IZR (Zpos md) * pow2 ed = IZR d)%R).
  { rewrite (RND_exact _ _ d 0 HRd); rewrite ?Z.abs_eq by lia;
      [reflexivity | rewrite pow2_0; ring | lia]. }
  destruct (SFdiv_normal_correct (v <? 0) false m1 md e1 ed Hm1 Hmd)
    as (m & e & E & Hm & He & HR); [lia |].
  rewrite xorb_false_r in E. rewrite Hdv in HR.
  destruct (Ceil_to_Z (v <? 0) m e) as (c & Ec & Hc); [apply Hm |].
  exists m1, e1, c, (IZR (Zpos m) * pow2 e)%R.
  repeat split; try assumption; try apply Hm1.
  - unfold ceil_quotient, float64_div. now rewrite E1, Ed, E.
  - cbn [float_val] in Hc. apply Hc.
  - cbn [float_val] in Hc. apply Hc.
Qed.

Lemma IZR_sandwich (c k : Z) (y : R) :
  (IZR c - 1 < y <= IZR c)%R -> (IZR k - 1 < y <= IZR k)%R -> c = k.
Proof.
  intros [Hc1 Hc2] [Hk1 Hk2].
  assert (H1 : (c <= k)%Z) by (apply IZR_lt_succ; lra).
  assert (H2 : (k <= c)%Z) by (apply IZR_lt_succ; lra).
  lia.
Qed.

Theorem ceil_quotient_exact (v d : Z) :
  v <> 0 -> Z.abs v <= 2 ^ 53 -> 1 <= d <= 2 ^ 53 ->
  ceil_quotient v d = Some (- ((- v) / d)).
Proof.
  intros Hv Hvb Hd.
  destruct (ceil_quotient_spec v d Hv ltac:(lia) Hd)
    as (m1 & e1 & c & y2 & E1 & Hm1 & HR1 & HR2 & Ec & Hc).
  rewrite Ec. f_equal.
  assert (Hy1 : (IZR (Zpos m1) * pow2 e1 = IZR (Z.abs v))%R).
  { apply (RND_exact _ _ (Z.abs v) 0 HR1); [rewrite pow2_0; ring | lia]. }
  rewrite Hy1 in HR2.
  assert (HP : IZR (2 ^ 53) = 9007199254740992%R) by reflexivity.
  assert (HD : (1 <= IZR d)%R) by (apply IZR_le; lia).
  assert (HV : (IZR (Z.abs v) <= 9007199254740992)%R)
    by (rewrite <- HP; apply IZR_le; lia).
  assert (HXD : (IZR (Z.abs v) / IZR d * IZR d = IZR (Z.abs v))%R)
    by (field; lra).
  set (X := (IZR (Z.abs v) / IZR d)%R) in *.
  pose proof (RND_pos _ _ HR2) as [HXpos Hy2pos].
  apply (IZR_sandwich _ _ _ Hc). clear Hc Ec.
  pose proof (Z_div_mod (- v) d ltac:(lia)) as Hdm.
  unfold Z.div. destruct (Z.div_eucl (- v) d) as [q r].
  destruct Hdm as [Hq Hr].
  destruct (Z.ltb_spec v 0) as [Hneg | Hpos].
  - (* v < 0: the value is -y2 and q = floor (|v| / d) *)
    rewrite Z.abs_neq in * by lia.
    assert (Hq0 : 0 <= q <= 2 ^ 53) by nia.
    assert (Hlo : (IZR q <= y2)%R).
    { replace (IZR q) with (IZR q * pow2 0)%R by (rewrite pow2_0; ring).
      apply (RND_ge_repr X); [exact HR2 | | exact Hq0].
      rewrite pow2_0, Rmult_1_r.
      apply (Rmult_le_reg_r (IZR d)); [lra |]. rewrite HXD, <- mult_IZR.
      apply IZR_le. lia. }
    assert (Hhi : (y2 < IZR q + 1)%R).
    { assert (HVq : (IZR (- v) + 1 <= (IZR q + 1) * IZR d)%R).
      { rewrite <- !plus_IZR, <- mult_IZR. apply IZR_le. nia. }
      destruct (RND_rel_err _ _ HR2) as [-> | [_ Herr]].
      - apply (Rmult_lt_reg_r (IZR d)); [lra |]. rewrite HXD. lra.
      - rewrite HP in Herr.
        assert (Hm : ((y2 - X) * 9007199254740992 * IZR d < X * IZR d)%R)
          by (apply Rmult_lt_compat_r; lra).
        rewrite HXD in Hm.
        assert (Hm' : ((y2 * IZR d - IZR (- v)) * 9007199254740992
                       < IZR (- v))%R) by (rewrite <- HXD at 1; lra).
        apply (Rmult_lt_reg_r (IZR d)); [lra |]. nra. }
    rewrite opp_IZR. lra.
  - (* v > 0: the value is y2 and -q = ceil (v / d) *)
    rewrite Z.abs_eq in * by lia.
    assert (Hq0 : 1 <= - q <= 2 ^ 53) by nia.
    assert (Hhi : (y2 <= IZR (- q))%R).
    { replace (IZR (- q)) with (IZR (- q) * pow2 0)%R by (rewrite pow2_0; ring).
      apply (RND_le_repr X); [exact HR2 | | lia].
      rewrite pow2_0, Rmult_1_r.
      apply (Rmult_le_reg_r (IZR d)); [lra |]. rewrite HXD, <- mult_IZR.
      apply IZR_le. lia. }
    assert (Hlo : (IZR (- q) - 1 < y2)%R).
    { assert (HVq : ((IZR (- q) - 1) * IZR d <= IZR v - 1)%R).
      { rewrite <- !minus_IZR, <- mult_IZR. apply IZR_le. nia. }
      destruct (RND_rel_err _ _ HR2) as [-> | [Herr _]].
      - apply (Rmult_lt_reg_r (IZR d)); [lra |]. rewrite HXD. lra.
      - rewrite HP in Herr.
        assert (Hm : ((X - y2) * 9007199254740992 * IZR d < X * IZR d)%R)
          by (apply Rmult_lt_compat_r; lra).
        rewrite HXD in Hm.
        assert (Hm' : ((IZR v - y2 * IZR d) * 9007199254740992 < IZR v)%R)
          by (rewrite <- HXD at 1; lra).
        apply (Rmult_lt_reg_r (IZR d)); [lra |]. nra. }
    lra.
Qed.

Lemma ceil_quotient_range (v d c : Z) :
  v <> 0 -> - 2 ^ 63 <= v <= 2 ^ 63 - 513 -> 1 <= d <= 2 ^ 53 ->
  ceil_quotient v d = Some c ->
  (0 < v -> 1 <= c <= 2 ^ 63 - 1024) /\ (v < 0 -> - 2 ^ 63 <= c <= 0).
Proof.
  intros Hv Hvb Hd Ec.
  destruct (ceil_quotient_spec v d Hv ltac:(lia) Hd)
    as (m1 & e1 & c' & y2 & E1 & Hm1 & HR1 & HR2 & Ec' & Hc).
  rewrite Ec in Ec'. inversion Ec'; subst c'; clear Ec'.
  assert (HD : (1 <= IZR d)%R) by (apply IZR_le; lia).
  pose proof (RND_pos _ _ HR1) as [_ Hy1pos].
  pose proof (RND_pos _ _ HR2) as [_ Hy2pos].
  set (y1 := (IZR (Zpos m1) * pow2 e1)%R) in *.
  assert (Hx2 : (y1 / IZR d <= y1)%R).
  { apply (Rmult_le_reg_r (IZR d)); [lra |].
    unfold Rdiv. rewrite Rmult_assoc, Rinv_l by lra. nra. }
  assert (H10 : pow2 10 = 1024%R) by (rewrite pow2_IZR by lia; reflexivity).
  split; intros Hsign.
  - replace (v <? 0) with false in Hc by (symmetry; apply Z.ltb_ge; lia).
    rewrite Z.abs_eq in HR1 by lia.
    assert (Hy1 : (y1 <= IZR (2 ^ 63 - 1024))%R).
    { apply (RND_top _ _ HR1). apply IZR_le. lia. }
    assert (Hy2 : (y2 <= IZR (2 ^ 53 - 1) * pow2 10)%R).
    { apply (RND_le_repr _ _ _ _ HR2); [| lia].
      rewrite H10, <- mult_IZR. change ((2 ^ 53 - 1) * 1024) with (2 ^ 63 - 1024).
      lra. }
    rewrite H10, <- mult_IZR in Hy2.
    change ((2 ^ 53 - 1) * 1024) with (2 ^ 63 - 1024) in Hy2.
    split.
    + assert (0 <= c - 1); [| lia]. apply IZR_lt_succ.
      rewrite minus_IZR. lra.
    + apply IZR_lt_succ. lra.
  - replace (v <? 0) with true in Hc by (symmetry; apply Z.ltb_lt; lia).
    rewrite Z.abs_neq in HR1 by lia.
    assert (Hy1 : (y1 <= IZR (2 ^ 53) * pow2 10)%R).
    { apply (RND_le_repr _ _ _ _ HR1); [| lia].
      rewrite H10, <- mult_IZR. apply IZR_le.
      change (2 ^ 53 * 1024) with (2 ^ 63). lia. }
    assert (Hy2 : (y2 <= IZR (2 ^ 53) * pow2 10)%R).
    { apply (RND_le_repr _ _ _ _ HR2); [lra | lia]. }
    rewrite H10, <- mult_IZR in Hy2.
    change (2 ^ 53 * 1024) with (2 ^ 63) in Hy2.
    split.
    + apply le_IZR. rewrite opp_IZR. lra.
    + apply IZR_lt_succ. lra.
Qed.

Theorem ceil_quotient_mono (v1 v2 d c1 c2 : Z) :
  v1 <> 0 -> v2 <> 0 -> Z.abs v1 < 2 ^ 64 -> Z.abs v2 < 2 ^ 64 ->
  1 <= d <= 2 ^ 53 ->
  ceil_quotient v1 d = Some c1 -> ceil_quotient v2 d = Some c2 ->
  v1 <= v2 -> c1 <= c2.
Proof.
  intros Hv1 Hv2 Hb1 Hb2 Hd Ec1 Ec2 Hle.
  destruct (Z.eq_dec v1 v2) as [-> | Hne]; [rewrite Ec1 in Ec2; inversion Ec2; lia |].
  destruct (ceil_quotient_spec v1 d Hv1 Hb1 Hd)
    as (m1 & e1 & c1' & y2 & E1 & Hm1 & HR1 & HR2 & Ec1' & Hc1).
  destruct (ceil_quotient_spec v2 d Hv2 Hb2 Hd)
    as (m1' & e1' & c2' & y2' & E1' & Hm1' & HR1' & HR2' & Ec2' & Hc2).
  rewrite Ec1 in Ec1'. inversion Ec1'; subst c1'; clear Ec1'.
  rewrite Ec2 in Ec2'. inversion Ec2'; subst c2'; clear Ec2'.
  assert (HD : (0 < IZR d)%R) by (apply IZR_lt; lia).
  pose proof (RND_pos _ _ HR2) as [_ Hy2pos].
  pose proof (RND_pos _ _ HR2') as [_ Hy2pos'].
  set (y1 := (IZR (Zpos m1) * pow2 e1)%R) in *.
  set (y1' := (IZR (Zpos m1') * pow2 e1')%R) in *.
  assert (Hsame : forall s, (v1 <? 0) = s -> (v2 <? 0) = s -> y1 = y1' ->
                            c1 = c2).
  { intros s Hs1 Hs2 Hy. unfold y1, y1' in Hy.
    destruct (normal_val_inj m1 m1' e1 e1' Hm1 Hm1' Hy) as [-> ->].
    unfold ceil_quotient in Ec1, Ec2. rewrite E1, Hs1 in Ec1.
    rewrite E1', Hs2 in Ec2. congruence. }
  assert (Hdiv : forall a b : R, (a < b -> a / IZR d < b / IZR d)%R).
  { intros a b Hab. unfold Rdiv. apply Rmult_lt_compat_r; [| exact Hab].
    now apply Rinv_0_lt_compat. }
  destruct (Z.ltb_spec v1 0) as [Hn1 | Hp1];
    destruct (Z.ltb_spec v2 0) as [Hn2 | Hp2]; try lia.
  - (* both negative *)
    rewrite Z.abs_neq in HR1, HR1' by lia.
    assert (Hy : (y1' <= y1)%R).
    { apply (RND_mono_strict _ _ _ _ HR1' HR1). apply IZR_lt. lia. }
    destruct (Req_dec y1 y1') as [Heq | Hneq].
    + rewrite (Hsame true); [lia | | | exact Heq]; reflexivity.
    + assert (Hy2 : (y2' <= y2)%R).
      { apply (RND_mono_strict _ _ _ _ HR2' HR2). apply Hdiv. lra. }
      apply IZR_lt_succ. lra.
  - (* v1 negative, v2 positive *)
    apply IZR_lt_succ. lra.
  - (* both positive *)
    rewrite Z.abs_eq in HR1, HR1' by lia.
    assert (Hy : (y1 <= y1')%R).
    { apply (RND_mono_strict _ _ _ _ HR1 HR1'). apply IZR_lt. lia. }
    destruct (Req_dec y1 y1') as [Heq | Hneq].
    + rewrite (Hsame false); [lia | | | exact Heq]; reflexivity.
    + assert (Hy2 : (y2 <= y2')%R).
      { apply (RND_mono_strict _ _ _ _ HR2 HR2'). apply Hdiv. lra. }
      apply IZR_lt_succ. lra.
Qed.

End FloatFacts.

(** ** The unit normaliser *)

Section NormaliserFacts.
Context `{Imports}.

Lemma cpuUnit_milli : MilliValue cpuUnit = 1.
Proof.
  unfold cpuUnit. destruct MustParse_1m as (q & -> & Hq). exact Hq.
Qed.

Lemma bin1Mi_milli : MilliValue bin1Mi = 1048576000.
Proof.
  unfold bin1Mi. change (Z.shiftl 1 20) with 1048576.
  rewrite MilliValue_NewQuantity; [reflexivity | lia].
Qed.

Lemma gpu_key_fresh :
  ResourceGPU <> ResourceCPU /\ ResourceGPU <> ResourceMemory
  /\ ResourceGPU <> ResourceStorage /\ ResourceGPU <> ResourceNetwork.
Proof. exact NvidiaGpuKey_fresh. Qed.

Lemma string_app_neq (p s : string) : p <> EmptyString -> p ++ s <> s.
Proof.
  intros Hp E. apply (f_equal String.length) in E.
  rewrite string_length_app in E. destruct p; [congruence | simpl in E; lia].
Qed.

(** The keys of [PricesUnit] and the divisor each one selects. *)
Lemma PricesUnit_lookup (name : string) :
  PricesUnit !! name
  = if decide (name = ResourceNetwork) then Some bin1Mi
    else if decide (name = ResourceStorage) then Some bin1Mi
    else if decide (name = ResourceMemory) then Some bin1Mi
    else if decide (name = ResourceGPU) then Some cpuUnit
    else if decide (name = ResourceCPU) then Some cpuUnit
    else None.
Proof.
  unfold PricesUnit. rewrite !lookup_insert, lookup_empty.
  repeat case_decide; congruence.
Qed.

Lemma PricesUnit_divisor (name : string) (unit : Quantity) :
  PricesUnit !! name = Some unit ->
  MilliValue unit = 1 \/ MilliValue unit = 1048576000.
Proof.
  rewrite PricesUnit_lookup.
  repeat case_decide; intros E; inversion E;
    rewrite ?cpuUnit_milli, ?bin1Mi_milli; tauto.
Qed.

Lemma PricesUnit_keys (name : string) :
  PricesUnit !! name = None <->
  name ∉ [ResourceCPU; ResourceGPU; ResourceMemory; ResourceStorage;
          ResourceNetwork].
Proof.
  rewrite PricesUnit_lookup, !not_elem_of_cons.
  repeat case_decide; split; intros Hn; try discriminate; try reflexivity;
    try tauto.
  repeat split; try assumption. apply not_elem_of_nil.
Qed.

Lemma int64_of_float64_in_range (x : spec_float) (n : Z) :
  float64_to_Z x = Some n -> - 2 ^ 63 <= n < 2 ^ 63 ->
  int64_of_float64 x = n.
Proof.
  intros E Hn. unfold int64_of_float64. rewrite E.
  replace (- 2 ^ 63 <=? n)%Z with true by (symmetry; apply Z.leb_le; lia).
  replace (n <? 2 ^ 63)%Z with true by (symmetry; apply Z.ltb_lt; lia).
  reflexivity.
Qed.

Lemma GetResourceValue_missing (name : string)
    (res : gmap string QuantityDetail) :
  res !! name = None -> GetResourceValue name res = Some 0.
Proof. intros E. unfold GetResourceValue. now rewrite E. Qed.

Lemma GetResourceValue_zero (name : string) (res : gmap string QuantityDetail)
    (quantity : QuantityDetail) (q : Quantity) :
  res !! name = Some quantity -> QuantityDetail_Quantity quantity = Some q ->
  MilliValue q = 0 -> GetResourceValue name res = Some 0.
Proof.
  intros E Eq Hz. unfold GetResourceValue. now rewrite E, Eq, Hz.
Qed.

Lemma GetResourceValue_present (name : string)
    (res : gmap string QuantityDetail) (quantity : QuantityDetail)
    (q unit : Quantity) (c : Z) :
  res !! name = Some quantity -> QuantityDetail_Quantity quantity = Some q ->
  MilliValue q <> 0 -> PricesUnit !! name = Some unit ->
  ceil_quotient (MilliValue q) (MilliValue unit) = Some c ->
  - 2 ^ 63 <= c < 2 ^ 63 ->
  GetResourceValue name res = Some c.
Proof.
  intros E Eq Hnz Eu Ec Hc. unfold GetResourceValue. rewrite E, Eq, Eu.
  replace (MilliValue q =? 0)%Z with false
    by (symmetry; apply Z.eqb_neq; exact Hnz).
  f_equal. now apply int64_of_float64_in_range.
Qed.

(** C2, as amended. For every resource kind of [PricesUnit], with divisor
    [d], [GetResourceValue] returns 0 when the quantity is absent or its
    milli-value is zero, and for a quantity whose milli-value [v] has a
    magnitude of at most [2^53] it returns exactly [ceil(v/d)]: 1500 for a
    CPU quantity of 1500 milli with the divisor of one milli, 11 for a
    memory quantity of 10 MiB plus one byte with the divisor of one MiB. *)
Theorem GetResourceValue_ceil (resourceName : string) (unit : Quantity)
    (res : gmap string QuantityDetail) :
  PricesUnit !! resourceName = Some unit ->
  (res !! resourceName = None -> GetResourceValue resourceName res = Some 0)
  /\ (forall quantity q,
        res !! resourceName = Some quantity ->
        QuantityDetail_Quantity quantity = Some q ->
        (MilliValue q = 0 -> GetResourceValue resourceName res = Some 0)
        /\ (Z.abs (MilliValue q) <= 2 ^ 53 ->
            GetResourceValue resourceName res
            = Some (Zceil_div (MilliValue q) (MilliValue unit)))
        /\ (resourceName = ResourceCPU -> MilliValue q = 1500 ->
            GetResourceValue resourceName res = Some 1500)
        /\ (resourceName = ResourceMemory ->
            MilliValue q = (10 * 2 ^ 20 + 1) * 1000 ->
            GetResourceValue resourceName res = Some 11)).
Proof.
  intros Eu. split; [apply GetResourceValue_missing |].
  intros quantity q E Eq.
  assert (Hgen : Z.abs (MilliValue q) <= 2 ^ 53 ->
                 GetResourceValue resourceName res
                 = Some (Zceil_div (MilliValue q) (MilliValue unit))).
  { intros Hb.
    assert (Hd : 1 <= MilliValue unit <= 2 ^ 53)
      by (destruct (PricesUnit_divisor _ _ Eu) as [-> | ->]; lia).
    destruct (Z.eq_dec (MilliValue q) 0) as [Hz | Hnz].
    - rewrite (GetResourceValue_zero _ _ _ _ E Eq Hz), Hz. reflexivity.
    - apply (GetResourceValue_present _ _ _ _ _ _ E Eq Hnz Eu).
      + now apply ceil_quotient_exact.
      + unfold Zceil_div.
        pose proof (Z_div_mod (- MilliValue q) (MilliValue unit) ltac:(lia))
          as Hdm.
        unfold Z.div.
        destruct (Z.div_eucl (- MilliValue q) (MilliValue unit)) as [a r].
        destruct Hdm as [Ha Hr]. nia. }
  split; [apply (GetResourceValue_zero _ _ _ _ E Eq) |].
  split; [exact Hgen |]. split.
  - intros -> Hv. rewrite Hgen, Hv by (rewrite Hv; lia).
    rewrite PricesUnit_lookup in Eu.
    destruct gpu_key_fresh as (? & ? & ? & ?).
    repeat (case_decide; try discriminate; try congruence).
    inversion Eu. now rewrite cpuUnit_milli.
  - intros -> Hv. rewrite Hgen, Hv by (rewrite Hv; lia).
    rewrite PricesUnit_lookup in Eu.
    repeat (case_decide; try discriminate; try congruence).
    inversion Eu. now rewrite bin1Mi_milli.
Qed.

Lemma units_value (v d : Z) :
  v <> 0 -> - 2 ^ 63 <= v <= 2 ^ 63 - 513 -> 1 <= d <= 2 ^ 53 ->
  exists c, ceil_quotient v d = Some c /\ - 2 ^ 63 <= c < 2 ^ 63
            /\ (0 < v -> 1 <= c) /\ (v < 0 -> c <= 0).
Proof.
  intros Hv Hb Hd.
  destruct (ceil_quotient_spec v d Hv ltac:(lia) Hd)
    as (_ & _ & c & _ & _ & _ & _ & _ & Ec & _).
  destruct (ceil_quotient_range v d c Hv Hb Hd Ec) as [Hpos Hneg].
  exists c. split; [exact Ec |].
  destruct (Z_lt_le_dec 0 v) as [Hp | Hn].
  - specialize (Hpos Hp). repeat split; lia.
  - assert (Hn' : v < 0) by lia. specialize (Hneg Hn'). repeat split; lia.
Qed.

(** C7, as amended. For every resource kind of [PricesUnit],
    [GetResourceValue] yields 0 for a missing quantity and for a quantity of
    milli-value zero, and it is monotonic over the milli-values from [-2^63]
    up to [2^63 - 513], those whose quotient converts back to [int64]. *)
Theorem GetResourceValue_monotone (resourceName : string)
    (res1 res2 : gmap string QuantityDetail)
    (quantity1 quantity2 : QuantityDetail) (q1 q2 : Quantity) :
  is_Some (PricesUnit !! resourceName) ->
  (forall res, res !! resourceName = None ->
               GetResourceValue resourceName res = Some 0)
  /\ (MilliValue q1 = 0 -> res1 !! resourceName = Some quantity1 ->
      QuantityDetail_Quantity quantity1 = Some q1 ->
      GetResourceValue resourceName res1 = Some 0)
  /\ (res1 !! resourceName = Some quantity1 ->
      QuantityDetail_Quantity quantity1 = Some q1 ->
      res2 !! resourceName = Some quantity2 ->
      QuantityDetail_Quantity quantity2 = Some q2 ->
      - 2 ^ 63 <= MilliValue q1 -> MilliValue q1 <= MilliValue q2 ->
      MilliValue q2 <= 2 ^ 63 - 513 ->
      exists r1 r2,
        GetResourceValue resourceName res1 = Some r1
        /\ GetResourceValue resourceName res2 = Some r2
        /\ r1 <= r2).
Proof.
  intros [unit Eu]. split; [intros res; apply GetResourceValue_missing |].
  split; [intros Hz E Eq; apply (GetResourceValue_zero _ _ _ _ E Eq Hz) |].
  intros E1 Eq1 E2 Eq2 Hlo Hle Hhi.
  assert (Hd : 1 <= MilliValue unit <= 2 ^ 53)
    by (destruct (PricesUnit_divisor _ _ Eu) as [-> | ->]; lia).
  assert (Hval : forall res quantity q,
             res !! resourceName = Some quantity ->
             QuantityDetail_Quantity quantity = Some q ->
             - 2 ^ 63 <= MilliValue q <= 2 ^ 63 - 513 ->
             exists r, GetResourceValue resourceName res = Some r
                       /\ (MilliValue q = 0 -> r = 0)
                       /\ (0 < MilliValue q -> 1 <= r)
                       /\ (MilliValue q < 0 -> r <= 0)
                       /\ (MilliValue q <> 0 ->
                           ceil_quotient (MilliValue q) (MilliValue unit)
                           = Some r)).
  { intros res quantity q E Eq Hb.
    destruct (Z.eq_dec (MilliValue q) 0) as [Hz | Hnz].
    - exists 0. rewrite (GetResourceValue_zero _ _ _ _ E Eq Hz).
      repeat split; try lia; congruence.
    - destruct (units_value _ _ Hnz Hb Hd) as (c & Ec & Hc & Hp & Hn).
      exists c. rewrite (GetResourceValue_present _ _ _ _ _ _ E Eq Hnz Eu Ec Hc).
      repeat split; try assumption; congruence. }
  destruct (Hval _ _ _ E1 Eq1 ltac:(lia)) as (r1 & Er1 & Hz1 & Hp1 & Hn1 & Hc1).
  destruct (Hval _ _ _ E2 Eq2 ltac:(lia)) as (r2 & Er2 & Hz2 & Hp2 & Hn2 & Hc2).
  exists r1, r2. split; [exact Er1 |]. split; [exact Er2 |].
  destruct (Z.eq_dec (MilliValue q1) 0) as [Hq1 | Hq1];
    destruct (Z.eq_dec (MilliValue q2) 0) as [Hq2 | Hq2].
  - rewrite (Hz1 Hq1), (Hz2 Hq2). lia.
  - rewrite (Hz1 Hq1). assert (1 <= r2) by (apply Hp2; lia). lia.
  - rewrite (Hz2 Hq2). apply Hn1. lia.
  - apply (ceil_quotient_mono (MilliValue q1) (MilliValue q2) (MilliValue unit));
      try assumption; try lia; auto.
Qed.

(** C10. For a resource name without entry in [PricesUnit],
    [GetResourceValue] with a present quantity of non-zero milli-value
    dereferences the nil divisor and returns no value.  [PricesUnit] is keyed
    by the five exact names, so a prefixed GPU name other than the GPU key
    has no entry; such a call exists; and on the five keys
    [GetResourceValue] returns a value for every map whose quantity pointers
    are not nil. *)
Theorem GetResourceValue_nil_divisor :
  (forall name res quantity q,
      PricesUnit !! name = None ->
      res !! name = Some quantity ->
      QuantityDetail_Quantity quantity = Some q ->
      MilliValue q <> 0 ->
      GetResourceValue name res = None)
  /\ (forall name,
        PricesUnit !! name = None <->
        name ∉ [ResourceCPU; ResourceGPU; ResourceMemory; ResourceStorage;
                ResourceNetwork])
  /\ (forall product,
        NewGpuResource product <> ResourceGPU ->
        PricesUnit !! NewGpuResource product = None)
  /\ (exists name res, GetResourceValue name res = None)
  /\ (forall name res,
        is_Some (PricesUnit !! name) ->
        (forall quantity, res !! name = Some quantity ->
                          is_Some (QuantityDetail_Quantity quantity)) ->
        is_Some (GetResourceValue name res)).
Proof.
  assert (Hnil : forall name res quantity q,
             PricesUnit !! name = None ->
             res !! name = Some quantity ->
             QuantityDetail_Quantity quantity = Some q ->
             MilliValue q <> 0 ->
             GetResourceValue name res = None).
  { intros name res quantity q Eu E Eq Hnz. unfold GetResourceValue.
    rewrite E, Eq, Eu.
    now replace (MilliValue q =? 0)%Z with false
      by (symmetry; apply Z.eqb_neq; exact Hnz). }
  assert (Hgpu : forall product,
             NewGpuResource product <> ResourceGPU ->
             PricesUnit !! NewGpuResource product = None).
  { intros product Hne. apply PricesUnit_keys.
    rewrite !not_elem_of_cons. repeat split; try exact Hne;
      try discriminate. apply not_elem_of_nil. }
  split; [exact Hnil |]. split; [exact PricesUnit_keys |].
  split; [exact Hgpu |]. split.
  - exists (NewGpuResource ResourceGPU),
           (single_resource (NewGpuResource ResourceGPU)
              (NewQuantity 1 BinarySI)).
    eapply Hnil.
    + apply Hgpu. apply string_app_neq. discriminate.
    + apply lookup_singleton_eq.
    + reflexivity.
    + rewrite MilliValue_NewQuantity by lia. lia.
  - intros name res [unit Eu] Hq. unfold GetResourceValue.
    destruct (res !! name) as [quantity|] eqn:E; [| eauto].
    destruct (Hq quantity eq_refl) as [q Eq]. rewrite Eq, Eu.
    destruct (MilliValue q =? 0)%Z; eauto.
Qed.

End NormaliserFacts.


(** ** [GetResourceValue], continued *)

Section MoreNormaliserFacts.
Context `{Imports}.

Lemma PricesUnit_divisor_range (name : string) (unit : Quantity) :
  PricesUnit !! name = Some unit -> 1 <= MilliValue unit <= 2 ^ 53.
Proof.
  intros Eu. destruct (PricesUnit_divisor _ _ Eu) as [-> | ->]; lia.
Qed.

Lemma Zceil_div_bounds (v d : Z) :
  0 < d -> (Zceil_div v d - 1) * d < v <= Zceil_div v d * d.
Proof.
  intros Hd. unfold Zceil_div.
  pose proof (Z_div_mod (- v) d ltac:(lia)) as Hdm. unfold Z.div.
  destruct (Z.div_eucl (- v) d) as [a r]. destruct Hdm as [Ha Hr]. nia.
Qed.

Lemma Zceil_div_unique (v d c : Z) :
  0 < d -> (c - 1) * d < v <= c * d -> Zceil_div v d = c.
Proof.
  intros Hd Hc. pose proof (Zceil_div_bounds v d Hd) as Hb. nia.
Qed.

(** The exact quotient below [2^53]. *)
Lemma GetResourceValue_exact (name : string) (unit : Quantity)
    (res : gmap string QuantityDetail) (quantity : QuantityDetail)
    (q : Quantity) :
  PricesUnit !! name = Some unit ->
  res !! name = Some quantity -> QuantityDetail_Quantity quantity = Some q ->
  Z.abs (MilliValue q) <= 2 ^ 53 ->
  GetResourceValue name res
  = Some (Zceil_div (MilliValue q) (MilliValue unit)).
Proof.
  intros Eu E Eq Hb. pose proof (PricesUnit_divisor_range _ _ Eu) as Hd.
  destruct (Z.eq_dec (MilliValue q) 0) as [Hz | Hnz].
  - rewrite (GetResourceValue_zero _ _ _ _ E Eq Hz), Hz. reflexivity.
  - apply (GetResourceValue_present _ _ _ _ _ _ E Eq Hnz Eu).
    + now apply ceil_quotient_exact.
    + pose proof (Zceil_div_bounds (MilliValue q) (MilliValue unit) ltac:(lia)).
      nia.
Qed.

(** X13. [GetResourceValue] panics exactly when the map has an entry for
    the name and either the quantity pointer embedded in it is nil, or the
    quantity has a non-zero milli-value and the name is none of the five keys
    of [PricesUnit].  A missing entry and a quantity of milli-value zero
    never panic, whatever the name. *)
Theorem GetResourceValue_panics_iff (name : string)
    (res : gmap string QuantityDetail) :
  GetResourceValue name res = None <->
  exists quantity,
    res !! name = Some quantity
    /\ (QuantityDetail_Quantity quantity = None
        \/ exists q, QuantityDetail_Quantity quantity = Some q
                     /\ MilliValue q <> 0
                     /\ name ∉ [ResourceCPU; ResourceGPU; ResourceMemory;
                                ResourceStorage; ResourceNetwork]).
Proof.
  unfold GetResourceValue. destruct (res !! name) as [quantity|] eqn:E.
  - destruct (QuantityDetail_Quantity quantity) as [q|] eqn:Eq.
    + destruct (Z.eqb_spec (MilliValue q) 0) as [Hz | Hnz].
      * split; [discriminate |].
        intros (qd & Eqd & [Hn | (q' & Eq' & Hnz & _)]); inversion Eqd; subst qd;
          congruence.
      * destruct (PricesUnit !! name) as [unit|] eqn:Eu.
        -- split; [discriminate |].
           intros (qd & Eqd & [Hn | (q' & Eq' & _ & Hk)]); inversion Eqd; subst qd;
             [congruence |].
           apply PricesUnit_keys in Hk. congruence.
        -- split; [| reflexivity]. intros _. exists quantity.
           split; [reflexivity |]. right. exists q.
           split; [exact Eq |]. split; [exact Hnz |].
           now apply PricesUnit_keys.
    + split; [| reflexivity]. intros _. exists quantity. split; [reflexivity |].
      left. exact Eq.
  - split; [discriminate |]. intros (qd & Eqd & _). discriminate.
Qed.

(** X14. For a key of [PricesUnit] and a quantity with a milli-value from
    [-2^63] to [2^63 - 513], [GetResourceValue] returns a value of the sign
    of the quantity: from 1 to [2^63 - 1024] for a positive quantity, 0 for
    zero, from [-2^63] to 0 for a negative one.  A positive usage is never
    reported as 0 units. *)
Theorem GetResourceValue_sign (name : string)
    (res : gmap string QuantityDetail) (quantity : QuantityDetail)
    (q : Quantity) :
  is_Some (PricesUnit !! name) ->
  res !! name = Some quantity -> QuantityDetail_Quantity quantity = Some q ->
  - 2 ^ 63 <= MilliValue q <= 2 ^ 63 - 513 ->
  exists r, GetResourceValue name res = Some r
            /\ (0 < MilliValue q -> 1 <= r <= 2 ^ 63 - 1024)
            /\ (MilliValue q = 0 -> r = 0)
            /\ (MilliValue q < 0 -> - 2 ^ 63 <= r <= 0).
Proof.
  intros [unit Eu] E Eq Hb. pose proof (PricesUnit_divisor_range _ _ Eu) as Hd.
  destruct (Z.eq_dec (MilliValue q) 0) as [Hz | Hnz].
  - exists 0. rewrite (GetResourceValue_zero _ _ _ _ E Eq Hz).
    repeat split; lia.
  - destruct (units_value _ _ Hnz Hb Hd) as (c & Ec & Hc & _).
    destruct (ceil_quotient_range _ _ _ Hnz Hb Hd Ec) as [Hpos Hneg].
    exists c. rewrite (GetResourceValue_present _ _ _ _ _ _ E Eq Hnz Eu Ec Hc).
    split; [reflexivity |]. split; [exact Hpos |]. split; [contradiction | exact Hneg].
Qed.

(** X15. Rounding up is done per quantity: for milli-values of magnitude
    at most [2^53], the units of the sum of two quantities are at most the sum
    of their units and at least that sum minus one. *)
Theorem GetResourceValue_subadditive (name : string) (q1 q2 q : Quantity) :
  is_Some (PricesUnit !! name) ->
  MilliValue q = MilliValue q1 + MilliValue q2 ->
  Z.abs (MilliValue q1) <= 2 ^ 53 -> Z.abs (MilliValue q2) <= 2 ^ 53 ->
  Z.abs (MilliValue q) <= 2 ^ 53 ->
  exists r1 r2 r,
    GetResourceValue name (single_resource name q1) = Some r1
    /\ GetResourceValue name (single_resource name q2) = Some r2
    /\ GetResourceValue name (single_resource name q) = Some r
    /\ r1 + r2 - 1 <= r <= r1 + r2.
Proof.
  intros [unit Eu] Hsum Hb1 Hb2 Hb.
  pose proof (PricesUnit_divisor_range _ _ Eu) as Hd.
  exists (Zceil_div (MilliValue q1) (MilliValue unit)),
         (Zceil_div (MilliValue q2) (MilliValue unit)),
         (Zceil_div (MilliValue q) (MilliValue unit)).
  assert (Hone : forall q0, Z.abs (MilliValue q0) <= 2 ^ 53 ->
             GetResourceValue name (single_resource name q0)
             = Some (Zceil_div (MilliValue q0) (MilliValue unit))).
  { intros q0 Hq0.
    apply (GetResourceValue_exact _ _ _ (plain_quantity q0) q0 Eu);
      [apply lookup_singleton_eq | reflexivity | assumption]. }
  split; [now apply Hone |]. split; [now apply Hone |].
  split; [now apply Hone |]. split.
  - pose proof (Zceil_div_bounds (MilliValue q1) (MilliValue unit) ltac:(lia)).
    pose proof (Zceil_div_bounds (MilliValue q2) (MilliValue unit) ltac:(lia)).
    pose proof (Zceil_div_bounds (MilliValue q) (MilliValue unit) ltac:(lia)).
    nia.
  - pose proof (Zceil_div_bounds (MilliValue q1) (MilliValue unit) ltac:(lia)).
    pose proof (Zceil_div_bounds (MilliValue q2) (MilliValue unit) ltac:(lia)).
    pose proof (Zceil_div_bounds (MilliValue q) (MilliValue unit) ltac:(lia)).
    nia.
Qed.

End MoreNormaliserFacts.

(** ** Infrastructure quantities *)

Section InfraFacts.
Context `{Imports}.

Lemma int_wrap_id (IntSize x : Z) :
  IntSize = 32 \/ IntSize = 64 ->
  - 2 ^ (IntSize - 1) <= x < 2 ^ (IntSize - 1) -> int_wrap IntSize x = x.
Proof.
  intros HS Hx. unfold int_wrap.
  rewrite Z.mod_small; [lia |].
  destruct HS as [-> | ->]; cbn in *; lia.
Qed.

Lemma infraCPUMap_flavors (flavor : string) :
  is_Some (infraCPUMap !! flavor) <-> flavor ∈ infra_flavors.
Proof.
  unfold infraCPUMap, infra_flavors.
  rewrite !lookup_insert, lookup_empty, !elem_of_cons.
  rewrite elem_of_nil.
  repeat case_decide; subst;
    (split; [intros [? ?]; try discriminate; auto 10
            | intros; try (eexists; reflexivity); exfalso; intuition congruence]).
Qed.

Lemma infraMemoryMap_flavors (flavor : string) :
  is_Some (infraMemoryMap !! flavor) <-> flavor ∈ infra_flavors.
Proof.
  unfold infraMemoryMap, infra_flavors.
  rewrite !lookup_insert, lookup_empty, !elem_of_cons.
  rewrite elem_of_nil.
  repeat case_decide; subst;
    (split; [intros [? ?]; try discriminate; auto 10
            | intros; try (eexists; reflexivity); exfalso; intuition congruence]).
Qed.

Lemma infraCPUMap_range (flavor : string) (v : Z) :
  infraCPUMap !! flavor = Some v -> v = 2 \/ v = 4.
Proof.
  unfold infraCPUMap. rewrite !lookup_insert, lookup_empty.
  repeat case_decide; intros E; inversion E; tauto.
Qed.

Lemma infraMemoryMap_range (flavor : string) (v : Z) :
  infraMemoryMap !! flavor = Some v -> v = 4 \/ v = 8 \/ v = 16.
Proof.
  unfold infraMemoryMap. rewrite !lookup_insert, lookup_empty.
  repeat case_decide; intros E; inversion E; tauto.
Qed.

Lemma PricesUnit_cpu : PricesUnit !! ResourceCPU = Some cpuUnit.
Proof.
  rewrite PricesUnit_lookup. destruct gpu_key_fresh as (? & ? & ? & ?).
  repeat (case_decide; try discriminate; try congruence).
Qed.

Lemma PricesUnit_memory : PricesUnit !! ResourceMemory = Some bin1Mi.
Proof.
  rewrite PricesUnit_lookup.
  repeat (case_decide; try discriminate; try congruence).
Qed.

Lemma PricesUnit_storage : PricesUnit !! ResourceStorage = Some bin1Mi.
Proof.
  rewrite PricesUnit_lookup.
  repeat (case_decide; try discriminate; try congruence).
Qed.

(** X17. [GetInfraCPUQuantity] and [GetInfraMemoryQuantity] return nil
    exactly for a flavor outside the six flavors of the tables, whatever the
    count and the width of [int]; the two tables list the same flavors, so
    the two functions return nil together.  [GetResourceValue] panics on a
    [QuantityDetail] that embeds such a nil result. *)
Theorem GetInfraQuantity_flavors (IntSize : Z) (flavor : string) (count : Z) :
  (GetInfraCPUQuantity IntSize flavor count = None <-> flavor ∉ infra_flavors)
  /\ (GetInfraMemoryQuantity IntSize flavor count = None
      <-> flavor ∉ infra_flavors)
  /\ (GetInfraCPUQuantity IntSize flavor count = None
      <-> GetInfraMemoryQuantity IntSize flavor count = None)
  /\ (flavor ∉ infra_flavors ->
      forall (name detail : string),
        GetResourceValue name
          {[ name := {| QuantityDetail_Quantity :=
                          GetInfraCPUQuantity IntSize flavor count;
                        QuantityDetail_Detail := detail |} ]} = None
        /\ GetResourceValue name
             {[ name := {| QuantityDetail_Quantity :=
                             GetInfraMemoryQuantity IntSize flavor count;
                           QuantityDetail_Detail := detail |} ]} = None).
Proof.
  assert (Hc : GetInfraCPUQuantity IntSize flavor count = None
               <-> flavor ∉ infra_flavors).
  { rewrite <- infraCPUMap_flavors. unfold GetInfraCPUQuantity.
    destruct (infraCPUMap !! flavor) as [v|].
    - split; [discriminate |]. intros Hn. destruct Hn. eauto.
    - split; [| reflexivity]. intros _ [? ?]. discriminate. }
  assert (Hm : GetInfraMemoryQuantity IntSize flavor count = None
               <-> flavor ∉ infra_flavors).
  { rewrite <- infraMemoryMap_flavors. unfold GetInfraMemoryQuantity.
    destruct (infraMemoryMap !! flavor) as [v|].
    - split; [discriminate |]. intros Hn. destruct Hn. eauto.
    - split; [| reflexivity]. intros _ [? ?]. discriminate. }
  split; [exact Hc |]. split; [exact Hm |].
  split; [now rewrite Hc, Hm |].
  intros Hn name detail.
  rewrite (proj2 Hc Hn), (proj2 Hm Hn). unfold GetResourceValue.
  now rewrite lookup_singleton_eq.
Qed.

(** X18. For a flavor with [v] cores and a count whose product with [v]
    fits 32 bits, with a 32-bit or a 64-bit [int], [GetInfraCPUQuantity]
    returns a quantity of [v*count] cores, that is [v*count*1000] milli, and
    [GetResourceValue] reports it as [v*count*1000] millicores under the CPU
    key. *)
Theorem GetInfraCPUQuantity_millicores (IntSize : Z) (flavor : string)
    (count v : Z) (detail : string) :
  IntSize = 32 \/ IntSize = 64 ->
  infraCPUMap !! flavor = Some v ->
  - 2 ^ 31 <= v * count < 2 ^ 31 ->
  exists q,
    GetInfraCPUQuantity IntSize flavor count = Some q
    /\ MilliValue q = v * count * 1000
    /\ GetResourceValue ResourceCPU
         {[ ResourceCPU :=
              {| QuantityDetail_Quantity :=
                   GetInfraCPUQuantity IntSize flavor count;
                 QuantityDetail_Detail := detail |} ]}
       = Some (v * count * 1000).
Proof.
  intros HS Ev Hb. unfold GetInfraCPUQuantity. rewrite Ev.
  rewrite int_wrap_id by (try exact HS; destruct HS as [-> | ->]; cbn; lia).
  eexists. split; [reflexivity |].
  assert (Hm : MilliValue (NewQuantity (v * count) DecimalSI) = v * count * 1000)
    by (apply MilliValue_NewQuantity; lia).
  split; [exact Hm |].
  erewrite (GetResourceValue_exact ResourceCPU cpuUnit);
    [| apply PricesUnit_cpu | apply lookup_singleton_eq | reflexivity
     | rewrite Hm; lia].
  rewrite Hm, cpuUnit_milli. f_equal. apply Zceil_div_unique; lia.
Qed.

(** A quantity of [g] GiB counted in MiB. *)
Lemma GiB_value (name : string) (g : Z) (detail : string) :
  PricesUnit !! name = Some bin1Mi ->
  Z.abs g <= 8388 ->
  MilliValue (NewQuantity (g * 2 ^ 30) BinarySI) = g * 2 ^ 30 * 1000
  /\ GetResourceValue name
       {[ name := {| QuantityDetail_Quantity :=
                       Some (NewQuantity (g * 2 ^ 30) BinarySI);
                     QuantityDetail_Detail := detail |} ]}
     = Some (g * 1024).
Proof.
  intros Eu Hg.
  assert (Hm : MilliValue (NewQuantity (g * 2 ^ 30) BinarySI)
               = g * 2 ^ 30 * 1000)
    by (apply MilliValue_NewQuantity; lia).
  split; [exact Hm |].
  erewrite (GetResourceValue_exact name bin1Mi);
    [| exact Eu | apply lookup_singleton_eq | reflexivity | rewrite Hm; lia].
  rewrite Hm, bin1Mi_milli. f_equal. apply Zceil_div_unique; lia.
Qed.

(** X19. With a 64-bit [int], for a flavor with [v] GiB and
    [|v*count| <= 8388], [GetInfraMemoryQuantity] returns a quantity of
    [v*count] GiB, and [GetResourceValue] reports it as [v*count*1024] MiB
    under the memory key. *)
Theorem GetInfraMemoryQuantity_MiB (flavor : string) (count v : Z)
    (detail : string) :
  infraMemoryMap !! flavor = Some v ->
  Z.abs (v * count) <= 8388 ->
  exists q,
    GetInfraMemoryQuantity 64 flavor count = Some q
    /\ MilliValue q = v * count * 2 ^ 30 * 1000
    /\ GetResourceValue ResourceMemory
         {[ ResourceMemory :=
              {| QuantityDetail_Quantity :=
                   GetInfraMemoryQuantity 64 flavor count;
                 QuantityDetail_Detail := detail |} ]}
       = Some (v * count * 1024).
Proof.
  intros Ev Hb. unfold GetInfraMemoryQuantity. rewrite Ev.
  rewrite (int_wrap_id 64 (v * count)) by (try (now right); cbn; lia).
  rewrite Z.shiftl_mul_pow2 by lia.
  rewrite int_wrap_id by (try (now right); cbn; lia).
  eexists. split; [reflexivity |].
  apply (GiB_value ResourceMemory (v * count) detail PricesUnit_memory Hb).
Qed.

(** X20. With a 64-bit [int], for a capacity of magnitude at most 8388,
    [GetInfraDiskQuantity] returns a quantity of that many GiB, and
    [GetResourceValue] reports it as [capacity*1024] MiB under the storage
    key. *)
Theorem GetInfraDiskQuantity_MiB (capacity : Z) (detail : string) :
  Z.abs capacity <= 8388 ->
  MilliValue (GetInfraDiskQuantity 64 capacity) = capacity * 2 ^ 30 * 1000
  /\ GetResourceValue ResourceStorage
       {[ ResourceStorage :=
            {| QuantityDetail_Quantity := Some (GetInfraDiskQuantity 64 capacity);
               QuantityDetail_Detail := detail |} ]}
     = Some (capacity * 1024).
Proof.
  intros Hb. unfold GetInfraDiskQuantity.
  rewrite Z.shiftl_mul_pow2 by lia.
  rewrite int_wrap_id by (try (now right); cbn; lia).
  apply (GiB_value ResourceStorage capacity detail PricesUnit_storage Hb).
Qed.

(** X21. With a 32-bit [int] the shift by 30 bits overflows for every
    entry of the memory table: [GetInfraMemoryQuantity] returns the zero
    quantity for every flavor of the table and every count, and
    [GetResourceValue] reports 0 MiB. *)
Theorem GetInfraMemoryQuantity_int32 (flavor : string) (count : Z)
    (detail : string) :
  flavor ∈ infra_flavors ->
  GetInfraMemoryQuantity 32 flavor count = Some (NewQuantity 0 BinarySI)
  /\ GetResourceValue ResourceMemory
       {[ ResourceMemory :=
            {| QuantityDetail_Quantity :=
                 GetInfraMemoryQuantity 32 flavor count;
               QuantityDetail_Detail := detail |} ]}
     = Some 0.
Proof.
  intros Hin. apply infraMemoryMap_flavors in Hin as [v Ev].
  assert (Hq : GetInfraMemoryQuantity 32 flavor count
               = Some (NewQuantity 0 BinarySI)).
  { unfold GetInfraMemoryQuantity. rewrite Ev. do 2 f_equal.
    assert (Hv : exists u, v = 4 * u).
    { destruct (infraMemoryMap_range _ _ Ev) as [-> | [-> | ->]];
        [exists 1 | exists 2 | exists 4]; reflexivity. }
    destruct Hv as [u ->]. unfold int_wrap.
    rewrite Z.shiftl_mul_pow2 by lia.
    change (2 ^ (32 - 1)) with 2147483648. change (2 ^ 32) with 4294967296.
    change (2 ^ 30) with 1073741824.
    rewrite (Z.mod_eq (4 * u * count + 2147483648)) by lia.
    set (k := (4 * u * count + 2147483648) / 4294967296).
    replace ((4 * u * count + 2147483648 - 4294967296 * k - 2147483648)
             * 1073741824 + 2147483648)
      with (2147483648 + (u * count - 1073741824 * k) * 4294967296) by lia.
    rewrite Z_mod_plus_full. reflexivity. }
  split; [exact Hq |]. rewrite Hq.
  eapply (GetResourceValue_zero _ _ _ (NewQuantity 0 BinarySI));
    [apply lookup_singleton_eq | reflexivity |].
  rewrite MilliValue_NewQuantity; lia.
Qed.

End InfraFacts.

(** ** The accuracy of [GetResourceValue] over the whole range *)

Section Accuracy.
Context `{Imports}.

(** Two roundings in a row, each with a relative error of at most [1/E]. *)
Lemma two_roundings (x u w E : R) :
  (0 < x -> 2 <= E ->
   (x - u) * E <= x -> (u - x) * E <= x ->
   (u - w) * E <= u -> (w - u) * E <= u ->
   (E - 2) * x <= E * w /\ E * w <= (E + 3) * x)%R.
Proof.
  intros Hx HE H1 H2 H3 H4.
  split; apply (Rmult_le_reg_l E); try lra; nra.
Qed.

Lemma RND_rel_le (x y E : R) :
  RND x y -> E = IZR (2 ^ 53) ->
  ((x - y) * E <= x /\ (y - x) * E <= x)%R.
Proof.
  intros HR ->. destruct (RND_pos _ _ HR) as [Hx _].
  destruct (RND_rel_err _ _ HR) as [-> | [? ?]]; lra.
Qed.

(** X16. Over all positive milli-values [v] up to [2^63 - 513], beyond the
    range in which [float64] is exact, the result [r] of [GetResourceValue]
    with the divisor [d] is the ceiling of [v/d] up to the two roundings of
    the [float64] arithmetic: [r*d >= v*(1 - 2^-52)] and
    [(r-1)*d < v*(1 + 2^-51)]. *)
Theorem GetResourceValue_accuracy (name : string) (unit : Quantity)
    (res : gmap string QuantityDetail) (quantity : QuantityDetail)
    (q : Quantity) :
  PricesUnit !! name = Some unit ->
  res !! name = Some quantity -> QuantityDetail_Quantity quantity = Some q ->
  0 < MilliValue q <= 2 ^ 63 - 513 ->
  exists r,
    GetResourceValue name res = Some r
    /\ (2 ^ 52 - 1) * MilliValue q <= 2 ^ 52 * (r * MilliValue unit)
    /\ 2 ^ 51 * ((r - 1) * MilliValue unit) < (2 ^ 51 + 1) * MilliValue q.
Proof.
  intros Eu E Eq Hb.
  set (v := MilliValue q) in *. set (d := MilliValue unit).
  assert (Hd : 1 <= d <= 2 ^ 53) by (apply (PricesUnit_divisor_range _ _ Eu)).
  assert (Hnz : v <> 0) by lia.
  destruct (ceil_quotient_spec v d Hnz ltac:(lia) Hd)
    as (m1 & e1 & c & y2 & _ & _ & HR1 & HR2 & Ec & Hc).
  destruct (ceil_quotient_range v d c Hnz ltac:(lia) Hd Ec) as [Hpos _].
  specialize (Hpos ltac:(lia)).
  exists c. split.
  { apply (GetResourceValue_present _ _ _ _ _ _ E Eq Hnz Eu Ec). lia. }
  replace (v <? 0)%Z with false in Hc by (symmetry; apply Z.ltb_ge; lia).
  rewrite Z.abs_eq in HR1 by lia.
  set (E53 := IZR (2 ^ 53)).
  assert (HE : (2 <= E53)%R) by (apply IZR_le; lia).
  assert (Hx : (0 < IZR v)%R) by (apply IZR_lt; lia).
  assert (Hdr : (1 <= IZR d)%R) by (apply IZR_le; lia).
  destruct (RND_rel_le _ _ E53 HR1 eq_refl) as [H1 H2].
  destruct (RND_rel_le _ _ E53 HR2 eq_refl) as [H3 H4].
  set (u := (IZR (Z.pos m1) * pow2 e1)%R) in *. clearbody u.
  set (a := (u / IZR d)%R) in *.
  assert (Hud : (u = a * IZR d)%R) by (unfold a; field; lra).
  assert (H3' : ((u - y2 * IZR d) * E53 <= u)%R).
  { rewrite Hud.
    replace ((a * IZR d - y2 * IZR d) * E53)%R
      with (((a - y2) * E53) * IZR d)%R by ring.
    apply Rmult_le_compat_r; lra. }
  assert (H4' : ((y2 * IZR d - u) * E53 <= u)%R).
  { rewrite Hud.
    replace ((y2 * IZR d - a * IZR d) * E53)%R
      with (((y2 - a) * E53) * IZR d)%R by ring.
    apply Rmult_le_compat_r; lra. }
  destruct (two_roundings (IZR v) u (y2 * IZR d)%R E53 Hx HE H1 H2 H3' H4')
    as [Hlo Hhi].
  assert (Hlo' : (2 ^ 53 - 2) * v <= 2 ^ 53 * (c * d)).
  { apply le_IZR. rewrite !mult_IZR, minus_IZR. fold E53.
    assert ((y2 * IZR d <= IZR c * IZR d)%R) by (apply Rmult_le_compat_r; lra).
    nra. }
  assert (Hhi' : 2 ^ 53 * ((c - 1) * d) < (2 ^ 53 + 3) * v).
  { apply lt_IZR. rewrite !mult_IZR, plus_IZR, minus_IZR. fold E53.
    assert (((IZR c - 1) * IZR d < y2 * IZR d)%R)
      by (apply Rmult_lt_compat_r; lra).
    nra. }
  split; lia.
Qed.

End Accuracy.

(** ** Application types *)

(** X22. [AppType] and [AppTypeReverse] are inverse to each other: a name
    has the id [n] in [AppType] exactly when [n] has that name in
    [AppTypeReverse].  The ids are 1 to 5 and the names the five constants,
    so the zero value that Go returns for a name missing from [AppType] is no
    id of [AppTypeReverse]. *)
Theorem AppType_inverse :
  (forall (s : string) (n : Z),
      AppType !! s = Some n <-> AppTypeReverse !! n = Some s)
  /\ (forall n : Z, is_Some (AppTypeReverse !! n) <-> 1 <= n <= 5)
  /\ (forall s : string,
        is_Some (AppType !! s) <-> s ∈ [DB; APP; TERMINAL; JOB; OTHER]%list).
Proof.
  unfold AppType, AppTypeReverse.
  unfold apptype.other, apptype.job, apptype.terminal, apptype.app, apptype.db,
    OTHER, JOB, TERMINAL, APP, DB.
  split; [| split].
  - intros s n. rewrite !lookup_insert, !lookup_empty.
    repeat case_decide; subst; split; intros E; inversion E; subst;
      try reflexivity; try congruence; try lia.
  - intros n. rewrite !lookup_insert, !lookup_empty.
    repeat case_decide; subst;
      (split; [intros [? ?]; try discriminate; lia
              | intros; try (eexists; reflexivity); lia]).
  - intros s. rewrite !lookup_insert, !lookup_empty, !elem_of_cons, elem_of_nil.
    repeat case_decide; subst;
      (split; [intros [? ?]; try discriminate; auto 10
              | intros; try (eexists; reflexivity); exfalso;
                intuition congruence]).
Qed.

(** ** Default prices *)

Section DefaultPricesFacts.
Context `{Imports}.
Local Open Scope list_scope.

Lemma Default_StringMap :
  exists t0 t1 t2 t3,
    StringMap DefaultPropertyTypeLS
    = <["network" := t3]> (<["storage" := t2]>
        (<["memory" := t1]> (<["cpu" := t0]> ∅)))
    /\ UnitPrice t0 = 67 /\ UnitPrice t1 = 33
    /\ UnitPrice t2 = 2 /\ UnitPrice t3 = 781.
Proof.
  pose proof newPropertyTypeLS_Default as HD.
  rewrite newPropertyTypeLS_spec in HD.
  destruct (mapM parse_unit DefaultPropertyTypeList) as [ts|] eqn:Ets;
    [| discriminate].
  inversion HD as [HD']. clear HD HD'. apply mapM_Some in Ets.
  unfold DefaultPropertyTypeList in Ets.
  repeat match goal with
         | Hf : Forall2 _ (_ :: _) _ |- _ =>
             apply Forall2_cons_inv_l in Hf as (? & ? & ? & Hf & ->)
         | Hf : Forall2 _ [] _ |- _ => apply Forall2_nil_inv_l in Hf as ->
         end.
  repeat match goal with
         | Hp : parse_unit _ = Some _ |- _ =>
             pose proof (parse_unit_Name _ _ Hp);
             pose proof (proj1 (parse_unit_UnitPrice _ _ Hp)); clear Hp
         end.
  cbn [Name UnitPrice] in *.
  do 4 eexists. split; [| repeat split; eassumption].
  cbn [StringMap index_by foldl]. congruence.
Qed.

(** X23. Every entry of [DefaultPrices] is filed under its own property
    name and carries the unit price that the default registry has for that
    name; network has a price in the default registry, 781, and no entry in
    [DefaultPrices]. *)
Theorem DefaultPrices_agree :
  (forall n p, DefaultPrices !! n = Some p ->
     Price_Property p = n
     /\ exists t, StringMap DefaultPropertyTypeLS !! n = Some t
                  /\ UnitPrice t = Price_Price p)
  /\ DefaultPrices !! ResourceNetwork = None
  /\ exists t, StringMap DefaultPropertyTypeLS !! ResourceNetwork = Some t
               /\ UnitPrice t = 781.
Proof.
  destruct Default_StringMap as (t0 & t1 & t2 & t3 & Hm & P0 & P1 & P2 & P3).
  rewrite Hm. split; [| split].
  - intros n p. unfold DefaultPrices.
    rewrite !lookup_insert, lookup_empty.
    repeat case_decide; subst; intros E; inversion E; subst; cbn;
      try discriminate; (split; [reflexivity |]); eexists; split;
      try reflexivity; assumption.
  - reflexivity.
  - exists t3. split; [reflexivity | exact P3].
Qed.

End DefaultPricesFacts.

(** ** Concrete runs with the reference imports *)

Section Runs.
Local Existing Instance Reference.imports.
Local Open Scope list_scope.

(** C6 does not hold: in the registry built from two properties named [a]
    and [b] that share the enumeration id 0, the round trip from [a] ends at
    [b]. *)
Lemma registry_round_trip_shared_enum :
  exists ls,
    newPropertyTypeLS Reference.shared_enum_types = Some ls
    /\ "a" ∈ Name <$> Reference.shared_enum_types
    /\ Name (EnumMap_at ls (Enum (StringMap_at ls "a"))) = "b"
    /\ Name (EnumMap_at ls (Enum (StringMap_at ls "a"))) <> "a".
Proof.
  eexists. split; [reflexivity |].
  split; [apply elem_of_cons; now left |].
  split; [reflexivity | discriminate].
Qed.

Lemma NewPropertyTypeLS_all_or_nothing_witness :
  NewPropertyTypeLS Reference.half_encrypted_types
  = newPropertyTypeLS DefaultPropertyTypeList
  /\ NewPropertyTypeLS Reference.encrypted_types
     = newPropertyTypeLS (decrypted <$> Reference.encrypted_types).
Proof.
  split.
  - apply (proj1 (NewPropertyTypeLS_all_or_nothing Reference.half_encrypted_types)).
    right. left. left. reflexivity.
  - apply (proj2 (NewPropertyTypeLS_all_or_nothing Reference.encrypted_types)).
    (repeat constructor; try discriminate; eexists; reflexivity).
Defined.

Lemma registry_round_trip_witness :
  Name (EnumMap_at DefaultPropertyTypeLS
          (Enum (StringMap_at DefaultPropertyTypeLS "memory"))) = "memory".
Proof.
  apply (registry_round_trip DefaultPropertyTypeList).
  - reflexivity.
  - cbn. apply (bool_decide_unpack _). reflexivity.
  - cbn. apply (bool_decide_unpack _). reflexivity.
Defined.

Lemma newPropertyTypeLS_parses_once_witness :
  newPropertyTypeLS (Types DefaultPropertyTypeLS) = Some DefaultPropertyTypeLS.
Proof.
  apply (proj2 (newPropertyTypeLS_parses_once DefaultPropertyTypeList)).
  reflexivity.
Defined.

(** C4 does not hold: id 9 is unknown to the registry, and the translation
    of the usage map holding only [9 := 5] has an entry, under the empty
    name. *)
Lemma ConvertEnumUsedToString_unknown_id :
  EnumMap DefaultPropertyTypeLS !! 9 = None
  /\ forall costsMap,
       ConvertEnumUsedToString {[ 9 := 5 ]} costsMap ->
       costsMap !! EmptyString = Some 5 /\ costsMap <> ∅.
Proof.
  split; [reflexivity |].
  intros costsMap (order & Hord & ->).
  unfold range_order in Hord. rewrite map_to_list_singleton in Hord.
  apply Permutation_singleton_r in Hord. subst order.
  assert (Hl : ConvertEnumUsedToString_along [(9, 5)] !! EmptyString = Some 5)
    by reflexivity.
  split; [exact Hl |].
  intros E. rewrite E, lookup_empty in Hl. discriminate Hl.
Qed.

Lemma ConvertEnumUsedToString_lookup_witness :
  exists p, EnumMap DefaultPropertyTypeLS !! 0 = Some p
            /\ Name p = "cpu"
            /\ ConvertEnumUsedToString_along [(0, 7)] !! Name p = Some 7.
Proof.
  eexists. split; [reflexivity |]. split; [reflexivity |].
  apply (proj1 (proj2 (ConvertEnumUsedToString_lookup {[ 0 := 7 ]}) _
                  (ex_intro _ [(0, 7)]
                     (conj (eq_ind_r (fun l => [(0, 7)] ≡ₚ l)
                                     (reflexivity _)
                                     (map_to_list_singleton 0 7))
                           eq_refl))) 0 7).
  - apply lookup_singleton_eq.
  - reflexivity.
Defined.

(** C2 does not hold: the CPU divisor is one milli, and for the CPU quantity
    of [2^53 + 1] milli [GetResourceValue] returns [2^53], one less than
    [ceil(v/d)]. *)
Lemma GetResourceValue_cpu_above_2p53 :
  PricesUnit !! ResourceCPU = Some cpuUnit
  /\ MilliValue cpuUnit = 1
  /\ GetResourceValue ResourceCPU
       (single_resource ResourceCPU (Reference.milli (2 ^ 53 + 1)))
     = Some (2 ^ 53)
  /\ GetResourceValue ResourceCPU
       (single_resource ResourceCPU (Reference.milli (2 ^ 53 + 1)))
     <> Some (Zceil_div (MilliValue (Reference.milli (2 ^ 53 + 1)))
                        (MilliValue cpuUnit)).
Proof.
  assert (E : GetResourceValue ResourceCPU
                (single_resource ResourceCPU (Reference.milli (2 ^ 53 + 1)))
              = Some (2 ^ 53)) by reflexivity.
  repeat split; try reflexivity. rewrite E. intros E'. inversion E'.
Qed.

Lemma GetResourceValue_ceil_witness :
  GetResourceValue ResourceCPU
    (single_resource ResourceCPU (Reference.milli 1500))
  = Some (Zceil_div 1500 1)
  /\ GetResourceValue ResourceMemory
       (single_resource ResourceMemory
          (Reference.milli ((10 * 2 ^ 20 + 1) * 1000)))
     = Some 11.
Proof.
  split.
  - apply (proj1 (proj2 (proj2 (GetResourceValue_ceil ResourceCPU cpuUnit
                                  (single_resource ResourceCPU
                                     (Reference.milli 1500))
                                  eq_refl)
                           (plain_quantity (Reference.milli 1500))
                           (Reference.milli 1500) eq_refl eq_refl))).
    simpl. lia.
  - apply (proj2 (proj2 (proj2 (proj2 (GetResourceValue_ceil ResourceMemory
                                  bin1Mi
                                  (single_resource ResourceMemory
                                     (Reference.milli
                                        ((10 * 2 ^ 20 + 1) * 1000)))
                                  eq_refl)
                           (plain_quantity
                              (Reference.milli ((10 * 2 ^ 20 + 1) * 1000)))
                           (Reference.milli ((10 * 2 ^ 20 + 1) * 1000))
                           eq_refl eq_refl))));
      reflexivity.
Defined.

(** C7 does not hold on a platform that converts an unrepresentable value
    to the smallest [int64]: the CPU quantity of 1 milli gives 1, the larger
    CPU quantity of [2^63 - 1] milli gives [-2^63]. *)
Lemma GetResourceValue_not_monotone_at_top :
  MilliValue (Reference.milli 1) <= MilliValue (Reference.milli (2 ^ 63 - 1))
  /\ GetResourceValue ResourceCPU
       (single_resource ResourceCPU (Reference.milli 1)) = Some 1
  /\ GetResourceValue ResourceCPU
       (single_resource ResourceCPU (Reference.milli (2 ^ 63 - 1)))
     = Some (- 2 ^ 63)
  /\ ~ 1 <= - 2 ^ 63.
Proof. split; [simpl; lia |]. repeat split; try reflexivity. lia. Qed.

Lemma GetResourceValue_monotone_witness :
  exists r1 r2,
    GetResourceValue ResourceMemory
      (single_resource ResourceMemory (Reference.milli 1000)) = Some r1
    /\ GetResourceValue ResourceMemory
         (single_resource ResourceMemory (Reference.milli (2 ^ 62))) = Some r2
    /\ r1 <= r2.
Proof.
  apply (proj2 (proj2 (GetResourceValue_monotone ResourceMemory
                         (single_resource ResourceMemory (Reference.milli 1000))
                         (single_resource ResourceMemory
                            (Reference.milli (2 ^ 62)))
                         (plain_quantity (Reference.milli 1000))
                         (plain_quantity (Reference.milli (2 ^ 62)))
                         (Reference.milli 1000) (Reference.milli (2 ^ 62))
                         (ex_intro _ bin1Mi eq_refl))));
    try reflexivity; simpl; lia.
Defined.

Lemma GetResourceValue_nil_divisor_witness :
  GetResourceValue "gpu-tesla-v100"
    (single_resource "gpu-tesla-v100" (Reference.milli 1000)) = None.
Proof.
  apply (proj1 GetResourceValue_nil_divisor "gpu-tesla-v100"
           (single_resource "gpu-tesla-v100" (Reference.milli 1000))
           (plain_quantity (Reference.milli 1000)) (Reference.milli 1000)).
  - apply (proj1 (proj2 (proj2 GetResourceValue_nil_divisor)) "tesla-v100").
    discriminate.
  - reflexivity.
  - reflexivity.
  - simpl. lia.
Defined.

End Runs.

(** ** More concrete runs with the reference imports *)

Section MoreRuns.
Local Existing Instance Reference.imports.
Local Open Scope list_scope.

Lemma decryptPrice_first_failure_witness :
  decryptPrice Reference.half_encrypted_types
  = ((decrypted <$> take 1 Reference.half_encrypted_types)
       ++ drop 1 Reference.half_encrypted_types,
     Some (ErrEmptyPrice "memory")).
Proof.
  apply (decryptPrice_first_failure (take 1 Reference.half_encrypted_types) []
           (nth 1 Reference.half_encrypted_types PropertyType_zero)).
  - repeat constructor; try discriminate. eexists; reflexivity.
  - left. reflexivity.
Defined.

Lemma NewPropertyTypeLS_ignores_UnitPrice_witness :
  NewPropertyTypeLS Reference.encrypted_types
  = NewPropertyTypeLS (set_UnitPrice 5 <$> Reference.encrypted_types).
Proof.
  apply NewPropertyTypeLS_ignores_UnitPrice.
  repeat constructor.
Defined.

Lemma newPropertyTypeLS_index_witness :
  length (Types DefaultPropertyTypeLS) = length DefaultPropertyTypeList
  /\ (is_Some (StringMap DefaultPropertyTypeLS !! "cpu")
      <-> "cpu" ∈ Name <$> DefaultPropertyTypeList).
Proof.
  destruct (newPropertyTypeLS_index DefaultPropertyTypeList
              DefaultPropertyTypeLS newPropertyTypeLS_Default) as (Hl & Hs & _).
  split; [exact Hl | apply Hs].
Defined.

Lemma newPropertyTypeLS_last_wins_witness :
  exists t',
    Types DefaultPropertyTypeLS !! 1%nat = Some t'
    /\ StringMap DefaultPropertyTypeLS !! "memory" = Some t'
    /\ EnumMap DefaultPropertyTypeLS !! 1 = Some t'.
Proof.
  destruct (newPropertyTypeLS_last_wins (take 1 DefaultPropertyTypeList)
              (drop 2 DefaultPropertyTypeList)
              (nth 1 DefaultPropertyTypeList PropertyType_zero)
              DefaultPropertyTypeLS newPropertyTypeLS_Default) as (t' & _ & Ht & Hn & He).
  exists t'. split; [exact Ht |]. split.
  - apply Hn. apply (bool_decide_unpack _). reflexivity.
  - apply He. apply (bool_decide_unpack _). reflexivity.
Defined.

Lemma registry_name_index_faithful_witness :
  Enum (StringMap_at DefaultPropertyTypeLS
          (Name (EnumMap_at DefaultPropertyTypeLS 2))) = 2.
Proof.
  apply (registry_name_index_faithful DefaultPropertyTypeList
           DefaultPropertyTypeLS newPropertyTypeLS_Default).
  - apply (bool_decide_unpack _). reflexivity.
  - apply (bool_decide_unpack _). reflexivity.
Defined.

Lemma NewPropertyTypeLS_again_witness :
  exists ls,
    NewPropertyTypeLS Reference.encrypted_types = Some ls
    /\ NewPropertyTypeLS (Types ls) = Some ls.
Proof.
  eexists. split; [reflexivity |].
  apply (proj1 (NewPropertyTypeLS_again Reference.encrypted_types _ eq_refl)).
  repeat constructor; try discriminate; eexists; reflexivity.
Defined.

(** The usage map with the known id 0 and the unknown id 9, and one of its
    visiting orders. *)
Lemma range_order_0_9 :
  range_order (<[0 := 7]> {[ 9 := 5 ]}) [(0, 7); (9, 5)].
Proof.
  unfold range_order. rewrite map_to_list_insert by reflexivity.
  now rewrite map_to_list_singleton.
Qed.

Lemma range_order_8_9 :
  range_order (<[8 := 1]> {[ 9 := 5 ]}) [(8, 1); (9, 5)].
Proof.
  unfold range_order. rewrite map_to_list_insert by reflexivity.
  now rewrite map_to_list_singleton.
Qed.

Lemma ConvertEnumUsedToString_deterministic_witness :
  size (ConvertEnumUsedToString_along [(0, 7); (9, 5)]) = 2%nat
  /\ ConvertEnumUsedToString_along [(0, 7); (9, 5)] !! "cpu" = Some 7
  /\ ConvertEnumUsedToString_along [(0, 7); (9, 5)] !! EmptyString = Some 5.
Proof.
  destruct (ConvertEnumUsedToString_deterministic
              (<[0 := 7]> {[ 9 := 5 ]})
              (ConvertEnumUsedToString_along [(0, 7); (9, 5)])
              (ConvertEnumUsedToString_along [(0, 7); (9, 5)]))
    as (_ & Hsize & Hlook).
  - intros k1 k2 [v1 H1] [v2 H2] Ho1 Ho2.
    apply lookup_insert_Some in H1 as [[<- _] | [_ H1]]; [lia |].
    apply lookup_insert_Some in H2 as [[<- _] | [_ H2]]; [lia |].
    apply lookup_singleton_Some in H1 as [<- _].
    apply lookup_singleton_Some in H2 as [<- _]. reflexivity.
  - exists [(0, 7); (9, 5)]. split; [exact range_order_0_9 | reflexivity].
  - exists [(0, 7); (9, 5)]. split; [exact range_order_0_9 | reflexivity].
  - split; [exact Hsize |]. split.
    + apply (Hlook 0 7). reflexivity.
    + apply (Hlook 9 5). reflexivity.
Defined.

Lemma ConvertEnumUsedToString_order_dependent_witness :
  exists m1 m2,
    ConvertEnumUsedToString (<[8 := 1]> {[ 9 := 5 ]}) m1
    /\ ConvertEnumUsedToString (<[8 := 1]> {[ 9 := 5 ]}) m2
    /\ m1 !! EmptyString = Some 1 /\ m2 !! EmptyString = Some 5.
Proof.
  refine (proj1 (ConvertEnumUsedToString_order_dependent
                  (<[8 := 1]> {[ 9 := 5 ]}) 8 9 1 5 _ _ _ _ _));
    try reflexivity; lia.
Defined.

Lemma ConvertEnumUsedToString_bounded_witness :
  (size (ConvertEnumUsedToString_along [(8, 1)%Z; (9, 5)%Z]) <= 5)%nat.
Proof.
  apply (ConvertEnumUsedToString_bounded (<[8 := 1]> {[ 9 := 5 ]})).
  exists [(8, 1); (9, 5)]. split; [exact range_order_8_9 | reflexivity].
Defined.

Lemma GetResourceValue_sign_witness :
  exists r,
    GetResourceValue ResourceMemory
      (single_resource ResourceMemory (Reference.milli 1)) = Some r
    /\ 1 <= r.
Proof.
  destruct (GetResourceValue_sign ResourceMemory
              (single_resource ResourceMemory (Reference.milli 1))
              (plain_quantity (Reference.milli 1)) (Reference.milli 1)
              (ex_intro _ bin1Mi eq_refl) eq_refl eq_refl)
    as (r & Er & Hpos & _).
  - simpl. lia.
  - exists r. split; [exact Er |]. apply Hpos. simpl. lia.
Defined.

Lemma GetResourceValue_subadditive_witness :
  exists r1 r2 r,
    GetResourceValue ResourceMemory
      (single_resource ResourceMemory (Reference.milli 1048576001)) = Some r1
    /\ GetResourceValue ResourceMemory
         (single_resource ResourceMemory (Reference.milli 1048576001)) = Some r2
    /\ GetResourceValue ResourceMemory
         (single_resource ResourceMemory (Reference.milli 2097152002)) = Some r
    /\ r1 + r2 - 1 <= r <= r1 + r2.
Proof.
  apply (GetResourceValue_subadditive ResourceMemory
           (Reference.milli 1048576001) (Reference.milli 1048576001)
           (Reference.milli 2097152002));
    [exists bin1Mi; reflexivity | reflexivity | simpl; lia ..].
Defined.

Lemma GetResourceValue_accuracy_witness :
  exists r,
    GetResourceValue ResourceCPU
      (single_resource ResourceCPU (Reference.milli (2 ^ 53 + 1))) = Some r
    /\ (2 ^ 52 - 1) * (2 ^ 53 + 1) <= 2 ^ 52 * (r * 1)
    /\ 2 ^ 51 * ((r - 1) * 1) < (2 ^ 51 + 1) * (2 ^ 53 + 1).
Proof.
  apply (GetResourceValue_accuracy ResourceCPU cpuUnit
           (single_resource ResourceCPU (Reference.milli (2 ^ 53 + 1)))
           (plain_quantity (Reference.milli (2 ^ 53 + 1)))
           (Reference.milli (2 ^ 53 + 1)));
    [reflexivity | reflexivity | reflexivity | simpl; lia].
Defined.

Lemma GetInfraCPUQuantity_millicores_witness :
  exists q,
    GetInfraCPUQuantity 64 "t2.xlarge" 3 = Some q
    /\ MilliValue q = 4 * 3 * 1000
    /\ GetResourceValue ResourceCPU
         {[ ResourceCPU :=
              {| QuantityDetail_Quantity := GetInfraCPUQuantity 64 "t2.xlarge" 3;
                 QuantityDetail_Detail := EmptyString |} ]}
       = Some (4 * 3 * 1000).
Proof.
  apply (GetInfraCPUQuantity_millicores 64 "t2.xlarge" 3 4 EmptyString);
    [now right | reflexivity | lia].
Defined.

Lemma GetInfraMemoryQuantity_MiB_witness :
  exists q,
    GetInfraMemoryQuantity 64 "t2.large" 2 = Some q
    /\ MilliValue q = 8 * 2 * 2 ^ 30 * 1000
    /\ GetResourceValue ResourceMemory
         {[ ResourceMemory :=
              {| QuantityDetail_Quantity := GetInfraMemoryQuantity 64 "t2.large" 2;
                 QuantityDetail_Detail := EmptyString |} ]}
       = Some (8 * 2 * 1024).
Proof.
  apply (GetInfraMemoryQuantity_MiB "t2.large" 2 8 EmptyString);
    [reflexivity | simpl; lia].
Defined.

Lemma GetInfraDiskQuantity_MiB_witness :
  MilliValue (GetInfraDiskQuantity 64 100) = 100 * 2 ^ 30 * 1000
  /\ GetResourceValue ResourceStorage
       {[ ResourceStorage :=
            {| QuantityDetail_Quantity := Some (GetInfraDiskQuantity 64 100);
               QuantityDetail_Detail := EmptyString |} ]}
     = Some (100 * 1024).
Proof.
  apply (GetInfraDiskQuantity_MiB 100 EmptyString). simpl; lia.
Defined.

Lemma GetInfraMemoryQuantity_int32_witness :
  GetInfraMemoryQuantity 32 "t2.medium" 1 = Some (NewQuantity 0 BinarySI)
  /\ GetResourceValue ResourceMemory
       {[ ResourceMemory :=
            {| QuantityDetail_Quantity := GetInfraMemoryQuantity 32 "t2.medium" 1;
               QuantityDetail_Detail := EmptyString |} ]}
     = Some 0.
Proof.
  apply (GetInfraMemoryQuantity_int32 "t2.medium" 1 EmptyString).
  apply elem_of_cons. now left.
Defined.

End MoreRuns.
